(** * cgroups: the memory controller and the prometheus collector

    A shallow embedding of [memory.go] (package [cgroups]) and of
    [prometheus/metrics.go] (package [prometheus]), followed by the
    properties the design document states about them.

    Conventions of the embedding.
    - A Go [uint64] / [uintptr] is an [N]; the code only compares, copies and
      prints such values, so no wrap-around arithmetic arises.
    - A Go pointer that may be [nil] is an [option]; dereferencing [nil] is
      the outcome [Panics].
    - A Go [error] result is an [option error] ([None] is [nil]); a pair
      [(v, err)] is a sum [error + V] where the code only uses [v] when
      [err == nil].
    - File-system and system-call effects are threaded through a state monad
      over a [World]: the kernel's view of the cgroup file system (abstract,
      supplied by an [Env]), the process's descriptor table, and the log of
      calls made so far, oldest first. *)

From Stdlib Require Import ZArith NArith String Ascii List DecimalString DecimalN
  DecimalPos Permutation.
From stdpp Require Import base gmap strings list.

Local Open Scope string_scope.

(** ** Pieces of the Go runtime and standard library the code relies on *)

Module Go.

(** [syscall.Errno]; zero means "no error". *)
Definition Errno := N.
Definition EBUSY : Errno := 16%N.
Definition EBADF : Errno := 9%N.

(** The dynamic shapes of [error] the code can tell apart: [*os.PathError],
    [syscall.Errno], and the opaque errors made by [errors.New] and
    [fmt.Errorf]. *)
Inductive error : Type :=
| PathError (Op Path : string) (Err : error)
| ErrnoError (e : Errno)
| errorString (s : string).

Definition errors_New (s : string) : error := errorString s.
Definition fmt_Errorf (s : string) : error := errorString s.

Definition io_ErrShortWrite : error := errors_New "short write".

(** What a function call leaves behind: a result, or a run-time panic. *)
Inductive Outcome (A : Type) : Type :=
| Returns (a : A)
| Panics.
Arguments Returns {A} a.
Arguments Panics {A}.

(** [strconv.FormatUint(v, 10)] and [strconv.FormatInt(i, 10)]. *)
Definition FormatUint (v : N) : string := NilZero.string_of_uint (N.to_uint v).
Definition FormatInt (i : Z) : string := NilZero.string_of_int (Z.to_int i).

(** [strings.Join(elems, sep)]. *)
Definition strings_Join (elems : list string) (sep : string) : string :=
  String.concat sep elems.

(** [path/filepath] on Unix.  [Clean] is modelled on path components: empty
    and ["."] components vanish, a [".."] cancels the component before it,
    is dropped at the root of a rooted path and is kept at the front of a
    relative one. *)
Module filepath.

Fixpoint split (s : string) : list string :=
  match s with
  | EmptyString => [EmptyString]
  | String c rest =>
      if Ascii.eqb c "/" then EmptyString :: split rest
      else match split rest with
           | [] => [String c EmptyString]
           | h :: t => String c h :: t
           end
  end.

(** The components kept so far, innermost first. *)
Definition clean_step (rooted : bool) (kept : list string) (comp : string) : list string :=
  if String.eqb comp "" then kept
  else if String.eqb comp "." then kept
  else if String.eqb comp ".." then
    match kept with
    | [] => if rooted then [] else [".."]
    | top :: below => if String.eqb top ".." then ".." :: kept else below
    end
  else comp :: kept.

Definition is_rooted (path : string) : bool :=
  match path with
  | String c _ => Ascii.eqb c "/"
  | EmptyString => false
  end.

Definition Clean (path : string) : string :=
  if String.eqb path "" then "."
  else
    let rooted := is_rooted path in
    let kept := fold_left (clean_step rooted) (split path) [] in
    let body := strings_Join (rev kept) "/" in
    if rooted then "/" +:+ body
    else if String.eqb body "" then "." else body.

Fixpoint Join (elem : list string) : string :=
  match elem with
  | [] => ""
  | e :: rest =>
      if String.eqb e "" then Join rest
      else Clean (strings_Join elem "/")
  end.

End filepath.

(** [bufio.Scanner] with its default split function [ScanLines] and its
    default buffer, over the bytes a file delivers.  A line ends at a newline;
    one carriage return before it is dropped; a last line without newline is
    yielded when it is not empty.  The buffer grows up to
    [MaxScanTokenSize]: when it is full of one line's bytes with no newline
    among them, [Scan] gives up with [ErrTooLong] and yields neither that
    line nor anything after it. *)
Module bufio.

Definition MaxScanTokenSize : N := 65536.

Definition ErrTooLong : error := errors_New "bufio.Scanner: token too long".

Fixpoint dropCR (data : string) : string :=
  match data with
  | EmptyString => EmptyString
  | String c rest =>
      match rest with
      | EmptyString => if Ascii.eqb c "013" then EmptyString else data
      | String _ _ => String c (dropCR rest)
      end
  end.

(** [line] holds the bytes of the current line, last first, and [n] is
    their number.  The result is the tokens the successful calls of [Scan]
    yield, and what [Err()] reports once [Scan] has returned false. *)
Fixpoint scan_from (input : string) (line : list ascii) (n : N)
  : list string * option error :=
  match input with
  | EmptyString =>
      (match line with
       | [] => []
       | _ :: _ => [dropCR (string_of_list_ascii (rev line))]
       end, None)
  | String c rest =>
      if Ascii.eqb c "010" then
        let '(tokens, err) := scan_from rest [] 0 in
        (dropCR (string_of_list_ascii (rev line)) :: tokens, err)
      else if N.leb MaxScanTokenSize (n + 1) then ([], Some ErrTooLong)
      else scan_from rest (c :: line) (n + 1)
  end.

Definition Scanner_lines (input : string) : list string * option error :=
  scan_from input [] 0.

End bufio.

End Go.

Import Go.

Arguments filepath.Join : simpl never.
Arguments filepath.Clean : simpl never.
Arguments FormatUint : simpl never.
Arguments FormatInt : simpl never.

(** ** Package [specs]: the resource limits handed to [Create] and [Update] *)

Module specs.

(** [LinuxMemory]: every knob is a pointer, so "not provided" ([None]) is
    distinct from "provided as zero" ([Some 0]).  The field types are those
    the controller uses them at: each is assigned to, or converted into, a
    [*uint64]. *)
Record LinuxMemory : Type := {
  Limit : option N;
  Reservation : option N;
  Swap : option N;
  Kernel : option N;
  KernelTCP : option N;
  Swappiness : option N
}.

Record LinuxResources : Type := {
  DisableOOMKiller : option bool;
  Memory : option LinuxMemory
}.

End specs.

(** ** Package [cgroups]: the memory controller *)

Module cgroups.

Definition Name := string.

(** Modelled from the spec: the constant [Memory] of type [Name] is declared
    outside this file; the design document fixes the dimension name of the
    memory controller as "memory". *)
Definition Memory : Name := "memory".

(** *** Statistics records, as the struct literal in [Stat] fills them *)

Module MemoryEntry.
Record t : Type := {
  Limit : N;
  Usage : N;
  Max : N;
  Failcnt : N
}.
Definition zero : t := {| Limit := 0; Usage := 0; Max := 0; Failcnt := 0 |}.
End MemoryEntry.

Module MemoryStat.
Record t : Type := {
  Cache : N;
  RSS : N;
  RSSHuge : N;
  MappedFile : N;
  Dirty : N;
  Writeback : N;
  PgPgIn : N;
  PgPgOut : N;
  PgFault : N;
  PgMajFault : N;
  InactiveAnon : N;
  ActiveAnon : N;
  InactiveFile : N;
  ActiveFile : N;
  Unevictable : N;
  HierarchicalMemoryLimit : N;
  HierarchicalSwapLimit : N;
  TotalCache : N;
  TotalRSS : N;
  TotalRSSHuge : N;
  TotalMappedFile : N;
  TotalDirty : N;
  TotalWriteback : N;
  TotalPgPgIn : N;
  TotalPgPgOut : N;
  TotalPgFault : N;
  TotalPgMajFault : N;
  TotalInactiveAnon : N;
  TotalActiveAnon : N;
  TotalInactiveFile : N;
  TotalActiveFile : N;
  TotalUnevictable : N;
  Usage : MemoryEntry.t;
  Swap : MemoryEntry.t;
  Kernel : MemoryEntry.t;
  KernelTCP : MemoryEntry.t
}.
End MemoryStat.

(** Only the [Memory] sub-record of [Stats] is touched by this controller. *)
Module Stats.
Record t : Type := { Memory : option MemoryStat.t }.
End Stats.

(** *** The environment: kernel, descriptor table, call log *)

(** What a descriptor of the process refers to. *)
Inductive FdKind : Type :=
| FdFile (name : string)
| FdEvent.

(** How one [ioutil.WriteFile] can end: its open, write or close step fails
    with an errno, or the write is short. *)
Inductive WriteOutcome : Type :=
| WriteOk
| WriteFailed (op : string) (e : Errno)
| ShortWrite.

(** The error value [ioutil.WriteFile] hands back: a failing step yields the
    [*os.PathError] of that step. *)
Definition write_error (filename : string) (o : WriteOutcome) : option error :=
  match o with
  | WriteOk => None
  | WriteFailed op e => Some (PathError op filename (ErrnoError e))
  | ShortWrite => Some io_ErrShortWrite
  end.

(** Everything the controller takes from outside this file: the behaviour of
    the kernel on each call, and the package-level declarations
    ([defaultDirPerm], [defaultFilePerm], [readUint], [parseKV]) that live in
    other files of the package.  Reads are observers of the kernel state;
    only [MkdirAll] and writes change it. *)
Record Env : Type := {
  kernel : Type;
  defaultDirPerm : N;
  defaultFilePerm : N;
  sys_mkdirall : string -> N -> kernel -> option error * kernel;
  sys_writefile : string -> string -> N -> kernel -> WriteOutcome * kernel;
  sys_open : string -> N -> kernel -> gmap N FdKind -> option Errno;
  sys_scan : string -> kernel -> list (string * option error);
  sys_eventfd2 : N -> N -> kernel -> gmap N FdKind -> Errno;
  sys_write : string -> string -> kernel -> option error * kernel;
  readUint_result : string -> kernel -> error + N;
  parseKV : string -> error + (string * N)
}.

Record File : Type := { Fd : N; File_name : string }.

Inductive Event : Type :=
| EvMkdirAll (path : string) (perm : N) (r : option error)
| EvWriteFile (filename data : string) (perm : N) (r : option error)
| EvReadUint (path : string) (r : error + N)
| EvOpenFile (name : string) (flag : N) (r : error + N)
| EvEventfd2 (initval flags : N) (r : N * Errno)
| EvWriteString (fd : N) (data : string) (r : option error)
| EvClose (fd : N) (r : option error).

Record World (E : Env) : Type := {
  kern : kernel E;
  fdt : gmap N FdKind;
  log : list Event
}.
Arguments kern {E} w.
Arguments fdt {E} w.
Arguments log {E} w.

Definition O_RDONLY : N := 0.
Definition O_WRONLY : N := 1.
Definition FD_CLOEXEC : N := 1.

Record memorySettings : Type := {
  name : string;
  value : option N
}.

Record memoryController : Type := { root : string }.

Definition NewMemory (root : string) : memoryController :=
  {| root := filepath.Join [root; Memory] |}.

Definition memoryController_Name (m : memoryController) : Name := Memory.

Definition Path (m : memoryController) (path : string) : string :=
  filepath.Join [root m; path].

Definition getOomControlValue (resources : specs.LinuxResources) : option N :=
  match specs.DisableOOMKiller resources with
  | Some true => Some 1%N
  | _ => None
  end.

(** [mem := resources.Memory] is dereferenced without a check; the callers
    have tested it. *)
Definition getMemorySettings (resources : specs.LinuxResources)
  : Outcome (list memorySettings) :=
  match specs.Memory resources with
  | None => Panics
  | Some mem =>
      let swappiness :=
        match specs.Swappiness mem with
        | Some v => Some v
        | None => None
        end in
      Returns
        [ {| name := "limit_in_bytes"; value := specs.Limit mem |};
          {| name := "memsw.limit_in_bytes"; value := specs.Swap mem |};
          {| name := "kmem.limit_in_bytes"; value := specs.Kernel mem |};
          {| name := "kmem.tcp.limit_in_bytes"; value := specs.KernelTCP mem |};
          {| name := "oom_control"; value := getOomControlValue resources |};
          {| name := "swappiness"; value := swappiness |} ]
  end.

Definition checkEBUSY (err : error) : error :=
  match err with
  | PathError _ _ (ErrnoError errNo) =>
      if N.eqb errNo EBUSY then
        fmt_Errorf "failed to set memory.kmem.limit_in_bytes, because either tasks have already joined this cgroup or it has children"
      else err
  | _ => err
  end.

(** [fmt.Sprintf("%d %d", a, b)]. *)
Definition Sprintf_d_d (a b : N) : string :=
  FormatUint a +:+ " " +:+ FormatUint b.

Section Controller.

Context (E : Env).

Definition M (A : Type) : Type := World E -> A * World E.

Definition ret {A : Type} (a : A) : M A := fun w => (a, w).

Definition bind {A B : Type} (m : M A) (k : A -> M B) : M B :=
  fun w => let '(a, w') := m w in k a w'.

Notation "x <- m ;; k" := (bind m (fun x => k))
  (at level 100, m at next level, right associativity).

(** [defer cleanup] placed before [body]: the cleanup runs when the
    function returns, after the results are computed. *)
Definition defer {A B : Type} (cleanup : M B) (body : M A) : M A :=
  a <- body ;; _ <- cleanup ;; ret a.

Definition record (w : World E) (k : kernel E) (t : gmap N FdKind) (e : Event)
  : World E :=
  {| kern := k; fdt := t; log := (log w ++ [e])%list |}.

(** **** Calls into the operating system *)

Definition os_MkdirAll (path : string) (perm : N) : M (option error) :=
  fun w =>
    let '(r, k) := sys_mkdirall E path perm (kern w) in
    (r, record w k (fdt w) (EvMkdirAll path perm r)).

Definition ioutil_WriteFile (filename data : string) (perm : N) : M (option error) :=
  fun w =>
    let '(o, k) := sys_writefile E filename data perm (kern w) in
    let r := write_error filename o in
    (r, record w k (fdt w) (EvWriteFile filename data perm r)).

(** The kernel hands out a descriptor that is not in use. *)
Definition os_OpenFile (name : string) (flag perm : N) : M (error + File) :=
  fun w =>
    match sys_open E name flag (kern w) (fdt w) with
    | Some e =>
        let err := PathError "open" name (ErrnoError e) in
        (inl err, record w (kern w) (fdt w) (EvOpenFile name flag (inl err)))
    | None =>
        let fd := fresh (dom (fdt w)) in
        (inr {| Fd := fd; File_name := name |},
         record w (kern w) (<[fd := FdFile name]> (fdt w))
           (EvOpenFile name flag (inr fd)))
    end.

Definition os_Open (name : string) : M (error + File) :=
  os_OpenFile name O_RDONLY 0.

(** [syscall.Close]: the descriptor is released; closing one that is not
    open is [EBADF].  Closing an open descriptor is taken to succeed; the
    code drops the result of every close it makes, so nothing it returns
    depends on it. *)
Definition syscall_Close (fd : N) : M (option error) :=
  fun w =>
    let r := match fdt w !! fd with
             | Some _ => None
             | None => Some (ErrnoError EBADF)
             end in
    (r, record w (kern w) (delete fd (fdt w)) (EvClose fd r)).

Definition File_Close (f : File) : M (option error) :=
  fun w =>
    let r := match fdt w !! Fd f with
             | Some _ => None
             | None => Some (PathError "close" (File_name f) (ErrnoError EBADF))
             end in
    (r, record w (kern w) (delete (Fd f) (fdt w)) (EvClose (Fd f) r)).

Definition File_WriteString (f : File) (s : string) : M (option error) :=
  fun w =>
    let '(r, k) := sys_write E (File_name f) s (kern w) in
    (r, record w k (fdt w) (EvWriteString (Fd f) s r)).

(** [syscall.RawSyscall(syscall.SYS_EVENTFD2, initval, flags, 0)]: the
    first result is the new descriptor, or -1 as a [uintptr] with a
    non-zero errno. *)
Definition RawSyscall_EVENTFD2 (initval flags : N) : M (N * Errno) :=
  fun w =>
    let e := sys_eventfd2 E initval flags (kern w) (fdt w) in
    if N.eqb e 0 then
      let fd := fresh (dom (fdt w)) in
      ((fd, 0%N), record w (kern w) (<[fd := FdEvent]> (fdt w))
                    (EvEventfd2 initval flags (fd, 0%N)))
    else
      ((N.ones 64, e), record w (kern w) (fdt w)
                         (EvEventfd2 initval flags (N.ones 64, e))).

(** The lines a [bufio.Scanner] over the file yields: for each successful
    [Scan()], the text and what [Err()] reports at that point. *)
Definition bufio_scan (f : File) : M (list (string * option error)) :=
  fun w => (sys_scan E (File_name f) (kern w), w).

(** [readUint] is declared in another file of the package; its result on a
    path is taken from the environment. *)
Definition readUint (path : string) : M (error + N) :=
  fun w =>
    let r := readUint_result E path (kern w) in
    (r, record w (kern w) (fdt w) (EvReadUint path r)).

(** **** The controller *)

Fixpoint set (m : memoryController) (path : string) (settings : list memorySettings)
  : M (option error) :=
  match settings with
  | [] => ret None
  | t :: rest =>
      match value t with
      | Some v =>
          err <- ioutil_WriteFile
                   (filepath.Join [Path m path; "memory." +:+ name t])
                   (FormatUint v)
                   (defaultFilePerm E) ;;
          match err with
          | Some e => ret (Some e)
          | None => set m path rest
          end
      | None => set m path rest
      end
  end.

(** The probe loop of [Create] over [[]int64{1, -1}]. *)
Fixpoint kmem_probe (m : memoryController) (path : string) (probes : list Z)
  : M (option error) :=
  match probes with
  | [] => ret None
  | i :: rest =>
      err <- ioutil_WriteFile
               (filepath.Join [Path m path; "memory.kmem.limit_in_bytes"])
               (FormatInt i)
               (defaultFilePerm E) ;;
      match err with
      | Some e => ret (Some (checkEBUSY e))
      | None => kmem_probe m path rest
      end
  end.

Definition Create (m : memoryController) (path : string)
    (resources : option specs.LinuxResources) : M (Outcome (option error)) :=
  err <- os_MkdirAll (Path m path) (defaultDirPerm E) ;;
  match err with
  | Some e => ret (Returns (Some e))
  | None =>
      match resources with
      | None => ret Panics
      | Some res =>
          match specs.Memory res with
          | None => ret (Returns None)
          | Some mem =>
              perr <- match specs.Kernel mem with
                      | Some _ => kmem_probe m path [1%Z; (-1)%Z]
                      | None => ret None
                      end ;;
              match perr with
              | Some e => ret (Returns (Some e))
              | None =>
                  match getMemorySettings res with
                  | Panics => ret Panics
                  | Returns settings =>
                      r <- set m path settings ;; ret (Returns r)
                  end
              end
          end
      end
  end.

(** [settings[0], settings[1] = settings[1], settings[0]]; an index out of
    range panics. *)
Definition swap01 (settings : list memorySettings) : Outcome (list memorySettings) :=
  match settings !! 0%nat, settings !! 1%nat with
  | Some s0, Some s1 => Returns (<[1%nat := s0]> (<[0%nat := s1]> settings))
  | _, _ => Panics
  end.

Definition Update (m : memoryController) (path : string)
    (resources : option specs.LinuxResources) : M (Outcome (option error)) :=
  match resources with
  | None => ret Panics
  | Some res =>
      match specs.Memory res with
      | None => ret (Returns None)
      | Some mem =>
          let g := fun v : option N =>
                     match v with
                     | Some x => N.ltb 0 x
                     | None => false
                     end in
          match getMemorySettings res with
          | Panics => ret Panics
          | Returns settings =>
              if g (specs.Limit mem) && g (specs.Swap mem) then
                r <- readUint (filepath.Join [Path m path; "memory.limit_in_bytes"]) ;;
                match r with
                | inl err => ret (Returns (Some err))
                | inr current =>
                    match specs.Swap mem with
                    | None => ret Panics
                    | Some swap =>
                        if N.ltb current swap then
                          match swap01 settings with
                          | Panics => ret Panics
                          | Returns settings' =>
                              e <- set m path settings' ;; ret (Returns e)
                          end
                        else
                          e <- set m path settings ;; ret (Returns e)
                    end
                end
              else
                e <- set m path settings ;; ret (Returns e)
          end
      end
  end.

(** **** Statistics *)

(** [raw[key]] on a Go map: the zero value when the key is absent. *)
Definition index (raw : gmap string N) (key : string) : N :=
  default 0%N (raw !! key).

(** The body of the scanning loop of [parseStats], over the lines the
    scanner yields. *)
Fixpoint scan_loop (lines : list (string * option error)) (out : gmap string N)
  : error + gmap string N :=
  match lines with
  | [] => inr out
  | (text, scerr) :: rest =>
      match scerr with
      | Some err => inl err
      | None =>
          match parseKV E text with
          | inl err => inl err
          | inr (key, v) => scan_loop rest (<[key := v]> out)
          end
      end
  end.

Definition parseStats (m : memoryController) (path : string)
  : M (error + gmap string N) :=
  r <- os_Open (filepath.Join [Path m path; "memory.stat"]) ;;
  match r with
  | inl err => ret (inl err)
  | inr f =>
      defer (File_Close f)
        (lines <- bufio_scan f ;;
         ret (scan_loop lines ∅))
  end.

(** The two tables [Stat] ranges over.  A pointer into the snapshot is the
    function that stores through it. *)
Record usage_class : Type := {
  module : string;
  entry : (MemoryEntry.t -> MemoryEntry.t) -> MemoryStat.t -> MemoryStat.t
}.

Record usage_field : Type := {
  field_name : string;
  field_value : N -> MemoryEntry.t -> MemoryEntry.t
}.

Definition with_Usage (f : MemoryEntry.t -> MemoryEntry.t) (s : MemoryStat.t)
  : MemoryStat.t :=
  let 'MemoryStat.Build_t a1 a2 a3 a4 a5 a6 a7 a8 a9 a10 a11 a12 a13 a14 a15 a16
         a17 a18 a19 a20 a21 a22 a23 a24 a25 a26 a27 a28 a29 a30 a31 a32
         u sw k kt := s in
  MemoryStat.Build_t a1 a2 a3 a4 a5 a6 a7 a8 a9 a10 a11 a12 a13 a14 a15 a16
    a17 a18 a19 a20 a21 a22 a23 a24 a25 a26 a27 a28 a29 a30 a31 a32
    (f u) sw k kt.

Definition with_Swap (f : MemoryEntry.t -> MemoryEntry.t) (s : MemoryStat.t)
  : MemoryStat.t :=
  let 'MemoryStat.Build_t a1 a2 a3 a4 a5 a6 a7 a8 a9 a10 a11 a12 a13 a14 a15 a16
         a17 a18 a19 a20 a21 a22 a23 a24 a25 a26 a27 a28 a29 a30 a31 a32
         u sw k kt := s in
  MemoryStat.Build_t a1 a2 a3 a4 a5 a6 a7 a8 a9 a10 a11 a12 a13 a14 a15 a16
    a17 a18 a19 a20 a21 a22 a23 a24 a25 a26 a27 a28 a29 a30 a31 a32
    u (f sw) k kt.

Definition with_Kernel (f : MemoryEntry.t -> MemoryEntry.t) (s : MemoryStat.t)
  : MemoryStat.t :=
  let 'MemoryStat.Build_t a1 a2 a3 a4 a5 a6 a7 a8 a9 a10 a11 a12 a13 a14 a15 a16
         a17 a18 a19 a20 a21 a22 a23 a24 a25 a26 a27 a28 a29 a30 a31 a32
         u sw k kt := s in
  MemoryStat.Build_t a1 a2 a3 a4 a5 a6 a7 a8 a9 a10 a11 a12 a13 a14 a15 a16
    a17 a18 a19 a20 a21 a22 a23 a24 a25 a26 a27 a28 a29 a30 a31 a32
    u sw (f k) kt.

Definition with_KernelTCP (f : MemoryEntry.t -> MemoryEntry.t) (s : MemoryStat.t)
  : MemoryStat.t :=
  let 'MemoryStat.Build_t a1 a2 a3 a4 a5 a6 a7 a8 a9 a10 a11 a12 a13 a14 a15 a16
         a17 a18 a19 a20 a21 a22 a23 a24 a25 a26 a27 a28 a29 a30 a31 a32
         u sw k kt := s in
  MemoryStat.Build_t a1 a2 a3 a4 a5 a6 a7 a8 a9 a10 a11 a12 a13 a14 a15 a16
    a17 a18 a19 a20 a21 a22 a23 a24 a25 a26 a27 a28 a29 a30 a31 a32
    u sw k (f kt).

Definition usage_classes : list usage_class :=
  [ {| module := ""; entry := with_Usage |};
    {| module := "memsw"; entry := with_Swap |};
    {| module := "kmem"; entry := with_Kernel |};
    {| module := "kmem.tcp"; entry := with_KernelTCP |} ].

Definition usage_fields : list usage_field :=
  [ {| field_name := "usage_in_bytes";
       field_value := fun v e =>
         {| MemoryEntry.Limit := MemoryEntry.Limit e; MemoryEntry.Usage := v;
            MemoryEntry.Max := MemoryEntry.Max e;
            MemoryEntry.Failcnt := MemoryEntry.Failcnt e |} |};
    {| field_name := "max_usage_in_bytes";
       field_value := fun v e =>
         {| MemoryEntry.Limit := MemoryEntry.Limit e;
            MemoryEntry.Usage := MemoryEntry.Usage e; MemoryEntry.Max := v;
            MemoryEntry.Failcnt := MemoryEntry.Failcnt e |} |};
    {| field_name := "failcnt";
       field_value := fun v e =>
         {| MemoryEntry.Limit := MemoryEntry.Limit e;
            MemoryEntry.Usage := MemoryEntry.Usage e;
            MemoryEntry.Max := MemoryEntry.Max e; MemoryEntry.Failcnt := v |} |};
    {| field_name := "limit_in_bytes";
       field_value := fun v e =>
         {| MemoryEntry.Limit := v; MemoryEntry.Usage := MemoryEntry.Usage e;
            MemoryEntry.Max := MemoryEntry.Max e;
            MemoryEntry.Failcnt := MemoryEntry.Failcnt e |} |} ].

(** The file one iteration of the inner loop reads. *)
Definition usage_file (t : usage_class) (tt' : usage_field) : string :=
  let parts := ["memory"] in
  let parts := if String.eqb (module t) "" then parts else (parts ++ [module t])%list in
  let parts := (parts ++ [field_name tt'])%list in
  strings_Join parts ".".

Fixpoint stat_fields (m : memoryController) (path : string) (t : usage_class)
    (tts : list usage_field) (mem : MemoryStat.t) : M (option error * MemoryStat.t) :=
  match tts with
  | [] => ret (None, mem)
  | tt' :: rest =>
      r <- readUint (filepath.Join [Path m path; usage_file t tt']) ;;
      match r with
      | inl err => ret (Some err, mem)
      | inr v => stat_fields m path t rest (entry t (field_value tt' v) mem)
      end
  end.

Fixpoint stat_classes (m : memoryController) (path : string)
    (ts : list usage_class) (mem : MemoryStat.t) : M (option error * MemoryStat.t) :=
  match ts with
  | [] => ret (None, mem)
  | t :: rest =>
      r <- stat_fields m path t usage_fields mem ;;
      match r with
      | (Some err, mem') => ret (Some err, mem')
      | (None, mem') => stat_classes m path rest mem'
      end
  end.

(** The struct literal of [Stat]; the four usage entries start zeroed. *)
Definition named_counters (raw : gmap string N) : MemoryStat.t :=
  {| MemoryStat.Cache := index raw "cache";
     MemoryStat.RSS := index raw "rss";
     MemoryStat.RSSHuge := index raw "rss_huge";
     MemoryStat.MappedFile := index raw "mapped_file";
     MemoryStat.Dirty := index raw "dirty";
     MemoryStat.Writeback := index raw "writeback";
     MemoryStat.PgPgIn := index raw "pgpgin";
     MemoryStat.PgPgOut := index raw "pgpgout";
     MemoryStat.PgFault := index raw "pgfault";
     MemoryStat.PgMajFault := index raw "pgmajfault";
     MemoryStat.InactiveAnon := index raw "inactive_anon";
     MemoryStat.ActiveAnon := index raw "active_anon";
     MemoryStat.InactiveFile := index raw "inactive_file";
     MemoryStat.ActiveFile := index raw "active_file";
     MemoryStat.Unevictable := index raw "unevictable";
     MemoryStat.HierarchicalMemoryLimit := index raw "hierarchical_memory_limit";
     MemoryStat.HierarchicalSwapLimit := index raw "hierarchical_memsw_limit";
     MemoryStat.TotalCache := index raw "total_cache";
     MemoryStat.TotalRSS := index raw "total_rss";
     MemoryStat.TotalRSSHuge := index raw "total_rss_huge";
     MemoryStat.TotalMappedFile := index raw "total_mapped_file";
     MemoryStat.TotalDirty := index raw "total_dirty";
     MemoryStat.TotalWriteback := index raw "total_writeback";
     MemoryStat.TotalPgPgIn := index raw "total_pgpgin";
     MemoryStat.TotalPgPgOut := index raw "total_pgpgout";
     MemoryStat.TotalPgFault := index raw "total_pgfault";
     MemoryStat.TotalPgMajFault := index raw "total_pgmajfault";
     MemoryStat.TotalInactiveAnon := index raw "total_inactive_anon";
     MemoryStat.TotalActiveAnon := index raw "total_active_anon";
     MemoryStat.TotalInactiveFile := index raw "total_inactive_file";
     MemoryStat.TotalActiveFile := index raw "total_active_file";
     MemoryStat.TotalUnevictable := index raw "total_unevictable";
     MemoryStat.Usage := MemoryEntry.zero;
     MemoryStat.Swap := MemoryEntry.zero;
     MemoryStat.Kernel := MemoryEntry.zero;
     MemoryStat.KernelTCP := MemoryEntry.zero |}.

(** [Stat] writes through [stats]; the snapshot it leaves is returned next
    to the error. *)
Definition Stat (m : memoryController) (path : string) (stats : Stats.t)
  : M (option error * Stats.t) :=
  r <- parseStats m path ;;
  match r with
  | inl err => ret (Some err, stats)
  | inr raw =>
      r' <- stat_classes m path usage_classes (named_counters raw) ;;
      ret (r'.1, {| Stats.Memory := Some r'.2 |})
  end.

(** **** OOM event registration *)

Definition writeEventFD (root : string) (cfd efd : N) : M (option error) :=
  r <- os_OpenFile (filepath.Join [root; "cgroup.event_control"]) O_WRONLY 0 ;;
  match r with
  | inl err => ret (Some err)
  | inr f =>
      err <- File_WriteString f (Sprintf_d_d efd cfd) ;;
      _ <- File_Close f ;;
      ret err
  end.

Definition OOMEventFD (m : memoryController) (path : string)
  : M (N * option error) :=
  let root := Path m path in
  r <- os_Open (filepath.Join [root; "memory.oom_control"]) ;;
  match r with
  | inl err => ret (0%N, Some err)
  | inr f =>
      defer (File_Close f)
        (r1 <- RawSyscall_EVENTFD2 0 FD_CLOEXEC ;;
         let '(fd, serr) := r1 in
         if negb (N.eqb serr 0) then ret (0%N, Some (ErrnoError serr))
         else
           err <- writeEventFD root (Fd f) fd ;;
           match err with
           | Some e => _ <- syscall_Close fd ;; ret (0%N, Some e)
           | None => ret (fd, None)
           end)
  end.

End Controller.

End cgroups.

(** ** Package [prometheus]: the collector *)

Module prometheus.

Definition ErrAlreadyCollected : error :=
  errors_New "cgroup is already being collected".

Section Collector.

(** Declared outside this file: the interface [cgroups.Cgroup] (of which
    the collector calls [Stat()]), the snapshot [*cgroups.Stats], the
    exporting namespace, the samples put on the channel, and the metric
    descriptor [metric] whose method [collect(id, stats, ns, ch)] sends
    the descriptor's samples for one snapshot on [ch], in order. *)
Context {Cgroup Stats Namespace Sample metric : Type}.
Context (Cgroup_Stat : Cgroup -> error + Stats).
Context (metric_collect : metric -> string -> Stats -> Namespace -> list Sample).

Record Collector : Type := {
  cgroups : gmap string Cgroup;
  ns : Namespace;
  metrics : list metric
}.

(** [Add] holds the write lock from entry to return, so it is one atomic
    transition of the collector. *)
Definition Add (c : Collector) (id : string) (cg : Cgroup)
  : option error * Collector :=
  match cgroups c !! id with
  | Some _ => (Some ErrAlreadyCollected, c)
  | None =>
      (None, {| cgroups := <[id := cg]> (cgroups c);
                ns := ns c;
                metrics := metrics c |})
  end.

(** *** [Collect] and its goroutines, as an interleaving machine

    [Collect] starts one goroutine per tracked cgroup and waits on a
    [sync.WaitGroup].  The machine below has one program counter for
    [Collect] itself and one for each goroutine running [collect]; a step
    picks a thread and runs it up to its next shared action.  The reader
    of [ch] is always ready, so a send is a step that appends to [ch], and a
    call of [cg.Stat()] is a step that returns.  What holds of every state
    the machine reaches holds of every execution; that a run goes on is
    relative to these two assumptions. *)

(** Where one goroutine running [c.collect(id, cg, ch, wg)] stands. *)
Inductive goroutine : Type :=
| GStat (id : string) (cg : Cgroup)
    (* about to call [cg.Stat()] *)
| GLog (id : string) (err : error)
    (* [err != nil]: about to log it *)
| GCollect (id : string) (stats : Stats) (pending : list Sample) (ms : list metric)
    (* in [for _, m := range c.metrics]: [pending] is what the running
       [m.collect] still has to send, [ms] the descriptors not yet reached *)
| GDefer (id : string)
    (* returning: the deferred [wg.Done()] is due *)
| GExit (id : string).

Definition gid (g : goroutine) : string :=
  match g with
  | GStat id _ | GLog id _ | GCollect id _ _ _ | GDefer id | GExit id => id
  end.

(** Where [Collect] stands. *)
Inductive main_pc : Type :=
| PRLock
| PRange (rest : list (string * Cgroup))
    (* at the head of [for id, cg := range c.cgroups] *)
| PGo (id : string) (cg : Cgroup) (rest : list (string * Cgroup))
    (* after [wg.Add(1)], before the [go] statement *)
| PRUnlock
| PWait
| PReturned.

Record machine : Type := {
  pc : main_pc;
  readers : nat;                      (* holders of [c.mu.RLock()] *)
  wg : Z;                             (* the WaitGroup counter *)
  pool : list goroutine;
  ch : list (string * Sample);        (* sends on [ch], each with the id of the sending goroutine's cgroup *)
  logged : list (string * error)      (* what was handed to the logger *)
}.

Inductive tid : Type :=
| Main
| Goroutine (i : nat).

(** The order in which [range] visits the map is not fixed by Go; it is a
    parameter of the run. *)
Definition Collect_init : machine :=
  {| pc := PRLock; readers := 0; wg := 0; pool := []; ch := []; logged := [] |}.

Definition step_main (c : Collector) (order : list (string * Cgroup)) (s : machine)
  : option machine :=
  match pc s with
  | PRLock =>
      Some {| pc := PRange order; readers := S (readers s); wg := wg s;
              pool := pool s; ch := ch s; logged := logged s |}
  | PRange [] =>
      Some {| pc := PRUnlock; readers := readers s; wg := wg s;
              pool := pool s; ch := ch s; logged := logged s |}
  | PRange ((id, cg) :: rest) =>
      Some {| pc := PGo id cg rest; readers := readers s; wg := (wg s + 1)%Z;
              pool := pool s; ch := ch s; logged := logged s |}
  | PGo id cg rest =>
      Some {| pc := PRange rest; readers := readers s; wg := wg s;
              pool := (pool s ++ [GStat id cg])%list; ch := ch s; logged := logged s |}
  | PRUnlock =>
      Some {| pc := PWait; readers := Nat.pred (readers s); wg := wg s;
              pool := pool s; ch := ch s; logged := logged s |}
  | PWait =>
      if Z.eqb (wg s) 0 then
        Some {| pc := PReturned; readers := readers s; wg := wg s;
                pool := pool s; ch := ch s; logged := logged s |}
      else None
  | PReturned => None
  end.

(** What one step of a goroutine does to the shared state: where it goes
    next, what it sends on [ch], what it hands to the logger, and whether it
    calls [wg.Done()]. *)
Record effect : Type := {
  next : goroutine;
  sends : list Sample;
  logs : list error;
  done : bool
}.

Definition goroutine_step (c : Collector) (g : goroutine) : option effect :=
  match g with
  | GStat id cg =>
      (* stats, err := cg.Stat() *)
      Some {| next := match Cgroup_Stat cg with
                      | inl err => GLog id err
                      | inr stats => GCollect id stats [] (metrics c)
                      end;
              sends := []; logs := []; done := false |}
  | GLog id err =>
      (* logrus.WithError(err).Errorf(...); return *)
      Some {| next := GDefer id; sends := []; logs := [err]; done := false |}
  | GCollect id stats (x :: pending) ms =>
      (* inside m.collect: the next send *)
      Some {| next := GCollect id stats pending ms;
              sends := [x]; logs := []; done := false |}
  | GCollect id stats [] (m :: ms) =>
      (* m.collect(id, stats, c.ns, ch) is entered *)
      Some {| next := GCollect id stats (metric_collect m id stats (ns c)) ms;
              sends := []; logs := []; done := false |}
  | GCollect id stats [] [] =>
      Some {| next := GDefer id; sends := []; logs := []; done := false |}
  | GDefer id =>
      (* defer wg.Done() *)
      Some {| next := GExit id; sends := []; logs := []; done := true |}
  | GExit _ => None
  end.

Definition step_goroutine (c : Collector) (i : nat) (s : machine) : option machine :=
  match pool s !! i with
  | None => None
  | Some g =>
      match goroutine_step c g with
      | None => None
      | Some e =>
          Some {| pc := pc s; readers := readers s;
                  wg := if done e then (wg s - 1)%Z else wg s;
                  pool := <[i := next e]> (pool s);
                  ch := (ch s ++ map (pair (gid g)) (sends e))%list;
                  logged := (logged s ++ map (pair (gid g)) (logs e))%list |}
      end
  end.

Definition step_thread (c : Collector) (order : list (string * Cgroup))
    (t : tid) (s : machine) : option machine :=
  match t with
  | Main => step_main c order s
  | Goroutine i => step_goroutine c i s
  end.

Definition step (c : Collector) (order : list (string * Cgroup))
    (s s' : machine) : Prop :=
  exists t, step_thread c order t s = Some s'.

(** Running a schedule: the threads named are stepped in turn; a thread
    that cannot move is skipped. *)
Fixpoint run (c : Collector) (order : list (string * Cgroup))
    (schedule : list tid) (s : machine) : machine :=
  match schedule with
  | [] => s
  | t :: rest =>
      match step_thread c order t s with
      | Some s' => run c order rest s'
      | None => run c order rest s
      end
  end.

Inductive reachable (c : Collector) (order : list (string * Cgroup))
  : machine -> Prop :=
| reach_init : reachable c order Collect_init
| reach_step s s' : reachable c order s -> step c order s s' -> reachable c order s'.

(** The samples on the channel that came from the goroutine of [id]. *)
Definition sent_by (id : string) (sink : list (string * Sample)) : list Sample :=
  map snd (filter (fun p => fst p = id) sink).

Definition logged_for (id : string) (l : list (string * error)) : list error :=
  map snd (filter (fun p => fst p = id) l).

(** What a healthy cgroup is expected to export: every descriptor of the
    table applied once to its snapshot, in table order. *)
Definition expected (c : Collector) (id : string) (stats : Stats) : list Sample :=
  flat_map (fun m => metric_collect m id stats (ns c)) (metrics c).

Definition exited (g : goroutine) : bool :=
  match g with
  | GExit _ => true
  | _ => false
  end.

End Collector.

(** *** [New], [Describe] and [blkioValues] *)

(** [cgroups.BlkioEntry], declared in another file of package [cgroups];
    the fields are those [blkioValues] reads, all [uint64] but [Op]. *)
Module BlkioEntry.
Record t : Type := {
  Op : string;
  Major : N;
  Minor : N;
  Value : N
}.
End BlkioEntry.

(** [value], declared in another file of the package: a number with its
    label values. *)
Module value.
Record t (F : Type) : Type := {
  v : F;
  l : list string
}.
Arguments v {F} t.
Arguments l {F} t.
End value.

Section Exporter.

Context {Cgroup Namespace Desc metric F : Type}.

(** Declared outside this file: the method [m.desc(ns)] of a descriptor,
    and the conversion [float64(x)] of a [uint64]. *)
Context (metric_desc : metric -> Namespace -> Desc).
Context (float64 : N -> F).

(** [New]: the five descriptor tables are package-level variables declared
    in other files; they are appended in this order to the empty table of a
    collector that tracks nothing.  The call [ns.Add(c)] registers the
    collector with the namespace and leaves the collector as it is. *)
Definition New (pidMetrics cpuMetrics memoryMetrics hugetlbMetrics blkioMetrics : list metric)
    (namespace : Namespace) : @Collector Cgroup Namespace metric :=
  let append (c : @Collector Cgroup Namespace metric) (ms : list metric) :=
    {| cgroups := cgroups c; ns := ns c; metrics := (metrics c ++ ms)%list |} in
  let c := {| cgroups := ∅; ns := namespace; metrics := [] |} in
  let c := append c pidMetrics in
  let c := append c cpuMetrics in
  let c := append c memoryMetrics in
  let c := append c hugetlbMetrics in
  let c := append c blkioMetrics in
  c.

(** [Describe]: what is sent on [ch], in order. *)
Definition Describe (c : @Collector Cgroup Namespace metric) : list Desc :=
  map (fun m => metric_desc m (ns c)) (metrics c).

(** [blkioValues]: [out] starts as the nil slice and grows by one [value]
    per entry. *)
Definition blkioValues (entries : list BlkioEntry.t) : list (value.t F) :=
  fold_left
    (fun out e =>
       (out ++ [ {| value.v := float64 (BlkioEntry.Value e);
                    value.l := [ BlkioEntry.Op e;
                                 FormatUint (BlkioEntry.Major e);
                                 FormatUint (BlkioEntry.Minor e) ] |} ])%list)
    entries [].

End Exporter.

End prometheus.

(** ** A small executable kernel

    One concrete [Env], used to run the controller on examples: files hold the
    text last written to them, and the state lists which calls are to fail.
    The two helpers of the package that live outside this file follow the
    text format of the design document: a limit file holds one decimal
    integer, a counter file holds lines of the form [key value]. *)

Module Sim.

Import cgroups.

Record state : Type := {
  content : gmap string string;      (* text held by each file *)
  dirs : list string;                (* directories made, oldest first *)
  mkdir_fault : option error;        (* [MkdirAll] fails with this *)
  write_fault : gmap string WriteOutcome;   (* files that reject writes *)
  open_fault : gmap string Errno;    (* files that cannot be opened *)
  read_fault : gmap string error;    (* files whose last line comes with a read error *)
  eventfd_fault : Errno              (* non-zero: [eventfd2] fails *)
}.

Definition with_content (k : state) (c : gmap string string) : state :=
  {| content := c; dirs := dirs k; mkdir_fault := mkdir_fault k;
     write_fault := write_fault k; open_fault := open_fault k;
     read_fault := read_fault k; eventfd_fault := eventfd_fault k |}.

Definition ENOENT : Errno := 2%N.

Definition ErrInvalidFormat : error := errors_New "cgroups: parsing file with invalid format failed".

Fixpoint fields (sep : ascii) (s : string) : list string :=
  match s with
  | EmptyString => [EmptyString]
  | String c rest =>
      if Ascii.eqb c sep then EmptyString :: fields sep rest
      else match fields sep rest with
           | [] => [String c EmptyString]
           | h :: t => String c h :: t
           end
  end.

(** Modelled from the spec: the integer parser behind [readUint] and
    [parseKV] is declared in another file of the package; a value is "a
    decimal integer", so a text parses when it is a non-empty run of decimal
    digits. *)
Definition parseUint (s : string) : error + N :=
  match NilZero.uint_of_string s with
  | Some u => if String.eqb s "" then inl (errors_New "invalid syntax") else inr (N.of_uint u)
  | None => inl (errors_New "invalid syntax")
  end.

(** Modelled from the spec: [parseKV] is declared in another file of the
    package; counter files are "newline-delimited key value pairs
    (space-separated)", so a line parses when it has exactly two fields, the
    second a decimal integer. *)
Definition parseKV (raw : string) : error + (string * N) :=
  match filter (fun p => p <> "") (fields " " raw) with
  | [key; v] =>
      match parseUint v with
      | inl err => inl err
      | inr n => inr (key, n)
      end
  | _ => inl ErrInvalidFormat
  end.

Definition newline : ascii := ascii_of_nat 10.

(** The lines a scanner yields from a file's text. *)
Definition lines (text : string) : list string :=
  (bufio.Scanner_lines text).1.

Definition scan (path : string) (k : state) : list (string * option error) :=
  let ls := lines (default "" (content k !! path)) in
  match read_fault k !! path, rev ls with
  | Some err, last :: before =>
      (map (fun l => (l, None)) (rev before) ++ [(last, Some err)])%list
  | _, _ => map (fun l => (l, None)) ls
  end.

(** Modelled from the spec: [readUint] is declared in another file of the
    package; "numeric limit files accept a decimal integer as their full file
    content", so reading one is reading the file and parsing its text. *)
Definition readUint (path : string) (k : state) : error + N :=
  match content k !! path with
  | None => inl (PathError "open" path (ErrnoError ENOENT))
  | Some text => parseUint text
  end.

Definition mkdirall (path : string) (perm : N) (k : state) : option error * state :=
  match mkdir_fault k with
  | Some err => (Some err, k)
  | None =>
      (None, {| content := content k; dirs := (dirs k ++ [path])%list;
                mkdir_fault := mkdir_fault k; write_fault := write_fault k;
                open_fault := open_fault k; read_fault := read_fault k;
                eventfd_fault := eventfd_fault k |})
  end.

Definition writefile (filename data : string) (perm : N) (k : state)
  : WriteOutcome * state :=
  match write_fault k !! filename with
  | Some o => (o, k)
  | None => (WriteOk, with_content k (<[filename := data]> (content k)))
  end.

Definition write (filename data : string) (k : state) : option error * state :=
  match write_fault k !! filename with
  | Some o =>
      (Some (default io_ErrShortWrite (write_error filename o)), k)
  | None => (None, with_content k (<[filename := data]> (content k)))
  end.

(** The permission constants are declared in another file of the package;
    the values here are samples, and nothing depends on them. *)
Definition env : Env :=
  {| kernel := state;
     defaultDirPerm := 493%N;
     defaultFilePerm := 420%N;
     sys_mkdirall := mkdirall;
     sys_writefile := writefile;
     sys_open := fun name flag k t => open_fault k !! name;
     sys_scan := scan;
     sys_eventfd2 := fun initval flags k t => eventfd_fault k;
     sys_write := write;
     readUint_result := readUint;
     cgroups.parseKV := parseKV |}.

(** A kernel in which nothing fails and no file exists yet. *)
Definition quiet : state :=
  {| content := ∅; dirs := []; mkdir_fault := None; write_fault := ∅;
     open_fault := ∅; read_fault := ∅; eventfd_fault := 0%N |}.

Definition boot (k : state) : World env :=
  Build_World env k ∅ [].

End Sim.

(** ** Vocabulary of the properties *)

Module Props.

Import cgroups.
Import prometheus.

(** The file a settings entry named [name] goes to. *)
Definition knob_file (m : memoryController) (path name : string) : string :=
  filepath.Join [Path m path; "memory." +:+ name].

(** The calls [set] has to make for a settings list: one per entry that
    carries a value, in list order, as (file, text). *)
Definition set_calls (m : memoryController) (path : string)
    (settings : list memorySettings) : list (string * string) :=
  omap (fun t => (fun v => (knob_file m path (name t), FormatUint v)) <$> value t)
       settings.

(** The knobs a resources record provides, in the order of the settings
    list, as (name, value); the OOM knob counts as provided, with value 1,
    exactly when the disable flag is present and true. *)
Definition provided_knobs (res : specs.LinuxResources) (mem : specs.LinuxMemory)
  : list (string * N) :=
  omap id
    [ pair "limit_in_bytes" <$> specs.Limit mem;
      pair "memsw.limit_in_bytes" <$> specs.Swap mem;
      pair "kmem.limit_in_bytes" <$> specs.Kernel mem;
      pair "kmem.tcp.limit_in_bytes" <$> specs.KernelTCP mem;
      match specs.DisableOOMKiller res with
      | Some true => Some ("oom_control", 1%N)
      | _ => None
      end;
      pair "swappiness" <$> specs.Swappiness mem ].

Definition knob_call (m : memoryController) (path : string) (kv : string * N)
  : string * string :=
  (knob_file m path kv.1, FormatUint kv.2).

(** A log segment that performs the given write calls in order and stops
    right after the first one that fails; the last component is what that
    leaves as the error. *)
Inductive write_run (perm : N) : list (string * string) -> list Event -> option error -> Prop :=
| write_run_nil :
    write_run perm [] [] None
| write_run_ok f d calls evs r :
    write_run perm calls evs r ->
    write_run perm ((f, d) :: calls) (EvWriteFile f d perm None :: evs) r
| write_run_fail f d calls e :
    write_run perm ((f, d) :: calls) [EvWriteFile f d perm (Some e)] (Some e).

(** The write calls recorded in a log segment, as (file, text). *)
Definition writes_in (evs : list Event) : list (string * string) :=
  omap (fun e => match e with
                 | EvWriteFile f d _ _ => Some (f, d)
                 | _ => None
                 end) evs.

(** A write outcome that is the kernel's EBUSY. *)
Definition is_EBUSY (o : WriteOutcome) : bool :=
  match o with
  | WriteFailed _ e => N.eqb e EBUSY
  | _ => false
  end.

Definition kmem_busy_error : error :=
  errorString "failed to set memory.kmem.limit_in_bytes, because either tasks have already joined this cgroup or it has children".

(** *** Path components *)

Fixpoint no_sep (s : string) : bool :=
  match s with
  | EmptyString => true
  | String c rest => negb (Ascii.eqb c "/") && no_sep rest
  end.

(** A plain component: non-empty, without separator, neither ["."] nor
    [".."]. *)
Definition plain (c : string) : bool :=
  no_sep c && negb (String.eqb c "") && negb (String.eqb c ".")
  && negb (String.eqb c "..").

(** A path whose components are all plain: no empty component (so no
    leading, trailing or doubled separator), no ["."], no [".."]. *)
Definition plain_path (p : string) : bool := forallb plain (filepath.split p).

(** What a directory contributes in front of a plain component joined to
    it. *)
Definition dir_prefix (d : string) : string :=
  if String.eqb d "" then ""
  else
    let rooted := filepath.is_rooted d in
    let lead := if rooted then "/" else "" in
    match fold_left (filepath.clean_step rooted) (filepath.split d) [] with
    | [] => lead
    | kept => lead +:+ strings_Join (rev kept) "/" +:+ "/"
    end.

(** *** The ordering policy of [Update] *)

(** [Update] reads the current limit first; a read error ends the call with
    nothing written; otherwise the provided knobs are written with the memory
    and swap limits in the order the current limit selects. *)
Definition update_order_policy (E : Env) (m : memoryController) (path : string)
    (res : specs.LinuxResources) (mem : specs.LinuxMemory) (L S : N) (w : World E)
  : Prop :=
  let lf := filepath.Join [Path m path; "memory.limit_in_bytes"] in
  let '(r, w') := Update E m path (Some res) w in
  match readUint_result E lf (kern w) with
  | inl err =>
      r = Returns (Some err)
      /\ log w' = (log w ++ [EvReadUint lf (inl err)])%list
      /\ kern w' = kern w
  | inr current =>
      let first_two :=
        if N.ltb current S
        then [("memsw.limit_in_bytes", S); ("limit_in_bytes", L)]
        else [("limit_in_bytes", L); ("memsw.limit_in_bytes", S)] in
      exists evs e,
        r = Returns e
        /\ log w' = (log w ++ EvReadUint lf (inr current) :: evs)%list
        /\ write_run (defaultFilePerm E)
             (map (knob_call m path) (first_two ++ drop 2 (provided_knobs res mem))%list)
             evs e
  end.

(** The policy as the design document words it: for every update that
    provides both limits. *)
Definition Update_policy_whenever_both_provided : Prop :=
  forall (E : Env) m path res mem L S (w : World E),
    specs.Memory res = Some mem ->
    specs.Limit mem = Some L ->
    specs.Swap mem = Some S ->
    update_order_policy E m path res mem L S w.

(** *** Applying the settings list *)

(** "Exactly the provided knobs are written", for every kernel. *)
Definition set_writes_exactly_provided : Prop :=
  forall (E : Env) m path res mem settings (w : World E),
    specs.Memory res = Some mem ->
    getMemorySettings res = Returns settings ->
    exists evs,
      log (set E m path settings w).2 = (log w ++ evs)%list
      /\ writes_in evs = map (knob_call m path) (provided_knobs res mem).

(** *** Statistics *)

Definition stat_file (m : memoryController) (path : string) : string :=
  filepath.Join [Path m path; "memory.stat"].

(** The sixteen usage files, by class and by field. *)
Definition usage_files : list string :=
  [ "memory.usage_in_bytes"; "memory.max_usage_in_bytes";
    "memory.failcnt"; "memory.limit_in_bytes";
    "memory.memsw.usage_in_bytes"; "memory.memsw.max_usage_in_bytes";
    "memory.memsw.failcnt"; "memory.memsw.limit_in_bytes";
    "memory.kmem.usage_in_bytes"; "memory.kmem.max_usage_in_bytes";
    "memory.kmem.failcnt"; "memory.kmem.limit_in_bytes";
    "memory.kmem.tcp.usage_in_bytes"; "memory.kmem.tcp.max_usage_in_bytes";
    "memory.kmem.tcp.failcnt"; "memory.kmem.tcp.limit_in_bytes" ].

(** The named counters of the snapshot with the key each is read from. *)
Definition named_fields : list (string * (MemoryStat.t -> N)) :=
  [ ("cache", MemoryStat.Cache); ("rss", MemoryStat.RSS);
    ("rss_huge", MemoryStat.RSSHuge); ("mapped_file", MemoryStat.MappedFile);
    ("dirty", MemoryStat.Dirty); ("writeback", MemoryStat.Writeback);
    ("pgpgin", MemoryStat.PgPgIn); ("pgpgout", MemoryStat.PgPgOut);
    ("pgfault", MemoryStat.PgFault); ("pgmajfault", MemoryStat.PgMajFault);
    ("inactive_anon", MemoryStat.InactiveAnon);
    ("active_anon", MemoryStat.ActiveAnon);
    ("inactive_file", MemoryStat.InactiveFile);
    ("active_file", MemoryStat.ActiveFile);
    ("unevictable", MemoryStat.Unevictable);
    ("hierarchical_memory_limit", MemoryStat.HierarchicalMemoryLimit);
    ("hierarchical_memsw_limit", MemoryStat.HierarchicalSwapLimit);
    ("total_cache", MemoryStat.TotalCache); ("total_rss", MemoryStat.TotalRSS);
    ("total_rss_huge", MemoryStat.TotalRSSHuge);
    ("total_mapped_file", MemoryStat.TotalMappedFile);
    ("total_dirty", MemoryStat.TotalDirty);
    ("total_writeback", MemoryStat.TotalWriteback);
    ("total_pgpgin", MemoryStat.TotalPgPgIn);
    ("total_pgpgout", MemoryStat.TotalPgPgOut);
    ("total_pgfault", MemoryStat.TotalPgFault);
    ("total_pgmajfault", MemoryStat.TotalPgMajFault);
    ("total_inactive_anon", MemoryStat.TotalInactiveAnon);
    ("total_active_anon", MemoryStat.TotalActiveAnon);
    ("total_inactive_file", MemoryStat.TotalInactiveFile);
    ("total_active_file", MemoryStat.TotalActiveFile);
    ("total_unevictable", MemoryStat.TotalUnevictable) ].

Section StatVocabulary.

Context (E : Env) (m : memoryController) (path : string).

Definition Stat_fails (stats : Stats.t) (w : World E) : Prop :=
  (Stat E m path stats w).1.1 <> None.

Definition unopenable (w : World E) : Prop :=
  is_Some (sys_open E (stat_file m path) O_RDONLY (kern w) (fdt w)).

(** Some line the scanner yields does not parse. *)
Definition has_malformed_line (w : World E) : Prop :=
  exists text scerr err,
    (text, scerr) ∈ sys_scan E (stat_file m path) (kern w)
    /\ parseKV E text = inl err.

(** Some line the scanner yields comes with a read error pending. *)
Definition has_read_error (w : World E) : Prop :=
  exists text err, (text, Some err) ∈ sys_scan E (stat_file m path) (kern w).

Definition usage_unreadable (w : World E) : Prop :=
  exists f err,
    f ∈ usage_files
    /\ readUint_result E (filepath.Join [Path m path; f]) (kern w) = inl err.

(** The key occurs on no line the scanner yields. *)
Definition key_absent (key : string) (w : World E) : Prop :=
  forall text scerr k v,
    (text, scerr) ∈ sys_scan E (stat_file m path) (kern w) ->
    parseKV E text = inr (k, v) -> k <> key.

(** A successful [Stat] leaves zero in every named counter whose key is
    on no yielded line. *)
Definition absent_keys_read_zero (stats : Stats.t) (w : World E) : Prop :=
  forall stats',
    (Stat E m path stats w).1 = (None, stats') ->
    exists mem',
      Stats.Memory stats' = Some mem'
      /\ forall key proj,
           (key, proj) ∈ named_fields -> key_absent key w -> proj mem' = 0%N.

End StatVocabulary.

(** The lines of a file's text, whatever reads it: the runs of bytes
    between newlines, and the last run when it is not empty. *)
Definition file_lines (text : string) : list string :=
  match rev (Sim.fields Sim.newline text) with
  | last :: before =>
      if String.eqb last "" then rev before else rev (last :: before)
  | [] => []
  end.

(** The text holds a line that is no [key value] pair. *)
Definition contains_malformed_line (text : string) : bool :=
  existsb (fun line => match Sim.parseKV line with
                       | inl _ => true
                       | inr _ => false
                       end)
          (file_lines text).

(** *** Descriptors *)

(** The descriptors a log segment has created and not closed again. *)
Definition track (open : list N) (e : Event) : list N :=
  match e with
  | EvOpenFile _ _ (inr fd) => (open ++ [fd])%list
  | EvEventfd2 _ _ (fd, errno) => if N.eqb errno 0 then (open ++ [fd])%list else open
  | EvClose fd _ => filter (fun x => x <> fd) open
  | _ => open
  end.

Definition leaked (evs : list Event) : list N := fold_left track evs [].

(** *** Sample inputs *)

Definition m0 : memoryController := NewMemory "/sys/fs/cgroup".

Definition dir0 : string := "/sys/fs/cgroup/memory/mygroup".

Definition limits (l s k : option N) (oom : option bool) : specs.LinuxResources :=
  {| specs.DisableOOMKiller := oom;
     specs.Memory :=
       Some {| specs.Limit := l; specs.Reservation := None; specs.Swap := s;
               specs.Kernel := k; specs.KernelTCP := None;
               specs.Swappiness := None |} |}.

(** A kernel that holds the given files and rejects writes as listed. *)
Definition kernel_with (files : list (string * string))
    (rejects : list (string * WriteOutcome)) : Sim.state :=
  {| Sim.content := list_to_map files; Sim.dirs := []; Sim.mkdir_fault := None;
     Sim.write_fault := list_to_map rejects; Sim.open_fault := ∅;
     Sim.read_fault := ∅; Sim.eventfd_fault := 0%N |}.

(** A [memory.stat] whose first line has 70000 bytes and whose second line
    is [rss 2], in a kernel where every usage file can be read. *)
Definition oversized_line : string := N.iter 70000 (String "a") "".

Definition oversized_stat : string :=
  oversized_line +:+ String Sim.newline ("rss 2" +:+ String Sim.newline "").

Definition oversized_kernel : Sim.state :=
  kernel_with
    ((dir0 +:+ "/memory.stat", oversized_stat)
     :: map (fun f => (dir0 +:+ "/" +:+ f, "7")) usage_files) [].

Definition EINVAL : Errno := 22%N.
Definition EIO : Errno := 5%N.

(** *** The collector's run *)

Section CollectVocabulary.

Context {Cgroup Stats Namespace Sample metric : Type}.
Context (Cgroup_Stat : Cgroup -> error + Stats).
Context (metric_collect : metric -> string -> Stats -> Namespace -> list Sample).

(** What a goroutine has sent and logged so far is consistent with where it
    stands. *)
Definition local_ok (c : @Collector Cgroup Namespace metric)
    (order : list (string * Cgroup)) (g : @goroutine Cgroup Stats Sample metric)
    (sent : list Sample) (lg : list error) : Prop :=
  match g with
  | GStat id cg => (id, cg) ∈ order /\ sent = [] /\ lg = []
  | GLog id err =>
      (exists cg, (id, cg) ∈ order /\ Cgroup_Stat cg = inl err)
      /\ sent = [] /\ lg = []
  | GCollect id stats pending ms =>
      (exists cg, (id, cg) ∈ order /\ Cgroup_Stat cg = inr stats)
      /\ (sent ++ pending ++ flat_map (fun m => metric_collect m id stats (ns c)) ms)%list
         = expected metric_collect c id stats
      /\ lg = []
  | GDefer id | GExit id =>
      exists cg, (id, cg) ∈ order
        /\ match Cgroup_Stat cg with
           | inl err => sent = [] /\ lg = [err]
           | inr stats => sent = expected metric_collect c id stats /\ lg = []
           end
  end.

(** The cgroups [Collect] has not yet started a goroutine for. *)
Definition unspawned (order : list (string * Cgroup)) (p : @main_pc Cgroup)
  : list (string * Cgroup) :=
  match p with
  | PRLock => order
  | PRange rest => rest
  | PGo id cg rest => (id, cg) :: rest
  | _ => []
  end.

Definition live (gs : list (@goroutine Cgroup Stats Sample metric)) : nat :=
  length (filter (fun g => exited g = false) gs).

Record inv (c : @Collector Cgroup Namespace metric) (order : list (string * Cgroup))
    (s : @machine Cgroup Stats Sample metric) : Prop := {
  inv_order :
    (map gid (pool s) ++ map fst (unspawned order (pc s)))%list = map fst order;
  inv_unspawned : forall p, p ∈ unspawned order (pc s) -> p ∈ order;
  inv_wg :
    wg s = (Z.of_nat (live (pool s))
            + match pc s with PGo _ _ _ => 1 | _ => 0 end)%Z;
  inv_pool :
    Forall (fun g => local_ok c order g (sent_by (gid g) (ch s))
                       (logged_for (gid g) (logged s)))
           (pool s);
  inv_ch_ids : forall p, p ∈ ch s -> p.1 ∈ map gid (pool s);
  inv_log_ids : forall p, p ∈ logged s -> p.1 ∈ map gid (pool s);
  inv_returned : pc s = PReturned -> wg s = 0%Z
}.

(** How many steps a goroutine still has to take. *)
Definition collect_cost (c : @Collector Cgroup Namespace metric) (id : string)
    (stats : Stats) (pending : list Sample) (ms : list metric) : nat :=
  length pending
  + list_sum (map (fun m => S (length (metric_collect m id stats (ns c)))) ms) + 2.

Definition cost (c : @Collector Cgroup Namespace metric)
    (g : @goroutine Cgroup Stats Sample metric) : nat :=
  match g with
  | GStat id cg =>
      S match Cgroup_Stat cg with
        | inl _ => 2
        | inr stats => collect_cost c id stats [] (metrics c)
        end
  | GLog _ _ => 2
  | GCollect id stats pending ms => collect_cost c id stats pending ms
  | GDefer _ => 1
  | GExit _ => 0
  end.

Definition range_cost (c : @Collector Cgroup Namespace metric)
    (rest : list (string * Cgroup)) : nat :=
  3 + list_sum (map (fun p => 2 + cost c (GStat p.1 p.2)) rest).

Definition main_cost (c : @Collector Cgroup Namespace metric)
    (order : list (string * Cgroup)) (p : @main_pc Cgroup) : nat :=
  match p with
  | PRLock => S (range_cost c order)
  | PRange rest => range_cost c rest
  | PGo id cg rest => S (cost c (GStat id cg)) + range_cost c rest
  | PRUnlock => 2
  | PWait => 1
  | PReturned => 0
  end.

(** An upper bound on the steps left in a run. *)
Definition measure (c : @Collector Cgroup Namespace metric)
    (order : list (string * Cgroup)) (s : @machine Cgroup Stats Sample metric) : nat :=
  main_cost c order (pc s) + list_sum (map (cost c) (pool s)).

End CollectVocabulary.


(** *** A sample collector

    Three cgroups, of which ["b"] cannot be read; two descriptors, each
    giving one sample per snapshot. *)

Definition sample_Stat (cg : error + N) : error + N := cg.

Definition sample_collect (m id : string) (stats : N) (namespace : string)
  : list (string * N) :=
  [(namespace +:+ "_" +:+ m, stats)].

Definition sample_collector : @Collector (error + N) string string :=
  {| cgroups :=
       <["a" := inr 10%N]> (<["b" := inl (errors_New "no such cgroup")]>
         (<["c" := inr 30%N]> ∅));
     ns := "container";
     metrics := ["cache"; "rss"] |}.

Definition sample_order : list (string * (error + N)) :=
  map_to_list (cgroups sample_collector).

(** Round-robin over [Collect] and three goroutines. *)
Definition sample_schedule : list tid :=
  mjoin (replicate 12 [Main; Goroutine 0; Goroutine 1; Goroutine 2]).

Definition sample_final : @machine (error + N) N (string * N) string :=
  run sample_Stat sample_collect sample_collector sample_order
    sample_schedule Collect_init.

End Props.

(** ** Vocabulary of the further properties *)

Module More.

Import cgroups.
Import prometheus.
Import Props.

(** *** Calls and their outcome *)

(** A knob that makes [Update] look at the current limit: provided and
    greater than zero. *)
Definition positive (v : option N) : bool :=
  match v with
  | Some x => N.ltb 0 x
  | None => false
  end.

(** The event is a call that writes one file. *)
Definition is_write (e : Event) : Prop :=
  exists f d perm r, e = EvWriteFile f d perm r.

(** The call recorded by an event failed with [err]. *)
Definition failed_with (err : error) (e : Event) : Prop :=
  match e with
  | EvMkdirAll _ _ r | EvWriteFile _ _ _ r | EvWriteString _ _ r => r = Some err
  | EvReadUint _ r => r = inl err
  | EvOpenFile _ _ r => r = inl err
  | EvEventfd2 _ _ r => r.2 <> 0%N /\ err = ErrnoError r.2
  | EvClose _ _ => False
  end.

(** The event is the closing of a descriptor, whatever came of it. *)
Definition is_close (e : Event) : Prop :=
  exists fd r, e = EvClose fd r.

(** The call recorded by an event succeeded. *)
Definition succeeded (e : Event) : Prop :=
  match e with
  | EvMkdirAll _ _ r | EvWriteFile _ _ _ r | EvWriteString _ _ r => r = None
  | EvReadUint _ r => exists v, r = inr v
  | EvOpenFile _ _ r => exists fd, r = inr fd
  | EvEventfd2 _ _ r => r.2 = 0%N
  | EvClose _ r => r = None
  end.

(** *** Limits *)

(** The names of the six limit files, in the order of the settings list. *)
Definition knob_names : list string :=
  [ "limit_in_bytes"; "memsw.limit_in_bytes"; "kmem.limit_in_bytes";
    "kmem.tcp.limit_in_bytes"; "oom_control"; "swappiness" ].

(** The probes [Create] writes for a memory record, as (file, text). *)
Definition probes_of (m : memoryController) (path : string) (mem : specs.LinuxMemory)
  : list (string * string) :=
  let kf := filepath.Join [Path m path; "memory.kmem.limit_in_bytes"] in
  match specs.Kernel mem with
  | Some _ => [(kf, "1"); (kf, "-1")]
  | None => []
  end.

(** The calls of a [Create] in which nothing fails. *)
Definition create_calls (E : Env) (m : memoryController) (path : string)
    (res : specs.LinuxResources) (mem : specs.LinuxMemory) : list Event :=
  let kf := filepath.Join [Path m path; "memory.kmem.limit_in_bytes"] in
  (EvMkdirAll (Path m path) (defaultDirPerm E) None
   :: match specs.Kernel mem with
      | Some _ => [ EvWriteFile kf "1" (defaultFilePerm E) None;
                    EvWriteFile kf "-1" (defaultFilePerm E) None ]
      | None => []
      end
   ++ map (fun c => EvWriteFile c.1 c.2 (defaultFilePerm E) None)
          (map (knob_call m path) (provided_knobs res mem)))%list.

(** *** Statistics *)

Section Reads.

Context (E : Env).

(** Reading the files in order and stopping at the first that cannot be
    read: the calls made, and the error that ends them. *)
Fixpoint reads_until_error (k : kernel E) (files : list string) : list Event :=
  match files with
  | [] => []
  | f :: rest =>
      let r := readUint_result E f k in
      EvReadUint f r ::
        match r with
        | inl _ => []
        | inr _ => reads_until_error k rest
        end
  end.

Fixpoint first_read_error (k : kernel E) (files : list string) : option error :=
  match files with
  | [] => None
  | f :: rest =>
      match readUint_result E f k with
      | inl err => Some err
      | inr _ => first_read_error k rest
      end
  end.

(** Among the lines the scanner yielded: the value of the last one that
    carries [key], if any does. *)
Fixpoint last_value (key : string) (lines : list (string * option error)) : option N :=
  match lines with
  | [] => None
  | (text, _) :: rest =>
      match last_value key rest with
      | Some v => Some v
      | None =>
          match parseKV E text with
          | inr (k, v) => if String.eqb k key then Some v else None
          | inl _ => None
          end
      end
  end.

End Reads.

(** The usage fields of the snapshot with the file each is read from. *)
Definition usage_table : list (string * (MemoryStat.t -> N)) :=
  [ ("memory.usage_in_bytes", fun s => MemoryEntry.Usage (MemoryStat.Usage s));
    ("memory.max_usage_in_bytes", fun s => MemoryEntry.Max (MemoryStat.Usage s));
    ("memory.failcnt", fun s => MemoryEntry.Failcnt (MemoryStat.Usage s));
    ("memory.limit_in_bytes", fun s => MemoryEntry.Limit (MemoryStat.Usage s));
    ("memory.memsw.usage_in_bytes", fun s => MemoryEntry.Usage (MemoryStat.Swap s));
    ("memory.memsw.max_usage_in_bytes", fun s => MemoryEntry.Max (MemoryStat.Swap s));
    ("memory.memsw.failcnt", fun s => MemoryEntry.Failcnt (MemoryStat.Swap s));
    ("memory.memsw.limit_in_bytes", fun s => MemoryEntry.Limit (MemoryStat.Swap s));
    ("memory.kmem.usage_in_bytes", fun s => MemoryEntry.Usage (MemoryStat.Kernel s));
    ("memory.kmem.max_usage_in_bytes", fun s => MemoryEntry.Max (MemoryStat.Kernel s));
    ("memory.kmem.failcnt", fun s => MemoryEntry.Failcnt (MemoryStat.Kernel s));
    ("memory.kmem.limit_in_bytes", fun s => MemoryEntry.Limit (MemoryStat.Kernel s));
    ("memory.kmem.tcp.usage_in_bytes", fun s => MemoryEntry.Usage (MemoryStat.KernelTCP s));
    ("memory.kmem.tcp.max_usage_in_bytes", fun s => MemoryEntry.Max (MemoryStat.KernelTCP s));
    ("memory.kmem.tcp.failcnt", fun s => MemoryEntry.Failcnt (MemoryStat.KernelTCP s));
    ("memory.kmem.tcp.limit_in_bytes", fun s => MemoryEntry.Limit (MemoryStat.KernelTCP s)) ].

(** *** The collector *)

Section Registrations.

Context {Cgroup Stats Namespace Sample metric : Type}.
Context (Cgroup_Stat : Cgroup -> error + Stats).
Context (metric_collect : metric -> string -> Stats -> Namespace -> list Sample).

(** Registering a list of cgroups one after the other: the result of each
    call to [Add], and the collector reached. *)
Fixpoint add_all (c : @Collector Cgroup Namespace metric) (l : list (string * Cgroup))
  : list (option error) * @Collector Cgroup Namespace metric :=
  match l with
  | [] => ([], c)
  | (id, cg) :: rest =>
      let r := Add c id cg in
      let rs := add_all r.2 rest in
      (r.1 :: rs.1, rs.2)
  end.

(** [n] steps of the machine lead from one state to another. *)
Inductive run_of (c : @Collector Cgroup Namespace metric) (order : list (string * Cgroup))
  : @machine Cgroup Stats Sample metric -> nat -> @machine Cgroup Stats Sample metric -> Prop :=
| run_of_nil s : run_of c order s 0 s
| run_of_step s s' s'' n :
    step Cgroup_Stat metric_collect c order s s' ->
    run_of c order s' n s'' ->
    run_of c order s (S n) s''.

End Registrations.

(** *** More sample inputs *)

Definition memory_of (l s k : option N) : specs.LinuxMemory :=
  {| specs.Limit := l; specs.Reservation := None; specs.Swap := s;
     specs.Kernel := k; specs.KernelTCP := None; specs.Swappiness := None |}.

(** A kernel whose [memory.stat] holds [text], with the listed usage files
    each holding 7. *)
Definition stat_kernel (text : string) (usage : list string) : Sim.state :=
  kernel_with
    ((dir0 +:+ "/memory.stat", text)
     :: map (fun f => (dir0 +:+ "/" +:+ f, "7")) usage) [].

Definition two_lines (a b : string) : string :=
  a +:+ String Sim.newline b +:+ String Sim.newline "".

(** The sample run, stopped after fourteen slots of the schedule. *)
Definition sample_midway : @machine (error + N) N (string * N) string :=
  run sample_Stat sample_collect sample_collector sample_order
    (take 14 sample_schedule) Collect_init.

(** A collector that tracks nothing yet, and the run of [Collect] after one
    cgroup has been added to it. *)
Definition sample_empty : @Collector (error + N) string string :=
  {| cgroups := ∅; ns := "container"; metrics := ["cache"] |}.

Definition sample_added_final : @machine (error + N) N (string * N) string :=
  run sample_Stat sample_collect (Add sample_empty "a" (inr 10%N)).2
    (map_to_list (cgroups (Add sample_empty "a" (inr 10%N)).2))
    sample_schedule Collect_init.

(** Two entries for the same device and operation. *)
Definition sample_entries : list BlkioEntry.t :=
  [ {| BlkioEntry.Op := "Read"; BlkioEntry.Major := 8; BlkioEntry.Minor := 0;
       BlkioEntry.Value := 5 |};
    {| BlkioEntry.Op := "Read"; BlkioEntry.Major := 8; BlkioEntry.Minor := 0;
       BlkioEntry.Value := 7 |} ].

End More.

(** Deciding the filters of [leaked] on distinct descriptors. *)
Ltac filter_step :=
  repeat (progress (rewrite ?filter_cons, ?filter_nil);
          repeat (case_decide; try congruence)).

(** * Properties *)

Import cgroups prometheus Props.


(** ** Paths *)

Section Filepath.

Lemma append_assoc (a b c : string) : (a +:+ b) +:+ c = a +:+ (b +:+ c).
Proof.
  induction a as [|ch a IH]; [reflexivity|].
  change (String ch ((a +:+ b) +:+ c) = String ch (a +:+ (b +:+ c))).
  rewrite IH. reflexivity.
Qed.

Lemma split_not_nil s : filepath.split s <> [].
Proof.
  destruct s as [|c s]; simpl; [discriminate|].
  destruct (Ascii.eqb c "/"); [discriminate|].
  destruct (filepath.split s); discriminate.
Qed.

Lemma split_app a b :
  filepath.split (a +:+ String "/" b) = (filepath.split a ++ filepath.split b)%list.
Proof.
  induction a as [|ch a IH]; [reflexivity|].
  change (String ch a +:+ String "/" b) with (String ch (a +:+ String "/" b)).
  simpl. destruct (Ascii.eqb ch "/"); [rewrite IH; reflexivity|].
  rewrite IH. destruct (filepath.split a) as [|h t] eqn:Ha.
  - exfalso. exact (split_not_nil a Ha).
  - reflexivity.
Qed.

Lemma concat_cons sep x y l :
  String.concat sep (x :: y :: l) = x +:+ sep +:+ String.concat sep (y :: l).
Proof. reflexivity. Qed.

Lemma concat_app sep l1 l2 :
  l1 <> [] -> l2 <> [] ->
  String.concat sep (l1 ++ l2) = String.concat sep l1 +:+ sep +:+ String.concat sep l2.
Proof.
  intros H1 H2. induction l1 as [|x l1 IH]; [contradiction|].
  destruct l1 as [|y l1].
  - destruct l2 as [|z l2]; [contradiction|]. reflexivity.
  - change ((x :: y :: l1) ++ l2)%list with (x :: y :: (l1 ++ l2))%list.
    rewrite !concat_cons. change (y :: (l1 ++ l2))%list with ((y :: l1) ++ l2)%list.
    rewrite IH by discriminate. rewrite !append_assoc. reflexivity.
Qed.

(** Splitting a path and joining the pieces gives the path back. *)
Lemma concat_split p : String.concat "/" (filepath.split p) = p.
Proof.
  induction p as [|c p IH]; [reflexivity|]. simpl.
  destruct (Ascii.eqb_spec c "/") as [->|Hc].
  - destruct (filepath.split p) as [|h t] eqn:Hp; [exfalso; exact (split_not_nil p Hp)|].
    rewrite concat_cons, IH. reflexivity.
  - destruct (filepath.split p) as [|h t] eqn:Hp; [exfalso; exact (split_not_nil p Hp)|].
    destruct t as [|h' t].
    + simpl in IH |- *. rewrite IH. reflexivity.
    + rewrite concat_cons in IH |- *. rewrite <- IH. reflexivity.
Qed.

Lemma append_eqb_empty a b : b <> "" -> String.eqb (a +:+ b) "" = false.
Proof.
  intros Hb. apply String.eqb_neq. destruct a; [exact Hb | discriminate].
Qed.

Lemma plain_step rooted kept c :
  plain c = true -> filepath.clean_step rooted kept c = c :: kept.
Proof.
  unfold plain, filepath.clean_step. intros H.
  repeat (apply andb_prop in H as [H ?]).
  destruct (String.eqb c ""); [discriminate|].
  destruct (String.eqb c "."); [discriminate|].
  destruct (String.eqb c ".."); [discriminate|]. reflexivity.
Qed.

Lemma fold_plain rooted cs : forall kept,
  forallb plain cs = true ->
  fold_left (filepath.clean_step rooted) cs kept = (rev cs ++ kept)%list.
Proof.
  induction cs as [|c cs IH]; intros kept H; [reflexivity|].
  simpl in H. apply andb_prop in H as [Hc Hcs].
  simpl. rewrite plain_step by exact Hc. rewrite IH by exact Hcs.
  rewrite <- app_assoc. reflexivity.
Qed.

Lemma plain_path_ne p : plain_path p = true -> p <> "".
Proof. intros H ->. discriminate. Qed.

Lemma plain_path_not_rooted p : plain_path p = true -> filepath.is_rooted p = false.
Proof.
  destruct p as [|c p]; [reflexivity|]. unfold plain_path. simpl.
  destruct (Ascii.eqb c "/"); [discriminate | reflexivity].
Qed.

(** Joining a directory with a path made of plain components appends the
    path, unchanged, to a prefix that depends on the directory alone. *)
Lemma Join_plain_path d p :
  plain_path p = true -> filepath.Join [d; p] = dir_prefix d +:+ p.
Proof.
  intros Hp. pose proof (plain_path_ne p Hp) as Hne.
  assert (Hcs : filepath.split p <> []) by apply split_not_nil.
  unfold filepath.Join, dir_prefix.
  destruct (String.eqb d "") eqn:Hd.
  - apply String.eqb_eq in Hd as ->.
    destruct (String.eqb p "") eqn:Hp0; [apply String.eqb_eq in Hp0; contradiction|].
    unfold filepath.Clean, strings_Join. simpl String.concat. rewrite Hp0.
    rewrite (plain_path_not_rooted p Hp), fold_plain by exact Hp.
    rewrite app_nil_r, rev_involutive, concat_split, Hp0. reflexivity.
  - unfold strings_Join at 1, filepath.Clean. simpl String.concat.
    assert (Hd' : d <> "") by (apply String.eqb_neq; exact Hd).
    rewrite (append_eqb_empty d ("/" +:+ p)) by discriminate.
    assert (Hr : filepath.is_rooted (d +:+ "/" +:+ p) = filepath.is_rooted d).
    { destruct d; [contradiction | reflexivity]. }
    rewrite Hr. change ("/" +:+ p) with (String "/" p).
    rewrite split_app, fold_left_app, fold_plain by exact Hp.
    set (kept := fold_left _ (filepath.split d) []).
    rewrite rev_app_distr, rev_involutive. unfold strings_Join.
    destruct (rev kept) as [|x l] eqn:Hk.
    + assert (kept = []) as ->.
      { destruct kept as [|y kept]; [reflexivity|]. simpl in Hk.
        destruct (rev kept); discriminate. }
      rewrite app_nil_l, concat_split.
      destruct (filepath.is_rooted d); [reflexivity|].
      destruct (String.eqb p "") eqn:Hp0; [apply String.eqb_eq in Hp0; contradiction|].
      reflexivity.
    + destruct kept as [|y kept]; [discriminate|]. rewrite <- Hk.
      rewrite concat_app, concat_split by (try exact Hcs; rewrite Hk; discriminate).
      destruct (filepath.is_rooted d).
      * rewrite !append_assoc. reflexivity.
      * rewrite (append_eqb_empty _ ("/" +:+ p)) by discriminate.
        simpl. rewrite !append_assoc. reflexivity.
Qed.

Lemma plain_is_plain_path c : plain c = true -> plain_path c = true.
Proof.
  intros Hc. unfold plain_path.
  assert (Hns : no_sep c = true).
  { unfold plain in Hc. repeat (apply andb_prop in Hc as [Hc ?]). exact Hc. }
  assert (Hs : filepath.split c = [c]).
  { clear Hc. induction c as [|ch c IH]; [reflexivity|]. simpl in Hns |- *.
    apply andb_prop in Hns as [Hch Hc].
    destruct (Ascii.eqb ch "/"); [discriminate|]. rewrite (IH Hc). reflexivity. }
  rewrite Hs. simpl. rewrite Hc. reflexivity.
Qed.

Lemma Join_plain d c :
  plain c = true -> filepath.Join [d; c] = dir_prefix d +:+ c.
Proof. intros Hc. apply Join_plain_path, plain_is_plain_path, Hc. Qed.

(** Under an absolute directory made of plain components the prefix is the
    directory followed by one separator. *)
Lemma dir_prefix_absolute q :
  plain_path q = true -> dir_prefix ("/" +:+ q) = "/" +:+ q +:+ "/".
Proof.
  intros Hq. unfold dir_prefix.
  change ("/" +:+ q) with (String "/" q). cbn [String.eqb filepath.is_rooted].
  change (Ascii.eqb "/" "/") with true. cbv iota.
  change (filepath.split (String "/" q)) with ("" :: filepath.split q).
  cbn [fold_left]. change (filepath.clean_step true [] "") with (@nil string).
  rewrite fold_plain by exact Hq. rewrite app_nil_r.
  pose proof (split_not_nil q) as Hs.
  destruct (rev (filepath.split q)) as [|x l] eqn:Hk.
  - exfalso. apply Hs. rewrite <- (rev_involutive (filepath.split q)), Hk. reflexivity.
  - rewrite <- Hk, rev_involutive. unfold strings_Join. rewrite concat_split. reflexivity.
Qed.

Lemma plain_path_app q c :
  plain_path q = true -> plain c = true -> plain_path (q +:+ "/" +:+ c) = true.
Proof.
  intros Hq Hc. unfold plain_path in *. change ("/" +:+ c) with (String "/" c).
  rewrite split_app, forallb_app, Hq. exact (plain_is_plain_path c Hc).
Qed.

Lemma knob_file_inj m path n1 n2 :
  plain ("memory." +:+ n1) = true ->
  plain ("memory." +:+ n2) = true ->
  knob_file m path n1 = knob_file m path n2 -> n1 = n2.
Proof.
  intros H1 H2. unfold knob_file. rewrite !Join_plain by assumption.
  intros H. apply String.app_inj in H. apply (String.app_inj "memory.") in H. exact H.
Qed.

(** Claim C7.  The root of a memory controller built from base root [r] is
    [r] joined with "memory", and [Path p] is that root joined with [p], for
    every [p]: a pure function of the two strings, which looks at no file and
    keeps [".."] components (the last line leaves the root).  For a path of
    plain components, sub-directories included, the path is appended verbatim;
    under an absolute base root of plain components the result is
    [r/memory/p]. *)
Theorem C7_Path_joins_root :
  forall r p,
    root (NewMemory r) = filepath.Join [r; "memory"]
    /\ Path (NewMemory r) p = filepath.Join [filepath.Join [r; "memory"]; p]
    /\ (plain_path p = true ->
        Path (NewMemory r) p = dir_prefix (root (NewMemory r)) +:+ p)
    /\ (forall q, r = "/" +:+ q -> plain_path q = true -> plain_path p = true ->
        Path (NewMemory r) p = r +:+ "/memory/" +:+ p)
    /\ Path (NewMemory "/sys/fs/cgroup") "mygroup" = "/sys/fs/cgroup/memory/mygroup"
    /\ Path (NewMemory "/sys/fs/cgroup") "pods/web/app"
       = "/sys/fs/cgroup/memory/pods/web/app"
    /\ Path (NewMemory "/sys/fs/cgroup") "../../etc" = "/sys/fs/etc".
Proof.
  intros r p. split; [reflexivity|]. split; [reflexivity|]. split; [|split].
  - intros Hp. unfold Path. apply Join_plain_path. exact Hp.
  - intros q -> Hq Hp. unfold Path, NewMemory. cbn [root]. unfold Memory.
    rewrite (Join_plain _ "memory") by reflexivity.
    rewrite dir_prefix_absolute by exact Hq.
    rewrite Join_plain_path by exact Hp.
    change (("/" +:+ q +:+ "/") +:+ "memory") with ("/" +:+ ((q +:+ "/") +:+ "memory")).
    rewrite (append_assoc q "/" "memory").
    rewrite dir_prefix_absolute by (apply plain_path_app; [exact Hq | reflexivity]).
    change ("/" +:+ (q +:+ "/" +:+ "memory") +:+ "/") with
      (String "/" ((q +:+ "/" +:+ "memory") +:+ "/")).
    change ("/" +:+ q) with (String "/" q).
    change ((String "/" q +:+ "/memory/" +:+ p)) with (String "/" (q +:+ "/memory/" +:+ p)).
    change (String "/" ((q +:+ "/" +:+ "memory") +:+ "/") +:+ p)
      with (String "/" (((q +:+ "/" +:+ "memory") +:+ "/") +:+ p)).
    f_equal. rewrite !append_assoc. reflexivity.
  - repeat split; vm_compute; reflexivity.
Qed.

End Filepath.

(** ** Applying limits *)

Section SetFacts.
Context (E : Env).

Lemma write_run_writes perm calls evs r :
  write_run perm calls evs r ->
  exists n, writes_in evs = take n calls
            /\ (r = None -> writes_in evs = calls).
Proof.
  induction 1 as [|f d calls evs r _ [n [Hn Hall]]|f d calls e].
  - exists 0%nat. split; [reflexivity | intros _; reflexivity].
  - exists (S n). simpl. rewrite Hn. split; [reflexivity|].
    intros Hr. rewrite <- Hn, (Hall Hr). reflexivity.
  - exists 1%nat. simpl. rewrite take_0. split; [reflexivity | discriminate].
Qed.

Lemma write_run_only_writes perm calls evs r :
  write_run perm calls evs r ->
  Forall (fun e => exists f d res, e = EvWriteFile f d perm res /\ (f, d) ∈ calls) evs.
Proof.
  induction 1 as [|f d calls evs r _ IH|f d calls e].
  - constructor.
  - constructor.
    + exists f, d, None. split; [reflexivity | left].
    + eapply Forall_impl; [exact IH|].
      intros ev (f' & d' & res & -> & Hin). exists f', d', res.
      split; [reflexivity | right; exact Hin].
  - constructor; [|constructor].
    exists f, d, (Some e). split; [reflexivity | left].
Qed.

Lemma write_run_error perm calls evs e :
  write_run perm calls evs (Some e) ->
  exists f d before, evs = (before ++ [EvWriteFile f d perm (Some e)])%list
                     /\ Forall (fun ev => exists f' d', ev = EvWriteFile f' d' perm None) before.
Proof.
  remember (Some e) as r eqn:Hr.
  induction 1 as [|f d calls evs r _ IH|f d calls e']; [discriminate| |].
  - destruct (IH Hr) as (f' & d' & before & -> & Hb).
    exists f', d', (EvWriteFile f d perm None :: before). split; [reflexivity|].
    constructor; [eauto | exact Hb].
  - injection Hr as ->. exists f, d, []. split; [reflexivity | constructor].
Qed.

Lemma write_run_success perm calls evs r :
  write_run perm calls evs r ->
  r = None ->
  evs = map (fun c => EvWriteFile c.1 c.2 perm None) calls.
Proof.
  induction 1 as [|f d calls evs r _ IH|f d calls e']; intros Hr;
    [reflexivity| |discriminate].
  simpl. rewrite (IH Hr). reflexivity.
Qed.


(** [set] performs the calls of its settings list as a [write_run], and
    touches neither the descriptor table nor the earlier log. *)
Lemma set_run (m : memoryController) (path : string) (settings : list memorySettings) :
  forall w : World E,
    exists evs,
      log (set E m path settings w).2 = (log w ++ evs)%list
      /\ fdt (set E m path settings w).2 = fdt w
      /\ write_run (defaultFilePerm E) (set_calls m path settings) evs
           (set E m path settings w).1.
Proof.
  induction settings as [|t rest IH]; intros w.
  - exists []. simpl. rewrite app_nil_r. repeat split. constructor.
  - unfold set_calls. simpl. fold (knob_file m path (name t)).
    destruct (value t) as [v|] eqn:Hv; simpl; [|apply IH].
    unfold bind, ioutil_WriteFile.
    destruct (sys_writefile E _ _ _ (kern w)) as [o k] eqn:Ho.
    destruct (write_error _ o) as [e|] eqn:He.
    + exists [EvWriteFile (knob_file m path (name t)) (FormatUint v) (defaultFilePerm E) (Some e)].
      simpl. repeat split. constructor.
    + match goal with |- context [set E m path rest ?w1] =>
        destruct (IH w1) as (evs & Hlog & Hfd & Hrun) end.
      exists (EvWriteFile (knob_file m path (name t)) (FormatUint v) (defaultFilePerm E) None :: evs).
      rewrite Hlog, Hfd. simpl. rewrite <- app_assoc. repeat split.
      constructor. exact Hrun.
Qed.
Lemma settings_calls m path res mem settings :
  specs.Memory res = Some mem ->
  getMemorySettings res = Returns settings ->
  set_calls m path settings = map (knob_call m path) (provided_knobs res mem).
Proof.
  intros Hm Hs. unfold getMemorySettings in Hs. rewrite Hm in Hs.
  injection Hs as <-. unfold set_calls, provided_knobs, getOomControlValue, knob_call.
  destruct mem as [l rsv s k kt sw]; simpl.
  destruct l, s, k, kt, sw, (specs.DisableOOMKiller res) as [[|]|]; reflexivity.
Qed.

Lemma FormatInt_1 : FormatInt 1 = "1".
Proof. reflexivity. Qed.

Lemma FormatInt_m1 : FormatInt (-1) = "-1".
Proof. reflexivity. Qed.

Lemma checkEBUSY_write_error f o :
  checkEBUSY <$> write_error f o
  = if is_EBUSY o then Some kmem_busy_error else write_error f o.
Proof.
  destruct o as [|op e|]; simpl; try reflexivity.
  destruct (N.eqb e EBUSY); reflexivity.
Qed.

(** Claim C10.  [Update] with nil resources panics before doing anything;
    [Create] with nil resources makes the directory first and panics only
    once that has succeeded (a failing [MkdirAll] is returned before the
    dereference).  With resources whose [Memory] is absent, [Update] returns
    nil and does nothing, and [Create] does nothing but make the directory,
    returning what [MkdirAll] returned. *)
Theorem C10_nil_resources :
  forall m path (w : World E),
    Update E m path None w = (Panics, w)
    /\ (forall d, Update E m path
                    (Some {| specs.DisableOOMKiller := d; specs.Memory := None |}) w
                  = (Returns None, w))
    /\ (let '(r, k) := sys_mkdirall E (Path m path) (defaultDirPerm E) (kern w) in
        let w1 := record E w k (fdt w) (EvMkdirAll (Path m path) (defaultDirPerm E) r) in
        Create E m path None w
        = (match r with Some e => Returns (Some e) | None => Panics end, w1)
        /\ (forall d, Create E m path
                        (Some {| specs.DisableOOMKiller := d; specs.Memory := None |}) w
                      = (Returns r, w1))).
Proof.
  intros m path w. split; [reflexivity|]. split; [reflexivity|].
  destruct (sys_mkdirall E (Path m path) (defaultDirPerm E) (kern w)) as [r k] eqn:Hmk.
  unfold Create, bind, os_MkdirAll. rewrite Hmk.
  destruct r as [e|]; split; try reflexivity; intros d; reflexivity.
Qed.

End SetFacts.

Section CreateUpdate.
Context (E : Env).

(** Claim C3.  When a kernel-memory limit is provided and the directory has
    been made, [Create] writes "1" and then "-1" to
    [memory.kmem.limit_in_bytes] before it applies the settings list.  A probe
    write that fails ends the call: with the descriptive error when the
    failure is the kernel's EBUSY, with the error of [WriteFile] unchanged
    otherwise; the second probe is written only after the first succeeded. *)
Theorem C3_Create_kmem_probe :
  forall m path res mem kl (w : World E) k1,
    specs.Memory res = Some mem ->
    specs.Kernel mem = Some kl ->
    sys_mkdirall E (Path m path) (defaultDirPerm E) (kern w) = (None, k1) ->
    let kf := filepath.Join [Path m path; "memory.kmem.limit_in_bytes"] in
    let perm := defaultFilePerm E in
    let mk := EvMkdirAll (Path m path) (defaultDirPerm E) None in
    let translate o := if is_EBUSY o then Some kmem_busy_error else write_error kf o in
    let '(o1, k2) := sys_writefile E kf "1" perm k1 in
    let '(o2, k3) := sys_writefile E kf "-1" perm k2 in
    let '(r, w') := Create E m path (Some res) w in
    match o1, o2 with
    | WriteOk, WriteOk =>
        exists evs e,
          r = Returns e
          /\ log w' = (log w ++ [mk; EvWriteFile kf "1" perm None;
                                 EvWriteFile kf "-1" perm None] ++ evs)%list
          /\ write_run perm (map (knob_call m path) (provided_knobs res mem)) evs e
    | WriteOk, _ =>
        r = Returns (translate o2)
        /\ log w' = (log w ++ [mk; EvWriteFile kf "1" perm None;
                               EvWriteFile kf "-1" perm (write_error kf o2)])%list
    | _, _ =>
        r = Returns (translate o1)
        /\ log w' = (log w ++ [mk; EvWriteFile kf "1" perm (write_error kf o1)])%list
    end.
Proof.
  intros m path res mem kl w k1 Hmem Hk Hmk kf perm mk translate.
  destruct (sys_writefile E kf "1" perm k1) as [o1 k2] eqn:H1.
  destruct (sys_writefile E kf "-1" perm k2) as [o2 k3] eqn:H2.
  destruct (Create E m path (Some res) w) as [r w'] eqn:HC.
  unfold Create, bind, os_MkdirAll in HC. rewrite Hmk, Hmem, Hk in HC.
  simpl in HC. unfold bind, ioutil_WriteFile in HC. simpl in HC.
  rewrite FormatInt_1 in HC. fold kf perm in HC. rewrite H1 in HC.
  assert (Ht : forall o, translate o = checkEBUSY <$> write_error kf o).
  { intros o. symmetry. apply checkEBUSY_write_error. }
  destruct o1 as [|op1 e1|].
  - simpl in HC. rewrite FormatInt_m1 in HC. fold kf perm in HC. rewrite H2 in HC.
    destruct o2 as [|op2 e2|].
    + simpl in HC.
      destruct (getMemorySettings res) as [settings|] eqn:Hs;
        [|unfold getMemorySettings in Hs; rewrite Hmem in Hs; discriminate].
      match type of HC with context [set E m path settings ?w1] =>
        destruct (set_run E m path settings w1) as (evs & Hlog & _ & Hrun);
        destruct (set E m path settings w1) as [e w2] eqn:Hset end.
      injection HC as <- <-. exists evs, e. split; [reflexivity|]. split.
      * simpl in Hlog. rewrite Hlog. rewrite <- !app_assoc. reflexivity.
      * rewrite <- (settings_calls m path res mem settings Hmem Hs). exact Hrun.
    + rewrite Ht. simpl in HC |- *. injection HC as <- <-. split; [reflexivity|].
      simpl. rewrite <- !app_assoc. reflexivity.
    + rewrite Ht. simpl in HC |- *. injection HC as <- <-. split; [reflexivity|].
      simpl. rewrite <- !app_assoc. reflexivity.
  - rewrite Ht. simpl in HC |- *. injection HC as <- <-. split; [reflexivity|].
    simpl. rewrite <- !app_assoc. reflexivity.
  - rewrite Ht. simpl in HC |- *. injection HC as <- <-. split; [reflexivity|].
    simpl. rewrite <- !app_assoc. reflexivity.
Qed.

End CreateUpdate.

Section SettingsList.
Context (E : Env).

Lemma provided_knobs_plain res mem kv :
  kv ∈ provided_knobs res mem -> plain ("memory." +:+ kv.1) = true.
Proof.
  unfold provided_knobs. destruct mem as [l rsv s k kt sw]; simpl.
  destruct l, s, k, kt, sw, (specs.DisableOOMKiller res) as [[|]|]; simpl;
    intros H; repeat (apply elem_of_cons in H as [->|H]; [reflexivity|]);
    apply elem_of_nil in H; contradiction.
Qed.

Lemma provided_knobs_oom res mem v :
  ("oom_control", v) ∈ provided_knobs res mem ->
  v = 1%N /\ specs.DisableOOMKiller res = Some true.
Proof.
  unfold provided_knobs. destruct mem as [l rsv s k kt sw]; simpl.
  destruct l, s, k, kt, sw, (specs.DisableOOMKiller res) as [[|]|]; simpl;
    intros H; repeat (apply elem_of_cons in H as [H|H]; [try discriminate|]);
    try (apply elem_of_nil in H; contradiction);
    injection H as ->; split; reflexivity.
Qed.

Lemma FormatUint_0 : FormatUint 0 = "0".
Proof. reflexivity. Qed.

Lemma FormatUint_1 : FormatUint 1 = "1".
Proof. reflexivity. Qed.

Lemma writes_in_elem f d evs :
  (f, d) ∈ writes_in evs -> exists perm r, EvWriteFile f d perm r ∈ evs.
Proof.
  unfold writes_in. intros H. apply list_elem_of_omap in H as (ev & Hin & Hev).
  destruct ev; try discriminate. injection Hev as -> ->. eauto.
Qed.

(** Claim C6, amended.  Applying the settings list writes the provided
    knobs, in list order, each as the decimal text of its value, and stops at
    the first write that fails, returning its error; so the files written are
    exactly those of the provided knobs when no write fails.  Nothing is
    written for a knob that is not provided; a knob provided as zero is
    written as "0"; [memory.oom_control] is written only with "1" and only
    when the disable flag is provided and true. *)
Theorem C6_set_writes_provided_knobs :
  forall m path res mem settings (w : World E),
    specs.Memory res = Some mem ->
    getMemorySettings res = Returns settings ->
    let calls := map (knob_call m path) (provided_knobs res mem) in
    let '(r, w') := set E m path settings w in
    exists evs,
      log w' = (log w ++ evs)%list
      /\ write_run (defaultFilePerm E) calls evs r
      /\ (forall ev, ev ∈ evs ->
            exists name v res',
              (name, v) ∈ provided_knobs res mem
              /\ ev = EvWriteFile (knob_file m path name) (FormatUint v)
                        (defaultFilePerm E) res')
      /\ (r = None -> writes_in evs = calls)
      /\ (forall d, (knob_file m path "oom_control", d) ∈ writes_in evs ->
                    d = "1" /\ specs.DisableOOMKiller res = Some true)
      /\ (forall name, (name, 0%N) ∈ provided_knobs res mem ->
                       (knob_file m path name, "0") ∈ calls).
Proof.
  intros m path res mem settings w Hmem Hs calls.
  destruct (set_run E m path settings w) as (evs & Hlog & _ & Hrun).
  destruct (set E m path settings w) as [r w']. simpl in *.
  rewrite (settings_calls m path res mem settings Hmem Hs) in Hrun. fold calls in Hrun.
  destruct (write_run_writes _ _ _ _ Hrun) as (n & Hn & Hall).
  pose proof (write_run_only_writes _ _ _ _ Hrun) as Honly.
  exists evs. split; [exact Hlog|]. split; [exact Hrun|]. split; [|split; [exact Hall|split]].
  - intros ev Hev. rewrite Forall_forall in Honly.
    destruct (Honly ev Hev) as (f & d & res' & -> & Hin).
    unfold calls in Hin. apply list_elem_of_fmap in Hin as ([name v] & Heq & Hin).
    injection Heq as -> ->. exists name, v, res'. split; [exact Hin | reflexivity].
  - intros d Hd. rewrite Hn in Hd.
    apply elem_of_take in Hd as (i & Hd & _). apply list_elem_of_lookup_2 in Hd.
    unfold calls in Hd. apply list_elem_of_fmap in Hd as ([name v] & Heq & Hin).
    unfold knob_call in Heq. simpl in Heq. injection Heq as Hf ->.
    apply knob_file_inj in Hf; [|reflexivity|exact (provided_knobs_plain _ _ _ Hin)].
    subst name. destruct (provided_knobs_oom _ _ _ Hin) as [-> Hflag].
    split; [reflexivity | exact Hflag].
  - intros name Hin. unfold calls. apply list_elem_of_fmap.
    exists (name, 0%N). split; [reflexivity | exact Hin].
Qed.

End SettingsList.

(** Claim C6 as stated fails: when the kernel rejects the write of the memory
    limit, the swap limit, although provided, is never written. *)
Lemma C6_counterexample : ~ set_writes_exactly_provided.
Proof.
  intros H.
  destruct (H Sim.env m0 "mygroup" (limits (Some 5%N) (Some 7%N) None None) _ _
              (Sim.boot (kernel_with []
                 [(dir0 +:+ "/memory.limit_in_bytes", WriteFailed "write" EINVAL)]))
              eq_refl eq_refl) as (evs & Hlog & Hw).
  vm_compute in Hlog. subst evs. vm_compute in Hw. discriminate Hw.
Qed.

(** Claim C6 on the quiet kernel: a limit of zero and the OOM flag are
    written as "0" and "1", and nothing else is. *)
Lemma C6_witness :
  exists evs,
    log (set Sim.env m0 "mygroup"
           [ {| name := "limit_in_bytes"; value := Some 0%N |};
             {| name := "memsw.limit_in_bytes"; value := None |};
             {| name := "kmem.limit_in_bytes"; value := None |};
             {| name := "kmem.tcp.limit_in_bytes"; value := None |};
             {| name := "oom_control"; value := Some 1%N |};
             {| name := "swappiness"; value := None |} ]
           (Sim.boot Sim.quiet)).2 = evs
    /\ writes_in evs = [ (dir0 +:+ "/memory.limit_in_bytes", "0");
                         (dir0 +:+ "/memory.oom_control", "1") ].
Proof.
  pose proof (C6_set_writes_provided_knobs Sim.env m0 "mygroup"
                (limits (Some 0%N) None None (Some true)) _ _
                (Sim.boot Sim.quiet) eq_refl eq_refl) as H.
  cbv zeta in H.
  destruct (set Sim.env m0 "mygroup" _ (Sim.boot Sim.quiet)) as [r w'] eqn:Hset.
  destruct H as (evs & Hlog & Hrun & _ & Hall & _).
  exists evs. split; [exact Hlog|].
  assert (r = None) as Hr by (vm_compute in Hset; congruence).
  rewrite (Hall Hr). reflexivity.
Defined.

Section UpdateOrder.
Context (E : Env).

(** Claim C1, amended.  When both limits are provided and non-zero, [Update]
    first reads [memory.limit_in_bytes]; a read error is returned with nothing
    written; otherwise the settings are written with the swap limit before
    the memory limit exactly when the current limit is below the new swap
    limit, and in list order (memory limit first) otherwise. *)
Theorem C1_Update_orders_limit_and_swap :
  forall m path res mem L S (w : World E),
    specs.Memory res = Some mem ->
    specs.Limit mem = Some L ->
    specs.Swap mem = Some S ->
    (0 < L)%N ->
    (0 < S)%N ->
    update_order_policy E m path res mem L S w.
Proof.
  intros m path res mem L S w Hmem HL HS HposL HposS.
  unfold update_order_policy.
  destruct (Update E m path (Some res) w) as [r w'] eqn:HU.
  unfold Update in HU. rewrite Hmem in HU.
  unfold getMemorySettings in HU. rewrite Hmem in HU.
  rewrite HL, HS in HU.
  apply N.ltb_lt in HposL, HposS. rewrite HposL, HposS in HU.
  unfold bind, readUint, ret in HU. change (true && true) with true in HU.
  cbv beta iota in HU.
  destruct (readUint_result E _ (kern w)) as [err|current] eqn:Hread.
  - injection HU as <- <-. simpl. auto.
  - cbv beta iota in HU.
    set (rest := drop 2 (provided_knobs res mem)).
    assert (Hrest : forall a b,
      set_calls m path
        [ a; b;
          {| name := "kmem.limit_in_bytes"; value := specs.Kernel mem |};
          {| name := "kmem.tcp.limit_in_bytes"; value := specs.KernelTCP mem |};
          {| name := "oom_control"; value := getOomControlValue res |};
          {| name := "swappiness";
             value := match specs.Swappiness mem with
                      | Some v => Some v
                      | None => None
                      end |} ]
      = (set_calls m path [a; b] ++ map (knob_call m path) rest)%list).
    { intros a b. unfold rest, provided_knobs, set_calls, getOomControlValue.
      rewrite HL, HS. destruct mem as [l rsv s k kt sw]; simpl.
      destruct (value a), (value b), k, kt, sw,
        (specs.DisableOOMKiller res) as [[|]|]; reflexivity. }
    destruct (N.ltb current S) eqn:Hlt.
    + cbn [swap01 lookup list_lookup insert list_insert] in HU.
      match type of HU with context [set E m path ?l ?w1] =>
        destruct (set_run E m path l w1) as (evs & Hlog & _ & Hrun);
        destruct (set E m path l w1) as [e w2] end.
      injection HU as <- <-. exists evs, e. split; [reflexivity|].
      split; [simpl in Hlog; rewrite Hlog, <- app_assoc; reflexivity|].
      rewrite Hrest in Hrun. rewrite map_app. exact Hrun.
    + match type of HU with context [set E m path ?l ?w1] =>
        destruct (set_run E m path l w1) as (evs & Hlog & _ & Hrun);
        destruct (set E m path l w1) as [e w2] end.
      injection HU as <- <-. exists evs, e. split; [reflexivity|].
      split; [simpl in Hlog; rewrite Hlog, <- app_assoc; reflexivity|].
      rewrite Hrest in Hrun. rewrite map_app. exact Hrun.
Qed.

End UpdateOrder.

(** Claim C1 as stated fails: a limit provided as zero is written, but the
    current limit is not read and the order is not adjusted. *)
Lemma C1_counterexample : ~ Update_policy_whenever_both_provided.
Proof.
  intros H.
  pose proof (H Sim.env m0 "mygroup" (limits (Some 0%N) (Some 5%N) None None) _ 0%N 5%N
                (Sim.boot (kernel_with [(dir0 +:+ "/memory.limit_in_bytes", "3")] []))
                eq_refl eq_refl eq_refl) as Hp.
  vm_compute in Hp. destruct Hp as (evs & e & _ & Hlog & _). discriminate Hlog.
Qed.

(** Claim C1 at an update to (4, 5) over a current limit of 3. *)
Lemma C1_witness :
  update_order_policy Sim.env m0 "mygroup"
    (limits (Some 4%N) (Some 5%N) None None)
    {| specs.Limit := Some 4%N; specs.Reservation := None; specs.Swap := Some 5%N;
       specs.Kernel := None; specs.KernelTCP := None; specs.Swappiness := None |}
    4%N 5%N
    (Sim.boot (kernel_with [(dir0 +:+ "/memory.limit_in_bytes", "3")] [])).
Proof.
  apply C1_Update_orders_limit_and_swap; reflexivity.
Defined.

Example Update_raises_swap_first :
  writes_in
    (log (Update Sim.env m0 "mygroup" (Some (limits (Some 4%N) (Some 5%N) None None))
            (Sim.boot (kernel_with [(dir0 +:+ "/memory.limit_in_bytes", "3")] []))).2)
  = [ (dir0 +:+ "/memory.memsw.limit_in_bytes", "5");
      (dir0 +:+ "/memory.limit_in_bytes", "4") ].
Proof. vm_compute. reflexivity. Qed.

Example Update_lowers_limit_first :
  writes_in
    (log (Update Sim.env m0 "mygroup" (Some (limits (Some 4%N) (Some 5%N) None None))
            (Sim.boot (kernel_with [(dir0 +:+ "/memory.limit_in_bytes", "9")] []))).2)
  = [ (dir0 +:+ "/memory.limit_in_bytes", "4");
      (dir0 +:+ "/memory.memsw.limit_in_bytes", "5") ].
Proof. vm_compute. reflexivity. Qed.

(** With the limit provided as zero the current limit is not read, and the
    limit is written first although the current limit (3) is below the new
    swap limit (5). *)
Example Update_zero_limit_skips_the_read :
  log (Update Sim.env m0 "mygroup" (Some (limits (Some 0%N) (Some 5%N) None None))
         (Sim.boot (kernel_with [(dir0 +:+ "/memory.limit_in_bytes", "3")] []))).2
  = [ EvWriteFile (dir0 +:+ "/memory.limit_in_bytes") "0" 420%N None;
      EvWriteFile (dir0 +:+ "/memory.memsw.limit_in_bytes") "5" 420%N None ].
Proof. vm_compute. reflexivity. Qed.

(** ** OOM event registration *)

Section OOM.
Context (E : Env).

Lemma fresh_None (t : gmap N FdKind) : t !! fresh (dom t) = None.
Proof. apply not_elem_of_dom, is_fresh. Qed.

Lemma insert_fresh_ne (t : gmap N FdKind) (fd : N) (k : FdKind) :
  fresh (dom (<[fd := k]> t)) <> fd.
Proof.
  intros Heq. pose proof (fresh_None (<[fd := k]> t)) as H.
  rewrite Heq, lookup_insert_eq in H. discriminate.
Qed.

Lemma insert_fresh_None (t : gmap N FdKind) (fd : N) (k : FdKind) :
  t !! fresh (dom (<[fd := k]> t)) = None.
Proof.
  pose proof (fresh_None (<[fd := k]> t)) as H.
  rewrite lookup_insert_ne in H; [exact H|].
  intros Heq. symmetry in Heq. exact (insert_fresh_ne t fd k Heq).
Qed.

(** The whole behaviour of [OOMEventFD], path by path.  [cfd], [efd], [ctl]
    are the descriptors the kernel hands out for [memory.oom_control], for
    the event, and for [cgroup.event_control]. *)
Lemma OOMEventFD_paths m path (w : World E) :
  let root := Path m path in
  let oomf := filepath.Join [root; "memory.oom_control"] in
  let ctlf := filepath.Join [root; "cgroup.event_control"] in
  let cfd := fresh (dom (fdt w)) in
  let t1 := <[cfd := FdFile oomf]> (fdt w) in
  let efd := fresh (dom t1) in
  let t2 := <[efd := FdEvent]> t1 in
  let ctl := fresh (dom t2) in
  let '((fd, err), w') := OOMEventFD E m path w in
  exists evs,
    log w' = (log w ++ evs)%list /\
    ( (exists e, err = Some e /\ fd = 0%N /\ fdt w' = fdt w /\ kern w' = kern w
         /\ evs = [EvOpenFile oomf O_RDONLY (inl e)])
      \/ (exists errno, errno <> 0%N /\ err = Some (ErrnoError errno) /\ fd = 0%N
            /\ fdt w' = fdt w /\ kern w' = kern w
            /\ evs = [EvOpenFile oomf O_RDONLY (inr cfd);
                      EvEventfd2 0 FD_CLOEXEC (N.ones 64, errno);
                      EvClose cfd None])
      \/ (exists e, err = Some e /\ fd = 0%N /\ fdt w' = fdt w /\ kern w' = kern w
            /\ evs = [EvOpenFile oomf O_RDONLY (inr cfd);
                      EvEventfd2 0 FD_CLOEXEC (efd, 0%N);
                      EvOpenFile ctlf O_WRONLY (inl e);
                      EvClose efd None;
                      EvClose cfd None])
      \/ (exists e, err = Some e /\ fd = 0%N /\ fdt w' = fdt w
            /\ evs = [EvOpenFile oomf O_RDONLY (inr cfd);
                      EvEventfd2 0 FD_CLOEXEC (efd, 0%N);
                      EvOpenFile ctlf O_WRONLY (inr ctl);
                      EvWriteString ctl (FormatUint efd +:+ " " +:+ FormatUint cfd) (Some e);
                      EvClose ctl None;
                      EvClose efd None;
                      EvClose cfd None])
      \/ (err = None /\ fd = efd /\ fdt w !! efd = None
            /\ fdt w' = <[efd := FdEvent]> (fdt w)
            /\ evs = [EvOpenFile oomf O_RDONLY (inr cfd);
                      EvEventfd2 0 FD_CLOEXEC (efd, 0%N);
                      EvOpenFile ctlf O_WRONLY (inr ctl);
                      EvWriteString ctl (FormatUint efd +:+ " " +:+ FormatUint cfd) None;
                      EvClose ctl None;
                      EvClose cfd None]) ).
Proof.
  intros root oomf ctlf cfd t1 efd t2 ctl.
  assert (Hc : fdt w !! cfd = None) by apply fresh_None.
  assert (He1 : efd <> cfd) by apply insert_fresh_ne.
  assert (He : fdt w !! efd = None) by apply insert_fresh_None.
  assert (Hl1 : ctl <> efd) by apply insert_fresh_ne.
  assert (Hl2 : t1 !! ctl = None) by apply insert_fresh_None.
  assert (Hl3 : ctl <> cfd).
  { intros Heq. unfold t1 in Hl2. rewrite Heq, lookup_insert_eq in Hl2. discriminate. }
  assert (Ht1 : t1 !! cfd = Some (FdFile oomf)) by apply lookup_insert_eq.
  assert (Hd1 : delete cfd t1 = fdt w) by (apply delete_insert_id; exact Hc).
  assert (Ht2 : t2 !! efd = Some FdEvent) by apply lookup_insert_eq.
  assert (Hd2 : delete efd t2 = t1).
  { apply delete_insert_id. unfold t1. rewrite lookup_insert_ne; congruence. }
  assert (Ht3 : <[ctl := FdFile ctlf]> t2 !! ctl = Some (FdFile ctlf))
    by apply lookup_insert_eq.
  assert (Hd3 : delete ctl (<[ctl := FdFile ctlf]> t2) = t2).
  { apply delete_insert_id. unfold t2. rewrite lookup_insert_ne; congruence. }
  assert (Hcf : t2 !! cfd = Some (FdFile oomf)).
  { unfold t2. rewrite lookup_insert_ne by exact He1. exact Ht1. }
  assert (Hdel : delete cfd t2 = <[efd := FdEvent]> (fdt w)).
  { unfold t2. rewrite delete_insert_ne by congruence. rewrite Hd1. reflexivity. }
  unfold OOMEventFD, defer, writeEventFD, os_Open, os_OpenFile, RawSyscall_EVENTFD2,
    File_WriteString, File_Close, syscall_Close, bind, ret, record.
  cbv beta. fold root oomf ctlf.
  destruct (sys_open E oomf O_RDONLY (kern w) (fdt w)) as [e0|] eqn:Hopen.
  { eexists. split; [reflexivity|]. left. exists (PathError "open" oomf (ErrnoError e0)).
    repeat split. }
  fold cfd t1. cbn [kern fdt log Fd File_name].
  destruct (N.eqb (sys_eventfd2 E 0 FD_CLOEXEC (kern w) t1) 0) eqn:Hev.
  2:{ cbn [negb kern fdt log Fd File_name]. rewrite Hev. cbn [negb kern fdt log Fd File_name].
      rewrite Ht1, Hd1.
      eexists. split; [rewrite <- !app_assoc; reflexivity|].
      right; left. exists (sys_eventfd2 E 0 FD_CLOEXEC (kern w) t1).
      apply N.eqb_neq in Hev. repeat split. exact Hev. }
  fold efd t2. cbn [negb N.eqb kern fdt log Fd File_name].
  destruct (sys_open E ctlf O_WRONLY (kern w) t2) as [e1|] eqn:Hopen2.
  { cbn [kern fdt log Fd File_name]. rewrite Ht2, Hd2, Ht1, Hd1.
    eexists. split; [rewrite <- !app_assoc; reflexivity|].
    right; right; left. exists (PathError "open" ctlf (ErrnoError e1)). repeat split. }
  fold ctl. cbn [kern fdt log Fd File_name].
  destruct (sys_write E ctlf (Sprintf_d_d efd cfd) (kern w)) as [wr k'] eqn:Hwr.
  cbn [kern fdt log Fd File_name]. rewrite Ht3, Hd3.
  destruct wr as [e2|]; cbn [kern fdt log Fd File_name].
  - rewrite Ht2, Hd2, Ht1, Hd1.
    eexists. split; [rewrite <- !app_assoc; reflexivity|].
    right; right; right; left. exists e2. repeat split.
  - rewrite Hcf, Hdel.
    eexists. split; [rewrite <- !app_assoc; reflexivity|].
    right; right; right; right. repeat split. exact He.
Qed.

(** Claim C8.  In every successful registration the one string written to
    [cgroup.event_control] is the decimal event descriptor, one space, the
    decimal descriptor of the opened [memory.oom_control]; the event
    descriptor is the one the call created and returns. *)
Theorem C8_event_control_line :
  forall m path (w : World E) efd,
    (OOMEventFD E m path w).1 = (efd, None) ->
    exists cfd ctl,
      log (OOMEventFD E m path w).2
      = (log w ++
         [ EvOpenFile (filepath.Join [Path m path; "memory.oom_control"]) O_RDONLY (inr cfd);
           EvEventfd2 0 FD_CLOEXEC (efd, 0%N);
           EvOpenFile (filepath.Join [Path m path; "cgroup.event_control"]) O_WRONLY (inr ctl);
           EvWriteString ctl (FormatUint efd +:+ " " +:+ FormatUint cfd) None;
           EvClose ctl None;
           EvClose cfd None ])%list.
Proof.
  intros m path w efd Hok.
  pose proof (OOMEventFD_paths m path w) as H. cbv zeta in H.
  destruct (OOMEventFD E m path w) as [[fd err] w']. simpl in Hok |- *.
  injection Hok as -> ->.
  destruct H as (evs & Hlog & [H|[H|[H|[H|H]]]]).
  - destruct H as (e & He & _). discriminate.
  - destruct H as (e & _ & He & _). discriminate.
  - destruct H as (e & He & _). discriminate.
  - destruct H as (e & He & _). discriminate.
  - destruct H as (_ & -> & _ & _ & ->). eexists _, _. exact Hlog.
Qed.

(** Claim C9.  A failed registration leaves the descriptor table as it found
    it: every descriptor the call created is closed again, and when the event
    descriptor had been created its close is the last thing done before the
    deferred close of the control file and the return.  A successful call
    leaves exactly one new descriptor open, the event descriptor it
    returns. *)
Theorem C9_event_descriptor_not_leaked :
  forall m path (w : World E),
    let '((fd, err), w') := OOMEventFD E m path w in
    exists evs,
      log w' = (log w ++ evs)%list
      /\ match err with
         | Some e =>
             fd = 0%N
             /\ fdt w' = fdt w
             /\ leaked evs = []
             /\ (forall efd, EvEventfd2 0 FD_CLOEXEC (efd, 0%N) ∈ evs ->
                   exists before cfd,
                     evs = (before ++ [EvClose efd None; EvClose cfd None])%list)
         | None =>
             fdt w !! fd = None
             /\ fdt w' = <[fd := FdEvent]> (fdt w)
             /\ leaked evs = [fd]
         end.
Proof.
  intros m path w.
  pose proof (OOMEventFD_paths m path w) as H. cbv zeta in H.
  set (oomf := filepath.Join [Path m path; "memory.oom_control"]) in *.
  set (ctlf := filepath.Join [Path m path; "cgroup.event_control"]) in *.
  set (cfd := fresh (dom (fdt w))) in *.
  set (t1 := <[cfd := FdFile oomf]> (fdt w)) in *.
  set (efd := fresh (dom t1)) in *.
  set (t2 := <[efd := FdEvent]> t1) in *.
  set (ctl := fresh (dom t2)) in *.
  assert (He1 : efd <> cfd) by apply insert_fresh_ne.
  assert (Hl1 : ctl <> efd) by apply insert_fresh_ne.
  assert (Hl3 : ctl <> cfd).
  { intros Heq. pose proof (insert_fresh_None t1 efd FdEvent) as Hl2. fold t2 ctl in Hl2.
    unfold t1 in Hl2. rewrite Heq, lookup_insert_eq in Hl2. discriminate. }
  destruct (OOMEventFD E m path w) as [[fd err] w'].
  destruct H as (evs & Hlog & H). exists evs. split; [exact Hlog|].
  destruct H as [H|[H|[H|[H|H]]]].
  - destruct H as (e & -> & -> & Hfd & _ & ->). repeat split; [exact Hfd|].
    intros efd' Hin. apply list_elem_of_singleton in Hin. discriminate.
  - destruct H as (errno & Hne & -> & -> & Hfd & _ & ->). repeat split; [exact Hfd| |].
    + unfold leaked. cbn [fold_left track app]. apply N.eqb_neq in Hne. rewrite Hne.
      filter_step; try reflexivity.
    + intros efd' Hin. repeat (apply elem_of_cons in Hin as [Hin|Hin]; [try discriminate|]).
      * injection Hin as _ Heq. congruence.
      * apply elem_of_nil in Hin. contradiction.
  - destruct H as (e & -> & -> & Hfd & _ & ->). repeat split; [exact Hfd| |].
    + unfold leaked. cbn [fold_left track app N.eqb]. filter_step; try reflexivity.
    + intros efd' Hin. repeat (apply elem_of_cons in Hin as [Hin|Hin]; [try discriminate|]).
      * injection Hin as Heq. rewrite Heq.
        exists [EvOpenFile oomf O_RDONLY (inr cfd); EvEventfd2 0 FD_CLOEXEC (efd, 0%N);
                EvOpenFile ctlf O_WRONLY (inl e)], cfd. reflexivity.
      * apply elem_of_nil in Hin. contradiction.
  - destruct H as (e & -> & -> & Hfd & ->). repeat split; [exact Hfd| |].
    + unfold leaked. cbn [fold_left track app N.eqb]. filter_step; try reflexivity.
    + intros efd' Hin. repeat (apply elem_of_cons in Hin as [Hin|Hin]; [try discriminate|]).
      * injection Hin as Heq. rewrite Heq.
        exists [EvOpenFile oomf O_RDONLY (inr cfd); EvEventfd2 0 FD_CLOEXEC (efd, 0%N);
                EvOpenFile ctlf O_WRONLY (inr ctl);
                EvWriteString ctl (FormatUint efd +:+ " " +:+ FormatUint cfd) (Some e);
                EvClose ctl None], cfd. reflexivity.
      * apply elem_of_nil in Hin. contradiction.
  - destruct H as (-> & -> & Hnone & Hfd & ->). repeat split; [exact Hnone|exact Hfd|].
    unfold leaked. cbn [fold_left track app N.eqb]. filter_step; try reflexivity.
Qed.

End OOM.

(** ** Statistics *)

Section StatFacts.
Context (E : Env).

(** The files the two nested loops of [Stat] read, in order, are the sixteen
    usage files. *)
Lemma usage_files_read :
  flat_map (fun t => map (usage_file t) usage_fields) usage_classes = usage_files.
Proof. reflexivity. Qed.

Lemma scan_loop_fails lines : forall out,
  (exists err, scan_loop E lines out = inl err)
  <-> (exists text err, (text, Some err) ∈ lines)
      \/ (exists text scerr err, (text, scerr) ∈ lines /\ parseKV E text = inl err).
Proof.
  induction lines as [|[text scerr] rest IH]; intros out; simpl.
  - split.
    + intros [err H]. discriminate.
    + intros [(t & e & H)|(t & s & e & H & _)]; apply elem_of_nil in H; contradiction.
  - destruct scerr as [e|].
    { split; [|eauto]. intros _. left. exists text, e. left. }
    destruct (parseKV E text) as [e|[key v]] eqn:Hp.
    { split; [|eauto]. intros _. right. exists text, None, e. split; [left | exact Hp]. }
    rewrite IH. split.
    + intros [(t & e & H)|(t & s & e & H & Hbad)].
      * left. exists t, e. right. exact H.
      * right. exists t, s, e. split; [right; exact H | exact Hbad].
    + intros [(t & e & H)|(t & s & e & H & Hbad)].
      * apply elem_of_cons in H as [H|H]; [discriminate|]. left. eauto.
      * apply elem_of_cons in H as [H|H].
        -- injection H as -> ->. congruence.
        -- right. eauto.
Qed.

Lemma scan_loop_absent key lines : forall out raw,
  scan_loop E lines out = inr raw ->
  (forall text scerr k v, (text, scerr) ∈ lines -> parseKV E text = inr (k, v) -> k <> key) ->
  raw !! key = out !! key.
Proof.
  induction lines as [|[text scerr] rest IH]; intros out raw Hs Habs; simpl in Hs.
  - injection Hs as <-. reflexivity.
  - destruct scerr as [e|]; [discriminate|].
    destruct (parseKV E text) as [e|[k v]] eqn:Hp; [discriminate|].
    rewrite (IH _ _ Hs).
    + apply lookup_insert_ne. eapply Habs; [left | exact Hp].
    + intros t s k' v' Hin. apply (Habs t s k' v'). right. exact Hin.
Qed.

Lemma parseStats_run m path (w : World E) :
  let sf := stat_file m path in
  let '(r, w') := parseStats E m path w in
  kern w' = kern w /\ fdt w' = fdt w
  /\ match sys_open E sf O_RDONLY (kern w) (fdt w) with
     | Some e => r = inl (PathError "open" sf (ErrnoError e))
     | None => r = scan_loop E (sys_scan E sf (kern w)) ∅
     end.
Proof.
  intros sf. unfold parseStats, defer, os_Open, os_OpenFile, bufio_scan, File_Close,
    bind, ret, record. cbv beta. fold (stat_file m path). fold sf.
  destruct (sys_open E sf O_RDONLY (kern w) (fdt w)) as [e|].
  - repeat split.
  - cbn [kern fdt log Fd File_name]. repeat split.
    apply delete_insert_id, not_elem_of_dom, is_fresh.
Qed.

(** Storing through a usage entry leaves the named counters alone. *)
Lemma usage_classes_keep_named t g mem :
  t ∈ usage_classes ->
  Forall (fun kp => kp.2 (entry t g mem) = kp.2 mem) named_fields.
Proof.
  intros Ht.
  repeat (apply elem_of_cons in Ht as [->|Ht];
          [destruct mem; repeat constructor|]).
  apply elem_of_nil in Ht. contradiction.
Qed.

Lemma stat_fields_run m path t (Ht : t ∈ usage_classes) tts : forall mem (w : World E),
  let '((err, mem'), w') := stat_fields E m path t tts mem w in
  kern w' = kern w /\ fdt w' = fdt w
  /\ Forall (fun kp => kp.2 mem' = kp.2 mem) named_fields
  /\ (err <> None
      <-> exists tt' e, tt' ∈ tts
            /\ readUint_result E (filepath.Join [Path m path; usage_file t tt']) (kern w)
               = inl e).
Proof.
  induction tts as [|tt' rest IH]; intros mem w.
  - simpl. repeat split.
    + apply Forall_forall. reflexivity.
    + intros H. contradiction.
    + intros (x & e & H & _). apply elem_of_nil in H. contradiction.
  - simpl. unfold bind, readUint, ret, record. cbv beta.
    destruct (readUint_result E _ (kern w)) as [e|v] eqn:Hr.
    + cbn [kern fdt]. repeat split.
      * apply Forall_forall. reflexivity.
      * intros _. exists tt', e. split; [left | exact Hr].
      * discriminate.
    + match goal with |- context [stat_fields E m path t rest ?mem1 ?w1] =>
        specialize (IH mem1 w1);
        destruct (stat_fields E m path t rest mem1 w1) as [[err mem'] w'] end.
      cbn [kern fdt] in IH. destruct IH as (Hk & Hf & Hn & Hiff).
      split; [exact Hk|]. split; [exact Hf|]. split.
      * pose proof (usage_classes_keep_named t (field_value tt' v) mem Ht) as Hkeep.
        rewrite Forall_forall in Hn, Hkeep |- *. intros kp Hin.
        rewrite (Hn kp Hin). apply Hkeep. exact Hin.
      * rewrite Hiff. split.
        -- intros (x & e & Hin & Hx). exists x, e. split; [right; exact Hin | exact Hx].
        -- intros (x & e & Hin & Hx). apply elem_of_cons in Hin as [->|Hin].
           ++ rewrite Hr in Hx. discriminate.
           ++ exists x, e. split; assumption.
Qed.

Lemma stat_classes_run m path ts :
  (forall t, t ∈ ts -> t ∈ usage_classes) ->
  forall mem (w : World E),
  let '((err, mem'), w') := stat_classes E m path ts mem w in
  kern w' = kern w /\ fdt w' = fdt w
  /\ Forall (fun kp => kp.2 mem' = kp.2 mem) named_fields
  /\ (err <> None
      <-> exists f e, f ∈ flat_map (fun t => map (usage_file t) usage_fields) ts
            /\ readUint_result E (filepath.Join [Path m path; f]) (kern w) = inl e).
Proof.
  induction ts as [|t rest IH]; intros Hts mem w.
  - simpl. unfold ret. repeat split.
    + apply Forall_forall. reflexivity.
    + intros H. contradiction.
    + intros (x & e & H & _). apply elem_of_nil in H. contradiction.
  - cbn [stat_classes]. unfold bind.
    pose proof (stat_fields_run m path t (Hts t ltac:(left)) usage_fields mem w) as Hf.
    destruct (stat_fields E m path t usage_fields mem w) as [[err mem1] w1].
    destruct Hf as (Hk1 & Hf1 & Hn1 & Hiff1).
    destruct err as [e|].
    + unfold ret. cbv beta iota. split; [exact Hk1|]. split; [exact Hf1|]. split; [exact Hn1|].
      split; [|discriminate]. intros _.
      destruct (proj1 Hiff1 ltac:(discriminate)) as (x & e' & Hin & Hx).
      exists (usage_file t x), e'. split; [|exact Hx].
      apply elem_of_app. left. apply list_elem_of_fmap. exists x. split; [reflexivity|exact Hin].
    + cbv beta iota.
      specialize (IH (fun t' Hin => Hts t' ltac:(right; exact Hin)) mem1 w1).
      destruct (stat_classes E m path rest mem1 w1) as [[err mem'] w'].
      destruct IH as (Hk & Hf & Hn & Hiff).
      split; [congruence|]. split; [congruence|]. split.
      * rewrite Forall_forall in Hn, Hn1 |- *. intros kp Hin.
        rewrite (Hn kp Hin). apply Hn1. exact Hin.
      * rewrite Hiff, Hk1. split.
        -- intros (f & e & Hin & Hx). exists f, e. split; [|exact Hx].
           apply elem_of_app. right. exact Hin.
        -- intros (f & e & Hin & Hx). apply elem_of_app in Hin as [Hin|Hin].
           ++ exfalso. apply list_elem_of_fmap in Hin as (x & -> & Hin).
              assert (None <> @None error) as Hbad; [|contradiction].
              apply Hiff1. exists x, e. split; assumption.
           ++ exists f, e. split; assumption.
Qed.

Lemma named_counters_index raw :
  Forall (fun kp => kp.2 (named_counters raw) = index raw kp.1) named_fields.
Proof. repeat constructor. Qed.

(** What makes [Stat] fail, in terms of what the scanner yields:
    [memory.stat] cannot be opened, or a line is yielded with a read error
    pending, or a yielded line does not parse, or one of the sixteen usage
    files cannot be read.  The error the scanner holds when [Scan] returns
    false is never looked at, so lines it did not yield play no part.  A key
    on no yielded line leaves zero in its named counter. *)
Lemma Stat_failure_causes :
  forall m path stats (w : World E),
    (Stat_fails E m path stats w
     <-> unopenable E m path w \/ has_read_error E m path w
         \/ has_malformed_line E m path w \/ usage_unreadable E m path w)
    /\ absent_keys_read_zero E m path stats w.
Proof.
  intros m path stats w.
  unfold Stat_fails, absent_keys_read_zero, unopenable, has_read_error,
    has_malformed_line, usage_unreadable, key_absent.
  unfold Stat, bind.
  pose proof (parseStats_run m path w) as Hp. cbv zeta in Hp.
  destruct (parseStats E m path w) as [r w1]. destruct Hp as (Hk & Hf & Hr).
  pose proof (scan_loop_fails (sys_scan E (stat_file m path) (kern w)) ∅) as Hscan.
  destruct (sys_open E (stat_file m path) O_RDONLY (kern w) (fdt w)) as [e|] eqn:Hopen.
  { subst r. unfold ret. cbn [fst snd]. split.
    - split; [intros _; left; eauto | discriminate].
    - intros stats' H. discriminate. }
  destruct r as [err|raw].
  { unfold ret. cbn [fst snd]. split.
    - split; [|discriminate]. intros _.
      destruct (proj1 Hscan (ex_intro _ err (eq_sym Hr))) as [H|H]; auto.
    - intros stats' H. discriminate. }
  pose proof (stat_classes_run m path usage_classes (fun t H => H)
                (named_counters raw) w1) as Hc.
  destruct (stat_classes E m path usage_classes (named_counters raw) w1)
    as [[err mem'] w2].
  destruct Hc as (_ & _ & Hn & Hiff). rewrite usage_files_read, Hk in Hiff.
  unfold ret. cbn [fst snd]. split.
  - rewrite Hiff. split.
    + intros H. right; right; right. exact H.
    + intros [[x H]|[H|[H|H]]].
      * discriminate.
      * exfalso. assert (exists err0, scan_loop E (sys_scan E (stat_file m path) (kern w)) ∅ = inl err0)
          as [err0 Hbad] by (apply Hscan; left; exact H).
        congruence.
      * exfalso. assert (exists err0, scan_loop E (sys_scan E (stat_file m path) (kern w)) ∅ = inl err0)
          as [err0 Hbad] by (apply Hscan; right; exact H).
        congruence.
      * exact H.
  - intros stats' H. injection H as -> <-. exists mem'. split; [reflexivity|].
    intros key proj Hin Habs.
    rewrite Forall_forall in Hn. pose proof (Hn (key, proj) Hin) as Hsame.
    pose proof (named_counters_index raw) as Hidx. rewrite Forall_forall in Hidx.
    pose proof (Hidx (key, proj) Hin) as Hval. cbn [fst snd] in Hsame, Hval.
    rewrite Hsame, Hval. unfold index.
    rewrite (scan_loop_absent key _ ∅ raw (eq_sym Hr) Habs), lookup_empty. reflexivity.
Qed.

End StatFacts.

(** A line yielded together with a read error makes [Stat] fail, although
    the line parses and every usage file is readable. *)
Example Stat_fails_on_pending_read_error :
  Stat_fails Sim.env m0 "mygroup" {| Stats.Memory := None |}
    (Sim.boot
       {| Sim.content :=
            list_to_map ((dir0 +:+ "/memory.stat", "rss 2048")
                         :: map (fun f => (dir0 +:+ "/" +:+ f, "0")) usage_files);
          Sim.dirs := []; Sim.mkdir_fault := None; Sim.write_fault := ∅;
          Sim.open_fault := ∅;
          Sim.read_fault := {[ dir0 +:+ "/memory.stat" := ErrnoError EIO ]};
          Sim.eventfd_fault := 0%N |}).
Proof. unfold Stat_fails. vm_compute. discriminate. Qed.

(** Claim C4 does not hold of the code.  On a [memory.stat] whose first line
    is too long for the scanner's buffer, the scanner stops with [ErrTooLong]
    and has yielded nothing; [parseStats] consults [sc.Err()] inside its loop
    only, so the loop just ends and [Stat] returns nil with every named
    counter zero, although the file can be opened, holds a malformed line
    (the first) and holds the line [rss 2]. *)
Theorem C4_Stat_succeeds_on_malformed_file :
  let out := (Stat Sim.env m0 "mygroup" {| Stats.Memory := None |}
                (Sim.boot oversized_kernel)).1 in
  contains_malformed_line oversized_stat = true
  /\ file_lines oversized_stat = [oversized_line; "rss 2"]
  /\ bufio.Scanner_lines oversized_stat = ([], Some bufio.ErrTooLong)
  /\ out.1 = None
  /\ (MemoryStat.RSS <$> Stats.Memory out.2) = Some 0%N.
Proof. cbv zeta. repeat split; vm_compute; reflexivity. Qed.

(** ** The registry *)

Section Registry.

Context {Cgroup Namespace metric : Type}.

(** Claim C5.  [Add] on an identifier that is already registered returns
    [ErrAlreadyCollected] and leaves the collector as it was; [Add] on a fresh
    identifier returns nil and registers the cgroup under it, every other
    entry, the namespace and the descriptor table staying as they were. *)
Theorem C5_Add_rejects_duplicates :
  forall (c : @Collector Cgroup Namespace metric) (id : string) (cg : Cgroup),
    (forall old, cgroups c !! id = Some old ->
       Add c id cg = (Some ErrAlreadyCollected, c)
       /\ cgroups (Add c id cg).2 !! id = Some old)
    /\ (cgroups c !! id = None ->
        (Add c id cg).1 = None
        /\ cgroups (Add c id cg).2 = <[id := cg]> (cgroups c)
        /\ cgroups (Add c id cg).2 !! id = Some cg
        /\ (forall other, other <> id ->
              cgroups (Add c id cg).2 !! other = cgroups c !! other)
        /\ ns (Add c id cg).2 = ns c
        /\ metrics (Add c id cg).2 = metrics c)
    /\ ErrAlreadyCollected = errorString "cgroup is already being collected".
Proof.
  intros c id cg. split; [|split; [|reflexivity]].
  - intros old Hold. unfold Add. rewrite Hold. simpl. split; [reflexivity | exact Hold].
  - intros Hnone. unfold Add. rewrite Hnone. simpl.
    split; [reflexivity|]. split; [reflexivity|].
    split; [apply lookup_insert_eq|]. split; [|split; reflexivity].
    intros other Hne. apply lookup_insert_ne. congruence.
Qed.

(** Registering twice: the second call is refused and the first cgroup
    stays. *)
Lemma Add_twice (c : @Collector Cgroup Namespace metric) id cg1 cg2 :
  cgroups c !! id = None ->
  Add (Add c id cg1).2 id cg2 = (Some ErrAlreadyCollected, (Add c id cg1).2)
  /\ cgroups (Add (Add c id cg1).2 id cg2).2 !! id = Some cg1.
Proof.
  intros Hnone.
  assert (H1 : Add c id cg1
               = (None, {| cgroups := <[id := cg1]> (cgroups c); ns := ns c;
                           metrics := metrics c |})).
  { unfold Add. rewrite Hnone. reflexivity. }
  rewrite H1. unfold Add. simpl. rewrite lookup_insert_eq. simpl.
  split; [reflexivity | apply lookup_insert_eq].
Qed.

End Registry.

(** ** The collector *)

Section CollectFacts.

Context {Cgroup Stats Namespace Sample metric : Type}.
Context (Cgroup_Stat : Cgroup -> error + Stats).
Context (metric_collect : metric -> string -> Stats -> Namespace -> list Sample).

Abbreviation Collector := (@Collector Cgroup Namespace metric).
Abbreviation machine := (@machine Cgroup Stats Sample metric).
Abbreviation goroutine := (@goroutine Cgroup Stats Sample metric).
Abbreviation step := (step Cgroup_Stat metric_collect).
Abbreviation reachable := (reachable Cgroup_Stat metric_collect).
Abbreviation inv := (inv Cgroup_Stat metric_collect).
Abbreviation local_ok := (local_ok Cgroup_Stat metric_collect).
Abbreviation measure := (measure Cgroup_Stat metric_collect).
Abbreviation cost := (cost Cgroup_Stat metric_collect).
Abbreviation goroutine_step := (goroutine_step Cgroup_Stat metric_collect).

Implicit Types (c : Collector) (s : machine) (g : goroutine)
  (order : list (string * Cgroup)).

Lemma sent_by_app id (l1 l2 : list (string * Sample)) :
  sent_by id (l1 ++ l2) = (sent_by id l1 ++ sent_by id l2)%list.
Proof. unfold sent_by. rewrite filter_app, map_app. reflexivity. Qed.

Lemma logged_for_app id (l1 l2 : list (string * error)) :
  logged_for id (l1 ++ l2) = (logged_for id l1 ++ logged_for id l2)%list.
Proof. unfold logged_for. rewrite filter_app, map_app. reflexivity. Qed.

Lemma sent_by_own id (xs : list Sample) :
  sent_by id (map (pair id) xs) = xs.
Proof.
  unfold sent_by. induction xs as [|x xs IH]; [reflexivity|].
  simpl. rewrite filter_cons. simpl. rewrite decide_True by reflexivity.
  simpl. f_equal. exact IH.
Qed.

Lemma sent_by_other id id' (xs : list Sample) :
  id' <> id -> sent_by id (map (pair id') xs) = [].
Proof.
  intros Hne. unfold sent_by. induction xs as [|x xs IH]; [reflexivity|].
  simpl. rewrite filter_cons. simpl. rewrite decide_False by exact Hne. exact IH.
Qed.

Lemma logged_for_own id (xs : list error) :
  logged_for id (map (pair id) xs) = xs.
Proof.
  unfold logged_for. induction xs as [|x xs IH]; [reflexivity|].
  simpl. rewrite filter_cons. simpl. rewrite decide_True by reflexivity.
  simpl. f_equal. exact IH.
Qed.

Lemma logged_for_other id id' (xs : list error) :
  id' <> id -> logged_for id (map (pair id') xs) = [].
Proof.
  intros Hne. unfold logged_for. induction xs as [|x xs IH]; [reflexivity|].
  simpl. rewrite filter_cons. simpl. rewrite decide_False by exact Hne. exact IH.
Qed.

Lemma sent_by_nil_iff id (l : list (string * Sample)) :
  sent_by id l = [] <-> forall p, p ∈ l -> p.1 <> id.
Proof.
  unfold sent_by. split.
  - intros H p Hin Heq. apply fmap_nil_inv in H.
    assert (p ∈ filter (fun q => q.1 = id) l) as Hp by (apply list_elem_of_filter; auto).
    rewrite H in Hp. apply elem_of_nil in Hp. exact Hp.
  - intros H. induction l as [|p l IH]; [reflexivity|].
    rewrite filter_cons. rewrite decide_False by (apply H; left).
    apply IH. intros q Hq. apply H. right. exact Hq.
Qed.

Lemma logged_for_nil_iff id (l : list (string * error)) :
  logged_for id l = [] <-> forall p, p ∈ l -> p.1 <> id.
Proof.
  unfold logged_for. split.
  - intros H p Hin Heq. apply fmap_nil_inv in H.
    assert (p ∈ filter (fun q => q.1 = id) l) as Hp by (apply list_elem_of_filter; auto).
    rewrite H in Hp. apply elem_of_nil in Hp. exact Hp.
  - intros H. induction l as [|p l IH]; [reflexivity|].
    rewrite filter_cons. rewrite decide_False by (apply H; left).
    apply IH. intros q Hq. apply H. right. exact Hq.
Qed.

Lemma goroutine_step_gid c g e :
  goroutine_step c g = Some e -> gid (next e) = gid g.
Proof.
  destruct g as [id cg|id err|id stats [|x pending] [|m ms]|id|id]; simpl;
    intros H; try discriminate; injection H as <-; simpl; try reflexivity.
  destruct (Cgroup_Stat cg); reflexivity.
Qed.

Lemma goroutine_step_local c order g e sent lg :
  goroutine_step c g = Some e ->
  local_ok c order g sent lg ->
  local_ok c order (next e) (sent ++ sends e) (lg ++ logs e).
Proof.
  destruct g as [id cg|id err|id stats [|x pending] [|m ms]|id|id]; simpl;
    intros H; try discriminate; injection H as <-; simpl; rewrite ?app_nil_r.
  - intros (Hin & -> & ->). destruct (Cgroup_Stat cg) as [err|stats] eqn:Hs; simpl.
    + split; [eauto|]. split; reflexivity.
    + split; [eauto|]. split; reflexivity.
  - intros ((cg & Hin & Hs) & -> & ->). exists cg. split; [exact Hin|].
    rewrite Hs. split; reflexivity.
  - intros ((cg & Hin & Hs) & Hsent & ->). exists cg. split; [exact Hin|].
    rewrite Hs. split; [exact Hsent | reflexivity].
  - intros (Hcg & Hsent & ->). split; [exact Hcg|]. split; [exact Hsent | reflexivity].
  - intros (Hcg & Hsent & ->). split; [exact Hcg|]. split; [|reflexivity].
    rewrite <- Hsent, <- app_assoc. reflexivity.
  - intros (Hcg & Hsent & ->). split; [exact Hcg|]. split; [|reflexivity].
    rewrite <- Hsent, <- app_assoc. reflexivity.
  - intros H. exact H.
Qed.

Lemma goroutine_step_cost c g e :
  goroutine_step c g = Some e -> S (cost c (next e)) = cost c g.
Proof.
  destruct g as [id cg|id err|id stats [|x pending] [|m ms]|id|id]; simpl;
    intros H; try discriminate; injection H as <-; simpl;
    try (destruct (Cgroup_Stat cg)); unfold cost, collect_cost; simpl;
    unfold collect_cost; simpl; lia.
Qed.

Lemma goroutine_step_live c g e :
  goroutine_step c g = Some e ->
  exited g = false /\ exited (next e) = done e.
Proof.
  destruct g as [id cg|id err|id stats [|x pending] [|m ms]|id|id]; simpl;
    intros H; try discriminate; injection H as <-; simpl; split; try reflexivity.
  destruct (Cgroup_Stat cg); reflexivity.
Qed.

Lemma goroutine_step_enabled g c :
  exited g = false -> exists e, goroutine_step c g = Some e.
Proof.
  destruct g as [id cg|id err|id stats [|x pending] [|m ms]|id|id]; simpl;
    intros H; try discriminate; eauto.
Qed.

Lemma live_app (l1 l2 : list goroutine) : live (l1 ++ l2) = live l1 + live l2.
Proof. unfold live. rewrite filter_app, length_app. reflexivity. Qed.

Lemma live_cons g (l : list goroutine) :
  live (g :: l) = (if exited g then 0 else 1) + live l.
Proof.
  unfold live. rewrite filter_cons. destruct (exited g) eqn:Hg.
  - rewrite decide_False by discriminate. reflexivity.
  - rewrite decide_True by reflexivity. reflexivity.
Qed.

Lemma live_zero (l : list goroutine) :
  live l = 0 -> Forall (fun g => exited g = true) l.
Proof.
  induction l as [|g l IH]; [constructor|].
  rewrite live_cons. destruct (exited g) eqn:Hg; [|discriminate].
  simpl. intros H. constructor; [exact Hg | exact (IH H)].
Qed.

Lemma NoDup_map_middle {A B} (f : A -> B) (l1 l2 : list A) (x : A) :
  NoDup (map f (l1 ++ x :: l2)) ->
  forall y, y ∈ (l1 ++ l2)%list -> f y <> f x.
Proof.
  rewrite map_app. simpl. intros H y Hy Heq.
  apply NoDup_app in H as (_ & Hdisj & H2). apply NoDup_cons in H2 as [Hx _].
  apply elem_of_app in Hy as [Hy|Hy].
  - apply (Hdisj (f y)).
    + apply list_elem_of_fmap. exists y. split; [reflexivity | exact Hy].
    + rewrite Heq. left.
  - apply Hx. rewrite <- Heq. apply list_elem_of_fmap.
    exists y. split; [reflexivity | exact Hy].
Qed.

Lemma inv_init c order : inv c order Collect_init.
Proof.
  constructor; simpl.
  - reflexivity.
  - auto.
  - reflexivity.
  - constructor.
  - intros p H. apply elem_of_nil in H. contradiction.
  - intros p H. apply elem_of_nil in H. contradiction.
  - discriminate.
Qed.

Lemma inv_pool_NoDup c order s :
  NoDup (map fst order) -> inv c order s ->
  NoDup (map gid (pool s)) /\
  forall id, id ∈ map fst (unspawned order (pc s)) -> id ∉ map gid (pool s).
Proof.
  intros Hnd [Hord _ _ _ _ _ _]. rewrite <- Hord in Hnd.
  apply NoDup_app in Hnd as (H1 & Hdisj & _). split; [exact H1|].
  intros id Hin Hpool. exact (Hdisj id Hpool Hin).
Qed.

Lemma inv_step_main c order s s' :
  NoDup (map fst order) ->
  inv c order s -> step_main c order s = Some s' -> inv c order s'.
Proof.
  intros Hnd Hinv Hstep.
  destruct (inv_pool_NoDup c order s Hnd Hinv) as [Hndp Hfresh].
  destruct Hinv as [Hord Hun Hwg Hpool Hch Hlog Hret].
  unfold step_main in Hstep.
  destruct (pc s) as [|[|[id cg] rest]|id cg rest| | |] eqn:Hpc;
    try (injection Hstep as <-); try discriminate.
  - constructor; simpl; auto; discriminate.
  - constructor; simpl; auto; discriminate.
  - constructor; simpl; auto; try discriminate. rewrite Hwg. lia.
  - constructor; simpl.
    + rewrite map_app, <- app_assoc. exact Hord.
    + intros p H. apply Hun. right. exact H.
    + rewrite live_app, live_cons. simpl. rewrite Hwg. unfold live at 3. simpl. lia.
    + apply Forall_app. split; [exact Hpool|]. constructor; [|constructor]. simpl.
      split; [apply Hun; left|].
      assert (Hid : id ∉ map gid (pool s)) by (apply Hfresh; left).
      split.
      * apply sent_by_nil_iff. intros p Hp Heq. apply Hid. rewrite <- Heq. exact (Hch p Hp).
      * apply logged_for_nil_iff. intros p Hp Heq. apply Hid. rewrite <- Heq.
        exact (Hlog p Hp).
    + intros p Hp. rewrite map_app. apply elem_of_app. left. exact (Hch p Hp).
    + intros p Hp. rewrite map_app. apply elem_of_app. left. exact (Hlog p Hp).
    + discriminate.
  - constructor; simpl; auto; discriminate.
  - destruct (Z.eqb (wg s) 0) eqn:Hz; [|discriminate]. injection Hstep as <-.
    constructor; simpl; auto. intros _. apply Z.eqb_eq. exact Hz.
Qed.

Lemma inv_step_goroutine c order i s s' :
  NoDup (map fst order) ->
  inv c order s -> step_goroutine Cgroup_Stat metric_collect c i s = Some s' ->
  inv c order s'.
Proof.
  intros Hnd Hinv Hstep.
  destruct (inv_pool_NoDup c order s Hnd Hinv) as [Hndp _].
  destruct Hinv as [Hord Hun Hwg Hpool Hch Hlog Hret].
  unfold step_goroutine in Hstep.
  destruct (pool s !! i) as [g|] eqn:Hi; [|discriminate].
  destruct (goroutine_step c g) as [e|] eqn:He; [|discriminate].
  injection Hstep as <-.
  apply list_elem_of_split_length in Hi as (l1 & l2 & Hsplit & ->).
  pose proof (goroutine_step_gid c g e He) as Hgid.
  destruct (goroutine_step_live c g e He) as [Hlive Hdone].
  assert (Hins : <[length l1 := next e]> (pool s) = (l1 ++ next e :: l2)%list).
  { rewrite Hsplit. rewrite insert_app_r_alt by lia. rewrite Nat.sub_diag. reflexivity. }
  assert (Hgids : map gid (l1 ++ next e :: l2) = map gid (pool s)).
  { rewrite Hsplit, !map_app. simpl. rewrite Hgid. reflexivity. }
  rewrite Hsplit in Hndp.
  pose proof (NoDup_map_middle gid l1 l2 g Hndp) as Hother.
  constructor; simpl; rewrite ?Hins.
  - rewrite Hgids. exact Hord.
  - exact Hun.
  - rewrite live_app, live_cons, Hdone. rewrite Hwg, Hsplit, live_app, live_cons, Hlive.
    destruct (done e); lia.
  - rewrite Hsplit in Hpool. apply Forall_app in Hpool as [H1 H2].
    apply Forall_cons in H2 as [Hg H2].
    assert (Hrest : forall g', g' ∈ (l1 ++ l2)%list ->
              local_ok c order g' (sent_by (gid g') (ch s)) (logged_for (gid g') (logged s)) ->
              local_ok c order g'
                (sent_by (gid g') (ch s ++ map (pair (gid g)) (sends e)))
                (logged_for (gid g') (logged s ++ map (pair (gid g)) (logs e)))).
    { intros g' Hin Hok. pose proof (Hother g' Hin) as Hne.
      rewrite sent_by_app, logged_for_app.
      rewrite sent_by_other, logged_for_other by congruence.
      rewrite !app_nil_r. exact Hok. }
    apply Forall_app. split; [|constructor].
    + rewrite Forall_forall in H1 |- *. intros g' Hin. apply Hrest; [|exact (H1 g' Hin)].
      apply elem_of_app. left. exact Hin.
    + rewrite Hgid, sent_by_app, logged_for_app, sent_by_own, logged_for_own.
      exact (goroutine_step_local c order g e _ _ He Hg).
    + rewrite Forall_forall in H2 |- *. intros g' Hin. apply Hrest; [|exact (H2 g' Hin)].
      apply elem_of_app. right. exact Hin.
  - intros p Hp. rewrite Hgids. apply elem_of_app in Hp as [Hp|Hp]; [exact (Hch p Hp)|].
    apply list_elem_of_fmap in Hp as (x & -> & _). simpl.
    rewrite Hsplit. apply list_elem_of_fmap. exists g. split; [reflexivity|].
    apply elem_of_app. right. left.
  - intros p Hp. rewrite Hgids. apply elem_of_app in Hp as [Hp|Hp]; [exact (Hlog p Hp)|].
    apply list_elem_of_fmap in Hp as (x & -> & _). simpl.
    rewrite Hsplit. apply list_elem_of_fmap. exists g. split; [reflexivity|].
    apply elem_of_app. right. left.
  - intros Hpc. exfalso. specialize (Hret Hpc). rewrite Hpc in Hwg.
    rewrite Hsplit, live_app, live_cons, Hlive in Hwg. lia.
Qed.

Lemma inv_reachable c order s :
  NoDup (map fst order) -> reachable c order s -> inv c order s.
Proof.
  intros Hnd. induction 1 as [|s s' _ IH [t Hstep]]; [apply inv_init|].
  destruct t as [|i]; simpl in Hstep.
  - exact (inv_step_main c order s s' Hnd IH Hstep).
  - exact (inv_step_goroutine c order i s s' Hnd IH Hstep).
Qed.

Lemma live_pos (l : list goroutine) :
  live l <> 0 -> exists i g, l !! i = Some g /\ exited g = false.
Proof.
  induction l as [|g l IH]; [intros H; contradiction|].
  rewrite live_cons. destruct (exited g) eqn:Hg.
  - simpl. intros H. destruct (IH H) as (i & g' & Hi & Hg'). exists (S i), g'. auto.
  - intros _. exists 0, g. auto.
Qed.

(** No deadlock: until [Collect] has returned, some thread can move. *)
Lemma step_progress c order s :
  inv c order s -> pc s <> PReturned -> exists s', step c order s s'.
Proof.
  intros Hinv Hpc. destruct (pc s) as [|[|[id cg] rest]|id cg rest| | |] eqn:Hp;
    try contradiction;
    try (eexists; exists Main; simpl; unfold step_main; rewrite Hp; reflexivity).
  destruct (Z.eqb (wg s) 0) eqn:Hz.
  - eexists; exists Main; simpl; unfold step_main; rewrite Hp, Hz; reflexivity.
  - apply Z.eqb_neq in Hz. destruct Hinv as [_ _ Hwg _ _ _ _]. rewrite Hp in Hwg.
    destruct (live_pos (pool s)) as (i & g & Hi & Hg); [lia|].
    destruct (goroutine_step_enabled g c Hg) as [e He].
    eexists. exists (Goroutine i). simpl. unfold step_goroutine. rewrite Hi, He. reflexivity.
Qed.

(** Every step uses up one unit of the measure. *)
Lemma step_measure c order s s' :
  step c order s s' -> S (measure c order s') = measure c order s.
Proof.
  intros [[|i] Hstep]; simpl in Hstep; unfold measure.
  - unfold step_main in Hstep.
    destruct (pc s) as [|[|[id cg] rest]|id cg rest| | |] eqn:Hp;
      try (injection Hstep as <-); try discriminate; simpl;
      unfold range_cost; simpl; try lia.
    + rewrite map_app, list_sum_app. simpl. lia.
    + destruct (Z.eqb (wg s) 0); [|discriminate]. injection Hstep as <-. simpl. lia.
  - unfold step_goroutine in Hstep.
    destruct (pool s !! i) as [g|] eqn:Hi; [|discriminate].
    destruct (goroutine_step c g) as [e|] eqn:He; [|discriminate].
    injection Hstep as <-. simpl.
    apply list_elem_of_split_length in Hi as (l1 & l2 & Hsplit & ->).
    rewrite Hsplit. rewrite insert_app_r_alt by lia. rewrite Nat.sub_diag. simpl.
    rewrite !map_app, !list_sum_app. simpl.
    pose proof (goroutine_step_cost c g e He). lia.
Qed.

Lemma NoDup_fst_functional {A B} (l : list (A * B)) x y1 y2 :
  NoDup (map fst l) -> (x, y1) ∈ l -> (x, y2) ∈ l -> y1 = y2.
Proof.
  induction l as [|[a b] l IH]; simpl; intros Hnd H1 H2.
  - apply elem_of_nil in H1. contradiction.
  - apply NoDup_cons in Hnd as [Ha Hnd].
    apply elem_of_cons in H1 as [H1|H1]; apply elem_of_cons in H2 as [H2|H2].
    + congruence.
    + injection H1 as -> ->. exfalso. apply Ha. apply list_elem_of_fmap.
      exists (a, y2). split; [reflexivity | exact H2].
    + injection H2 as -> ->. exfalso. apply Ha. apply list_elem_of_fmap.
      exists (a, y1). split; [reflexivity | exact H1].
    + exact (IH Hnd H1 H2).
Qed.

(** What the shared state holds for a cgroup once [Collect] has returned. *)
Lemma returned_cgroup c order s id cg :
  NoDup (map fst order) -> inv c order s -> pc s = PReturned ->
  (id, cg) ∈ order ->
  match Cgroup_Stat cg with
  | inl err => sent_by id (ch s) = [] /\ logged_for id (logged s) = [err]
  | inr stats =>
      sent_by id (ch s) = expected metric_collect c id stats
      /\ logged_for id (logged s) = []
  end.
Proof.
  intros Hnd Hinv Hpc Hin.
  destruct Hinv as [Hord _ Hwg Hpool _ _ Hret].
  rewrite Hpc in Hord, Hwg. simpl in Hord. rewrite app_nil_r in Hord.
  rewrite (Hret Hpc) in Hwg.
  assert (Hex : Forall (fun g => exited g = true) (pool s)) by (apply live_zero; lia).
  assert (Hid : id ∈ map gid (pool s)).
  { rewrite Hord. apply list_elem_of_fmap. exists (id, cg). split; [reflexivity | exact Hin]. }
  apply list_elem_of_fmap in Hid as (g & Hg & Hgin).
  rewrite Forall_forall in Hex, Hpool.
  pose proof (Hex g Hgin) as Hge. pose proof (Hpool g Hgin) as Hok.
  destruct g; try discriminate. simpl in Hg, Hok. subst id0.
  destruct Hok as (cg' & Hin' & Hfin).
  rewrite (NoDup_fst_functional order id cg cg' Hnd Hin Hin'). exact Hfin.
Qed.

Lemma only_entry {A} (l : list (string * A)) id x :
  (forall p, p ∈ l -> p.1 = id) ->
  map snd (filter (fun p => p.1 = id) l) = [x] ->
  l = [(id, x)].
Proof.
  intros Hall Hx.
  assert (Hf : filter (fun p => p.1 = id) l = l).
  { clear Hx. induction l as [|p l IH]; [reflexivity|].
    rewrite filter_cons, decide_True by (apply Hall; left).
    f_equal. apply IH. intros q Hq. apply Hall. right. exact Hq. }
  rewrite Hf in Hx. destruct l as [|[a b] [|q l]]; try discriminate.
  simpl in Hx. injection Hx as ->. pose proof (Hall (a, x) ltac:(left)) as Ha.
  simpl in Ha. rewrite Ha. reflexivity.
Qed.

Lemma length_flat_map_one {A B} (f : A -> list B) (l : list A) :
  (forall a, a ∈ l -> length (f a) = 1) -> length (flat_map f l) = length l.
Proof.
  induction l as [|a l IH]; intros H; [reflexivity|].
  simpl. rewrite length_app, (H a) by left. simpl. f_equal.
  apply IH. intros b Hb. apply H. right. exact Hb.
Qed.

(** Claim C2.  With exactly one tracked cgroup whose [Stat] fails, under
    every interleaving of the goroutines: a run can always be continued until
    [Collect] returns and uses up a bounded number of steps; and once
    [Collect] has returned, every goroutine has finished, each healthy cgroup
    has sent the samples of every descriptor of the table, applied once to
    its snapshot in table order (one sample per descriptor when each
    descriptor gives one), the failing cgroup has sent nothing and was logged
    once.  [Collect] has no error result. *)
Theorem C2_Collect_skips_failing_cgroup :
  forall c order bad cgbad e,
    Permutation order (map_to_list (cgroups c)) ->
    cgroups c !! bad = Some cgbad ->
    Cgroup_Stat cgbad = inl e ->
    (forall id cg, cgroups c !! id = Some cg -> id <> bad ->
                   exists stats, Cgroup_Stat cg = inr stats) ->
    (forall s, reachable c order s ->
       (pc s <> PReturned -> exists s', step c order s s')
       /\ (forall s', step c order s s' -> S (measure c order s') = measure c order s))
    /\ (forall s, reachable c order s -> pc s = PReturned ->
          Forall (fun g => exited g = true) (pool s)
          /\ length (pool s) = size (cgroups c)
          /\ (forall id cg, cgroups c !! id = Some cg -> id <> bad ->
                exists stats,
                  Cgroup_Stat cg = inr stats
                  /\ sent_by id (ch s) = expected metric_collect c id stats
                  /\ ((forall m, m ∈ metrics c ->
                         length (metric_collect m id stats (ns c)) = 1) ->
                      length (sent_by id (ch s)) = length (metrics c)))
          /\ sent_by bad (ch s) = []
          /\ logged s = [(bad, e)]).
Proof.
  intros c order bad cgbad e Hperm Hbad Hfail Hgood.
  assert (Hnd : NoDup (map fst order)).
  { rewrite Hperm. apply NoDup_fst_map_to_list. }
  assert (Hmem : forall id cg, (id, cg) ∈ order <-> cgroups c !! id = Some cg).
  { intros id cg. rewrite Hperm. apply elem_of_map_to_list. }
  split.
  - intros s Hs. pose proof (inv_reachable c order s Hnd Hs) as Hinv. split.
    + apply step_progress. exact Hinv.
    + apply step_measure.
  - intros s Hs Hpc. pose proof (inv_reachable c order s Hnd Hs) as Hinv.
    pose proof (fun id cg H => returned_cgroup c order s id cg Hnd Hinv Hpc (proj2 (Hmem id cg) H))
      as Hret.
    destruct Hinv as [Hord _ Hwg _ _ Hlog Hz].
    rewrite Hpc in Hord, Hwg. simpl in Hord. rewrite app_nil_r in Hord.
    rewrite (Hz Hpc) in Hwg.
    split; [apply live_zero; lia|]. split.
    { rewrite <- (length_map gid), Hord, length_map, Hperm.
      apply length_map_to_list. }
    split.
    { intros id cg Hcg Hne. destruct (Hgood id cg Hcg Hne) as [stats Hst].
      exists stats. split; [exact Hst|].
      pose proof (Hret id cg Hcg) as H. rewrite Hst in H. destruct H as [Hsent _].
      split; [exact Hsent|]. intros Hone. rewrite Hsent. unfold expected.
      apply length_flat_map_one. exact Hone. }
    pose proof (Hret bad cgbad Hbad) as H. rewrite Hfail in H. destruct H as [Hsent Hl].
    split; [exact Hsent|].
    apply only_entry; [|exact Hl].
    intros p Hp. destruct (decide (p.1 = bad)) as [Heq|Hne]; [exact Heq|exfalso].
    pose proof (Hlog p Hp) as Hid. rewrite Hord in Hid.
    apply list_elem_of_fmap in Hid as ([id cg] & Hpid & Hin). simpl in Hpid.
    apply Hmem in Hin. rewrite Hpid in Hne.
    destruct (Hgood id cg Hin Hne) as [stats Hst].
    pose proof (Hret id cg Hin) as H. rewrite Hst in H. destruct H as [_ Hnil].
    apply (proj1 (logged_for_nil_iff id (logged s)) Hnil p Hp). exact Hpid.
Qed.

End CollectFacts.

Section Runs.

Context {Cgroup Stats Namespace Sample metric : Type}.
Context (Cgroup_Stat : Cgroup -> error + Stats).
Context (metric_collect : metric -> string -> Stats -> Namespace -> list Sample).

(** Whatever a schedule reaches is reachable. *)
Lemma run_reachable (c : @Collector Cgroup Namespace metric) order schedule :
  forall s,
    reachable Cgroup_Stat metric_collect c order s ->
    reachable Cgroup_Stat metric_collect c order
      (run Cgroup_Stat metric_collect c order schedule s).
Proof.
  induction schedule as [|t rest IH]; intros s Hs; [exact Hs|].
  simpl. destruct (step_thread Cgroup_Stat metric_collect c order t s) as [s'|] eqn:Hstep.
  - apply IH. eapply reach_step; [exact Hs|]. exists t. exact Hstep.
  - apply IH. exact Hs.
Qed.

End Runs.

Example sample_run_returns : pc sample_final = PReturned.
Proof. vm_compute. reflexivity. Qed.

Example sample_run_channel :
  sent_by "a" (ch sample_final) = [("container_cache", 10%N); ("container_rss", 10%N)]
  /\ sent_by "c" (ch sample_final) = [("container_cache", 30%N); ("container_rss", 30%N)]
  /\ length (ch sample_final) = 4.
Proof. vm_compute. repeat split. Qed.


(** ** Runs on the sample kernel and the sample collector *)

Lemma sample_healthy id cg :
  cgroups sample_collector !! id = Some cg -> id <> "b" ->
  exists stats, sample_Stat cg = inr stats.
Proof.
  unfold sample_collector. simpl. intros H Hne.
  destruct (decide (id = "a")) as [->|Ha].
  { rewrite lookup_insert_eq in H. injection H as <-. eexists. reflexivity. }
  rewrite lookup_insert_ne in H by congruence.
  rewrite lookup_insert_ne in H by congruence.
  destruct (decide (id = "c")) as [->|Hc].
  { rewrite lookup_insert_eq in H. injection H as <-. eexists. reflexivity. }
  rewrite lookup_insert_ne in H by congruence.
  rewrite lookup_empty in H. discriminate.
Qed.

(** Claim C2 on the sample collector under the round-robin schedule. *)
Lemma C2_witness :
  sent_by "b" (ch sample_final) = []
  /\ logged sample_final = [("b", errors_New "no such cgroup")].
Proof.
  destruct (C2_Collect_skips_failing_cgroup sample_Stat sample_collect
              sample_collector sample_order "b" (inl (errors_New "no such cgroup"))
              (errors_New "no such cgroup")
              (Permutation_refl _) eq_refl eq_refl sample_healthy) as [_ H].
  destruct (H sample_final) as (_ & _ & _ & Hsent & Hlog).
  - apply run_reachable. apply reach_init.
  - vm_compute. reflexivity.
  - split; [exact Hsent | exact Hlog].
Defined.

(** Claim C3 on a kernel that answers the probe with EBUSY. *)
Lemma C3_witness :
  (Create Sim.env m0 "mygroup" (Some (limits None None (Some 3%N) None))
     (Sim.boot (kernel_with []
        [(dir0 +:+ "/memory.kmem.limit_in_bytes", WriteFailed "write" EBUSY)]))).1
  = Returns (Some kmem_busy_error).
Proof.
  pose proof (C3_Create_kmem_probe Sim.env m0 "mygroup"
                (limits None None (Some 3%N) None) _ 3%N
                (Sim.boot (kernel_with []
                   [(dir0 +:+ "/memory.kmem.limit_in_bytes", WriteFailed "write" EBUSY)]))
                _ eq_refl eq_refl eq_refl) as H.
  cbv zeta in H.
  destruct (Create Sim.env m0 "mygroup" _ _) as [r w'].
  vm_compute in H. destruct H as [Hr _]. exact Hr.
Defined.

(** Claim C8 on the quiet kernel: descriptors 0, 1, 2 are handed out and
    "1 0" is written. *)
Lemma C8_witness :
  exists cfd ctl,
    log (OOMEventFD Sim.env m0 "mygroup" (Sim.boot Sim.quiet)).2
    = [ EvOpenFile (dir0 +:+ "/memory.oom_control") O_RDONLY (inr cfd);
        EvEventfd2 0 FD_CLOEXEC (1%N, 0%N);
        EvOpenFile (dir0 +:+ "/cgroup.event_control") O_WRONLY (inr ctl);
        EvWriteString ctl ("1 " +:+ FormatUint cfd) None;
        EvClose ctl None;
        EvClose cfd None ].
Proof.
  exact (C8_event_control_line Sim.env m0 "mygroup" (Sim.boot Sim.quiet) 1%N eq_refl).
Defined.

Example Create_probe_passes_other_errors :
  (Create Sim.env m0 "mygroup" (Some (limits None None (Some 3%N) None))
     (Sim.boot (kernel_with []
        [(dir0 +:+ "/memory.kmem.limit_in_bytes", WriteFailed "open" EINVAL)]))).1
  = Returns (Some (PathError "open" (dir0 +:+ "/memory.kmem.limit_in_bytes")
                     (ErrnoError EINVAL))).
Proof. vm_compute. reflexivity. Qed.

Example OOMEventFD_registers :
  (OOMEventFD Sim.env m0 "mygroup" (Sim.boot Sim.quiet)).1 = (1%N, None)
  /\ Sim.content (kern (OOMEventFD Sim.env m0 "mygroup" (Sim.boot Sim.quiet)).2)
       !! (dir0 +:+ "/cgroup.event_control") = Some "1 0".
Proof. vm_compute. split; reflexivity. Qed.

Example OOMEventFD_closes_on_failure :
  (OOMEventFD Sim.env m0 "mygroup"
     (Sim.boot (kernel_with []
        [(dir0 +:+ "/cgroup.event_control", WriteFailed "write" EINVAL)]))).1.1 = 0%N
  /\ fdt (OOMEventFD Sim.env m0 "mygroup"
            (Sim.boot (kernel_with []
               [(dir0 +:+ "/cgroup.event_control", WriteFailed "write" EINVAL)]))).2 = ∅.
Proof. vm_compute. split; reflexivity. Qed.

Example Stat_reads_counters :
  let k := kernel_with
             ((dir0 +:+ "/memory.stat", "cache 1024" +:+ String Sim.newline "rss 2048"
                                         +:+ String Sim.newline "")
              :: map (fun f => (dir0 +:+ "/" +:+ f, "7")) usage_files) [] in
  let r := (Stat Sim.env m0 "mygroup" {| Stats.Memory := None |} (Sim.boot k)).1 in
  r.1 = None
  /\ (MemoryStat.Cache <$> Stats.Memory r.2) = Some 1024%N
  /\ (MemoryStat.RSS <$> Stats.Memory r.2) = Some 2048%N
  /\ (MemoryStat.Dirty <$> Stats.Memory r.2) = Some 0%N
  /\ (MemoryEntry.Limit <$> (MemoryStat.Swap <$> Stats.Memory r.2)) = Some 7%N.
Proof. vm_compute. repeat split. Qed.

(** * Further properties

    What the rest of the code shows: the error and edge behaviour of the
    controller's calls, what they leave behind, how they compose, and the
    collector's [New], [Describe], [Add] and [blkioValues]. *)

Import More.

(** ** Limits: [Update], [Create], [set] *)

Section UpdateMore.
Context (E : Env).

Lemma getMemorySettings_Some res mem :
  specs.Memory res = Some mem ->
  exists settings, getMemorySettings res = Returns settings.
Proof. intros H. unfold getMemorySettings. rewrite H. eauto. Qed.

(** What [Update] does once [Memory] is present: at most one read of the
    current limit, then one pass of [set] over the settings list, whose first
    two entries may have been exchanged. *)
Lemma Update_shape m path res mem (w : World E) :
  specs.Memory res = Some mem ->
  let lf := filepath.Join [Path m path; "memory.limit_in_bytes"] in
  let provided := map (knob_call m path) (provided_knobs res mem) in
  exists pre evs r,
    (Update E m path (Some res) w).1 = Returns r
    /\ log (Update E m path (Some res) w).2 = (log w ++ pre ++ evs)%list
    /\ fdt (Update E m path (Some res) w).2 = fdt w
    /\ if positive (specs.Limit mem) && positive (specs.Swap mem)
       then match readUint_result E lf (kern w) with
            | inl err =>
                pre = [EvReadUint lf (inl err)] /\ evs = [] /\ r = Some err
                /\ kern (Update E m path (Some res) w).2 = kern w
            | inr current =>
                pre = [EvReadUint lf (inr current)]
                /\ exists calls,
                     Permutation calls provided
                     /\ write_run (defaultFilePerm E) calls evs r
            end
       else pre = [] /\ write_run (defaultFilePerm E) provided evs r.
Proof.
  intros Hmem lf provided.
  destruct (getMemorySettings_Some res mem Hmem) as [settings Hs].
  pose proof (settings_calls m path res mem settings Hmem Hs) as Hcalls.
  fold provided in Hcalls.
  unfold Update. rewrite Hmem, Hs.
  change (match specs.Limit mem with Some x => N.ltb 0 x | None => false end)
    with (positive (specs.Limit mem)).
  change (match specs.Swap mem with Some x => N.ltb 0 x | None => false end)
    with (positive (specs.Swap mem)).
  destruct (positive (specs.Limit mem) && positive (specs.Swap mem)) eqn:Hboth.
  - unfold bind, readUint. cbv beta iota. fold lf.
    destruct (readUint_result E lf (kern w)) as [err|current] eqn:Hread.
    + exists [EvReadUint lf (inl err)], [], (Some err). simpl. auto 10.
    + apply andb_true_iff in Hboth as [HL HS].
      destruct (specs.Swap mem) as [S|] eqn:HSw; [|discriminate].
      destruct (specs.Limit mem) as [L|] eqn:HLi; [|discriminate].
      unfold getMemorySettings in Hs. rewrite Hmem in Hs. injection Hs as <-.
      rewrite HLi, HSw in Hcalls |- *.
      destruct (N.ltb current S) eqn:Hlt.
      * cbn [swap01 lookup list_lookup insert list_insert].
        match goal with |- context [set E m path ?l ?w1] =>
          destruct (set_run E m path l w1) as (evs & Hlog & Hfd & Hrun);
          destruct (set E m path l w1) as [e w2] end.
        exists [EvReadUint lf (inr current)], evs, e. simpl in *.
        split; [reflexivity|]. split; [rewrite Hlog, <- app_assoc; reflexivity|].
        split; [exact Hfd|]. split; [reflexivity|].
        eexists. split; [|exact Hrun]. rewrite <- Hcalls.
        unfold set_calls. simpl. apply perm_swap.
      * match goal with |- context [set E m path ?l ?w1] =>
          destruct (set_run E m path l w1) as (evs & Hlog & Hfd & Hrun);
          destruct (set E m path l w1) as [e w2] end.
        exists [EvReadUint lf (inr current)], evs, e. simpl in *.
        split; [reflexivity|]. split; [rewrite Hlog, <- app_assoc; reflexivity|].
        split; [exact Hfd|]. split; [reflexivity|].
        eexists. split; [|exact Hrun]. rewrite <- Hcalls. reflexivity.
  - unfold bind.
    destruct (set_run E m path settings w) as (evs & Hlog & Hfd & Hrun).
    destruct (set E m path settings w) as [e w2].
    exists [], evs, e. simpl in *. rewrite Hcalls in Hrun. auto.
Qed.

End UpdateMore.

Section MemoryMore.
Context (E : Env).

Lemma write_run_is_write perm calls evs r :
  write_run perm calls evs r -> Forall is_write evs.
Proof.
  intros H. eapply Forall_impl; [exact (write_run_only_writes _ _ _ _ H)|].
  intros ev (f & d & res & -> & _). exists f, d, perm, res. reflexivity.
Qed.

Lemma write_run_outcome perm calls evs r :
  write_run perm calls evs r ->
  match r with
  | None => Forall succeeded evs
  | Some e =>
      exists before last,
        evs = (before ++ [last])%list /\ Forall succeeded before /\ failed_with e last
  end.
Proof.
  intros H. destruct r as [e|].
  - destruct (write_run_error _ _ _ _ H) as (f & d & before & -> & Hb).
    exists before, (EvWriteFile f d perm (Some e)). split; [reflexivity|].
    split; [|reflexivity].
    eapply Forall_impl; [exact Hb|]. intros ev (f' & d' & ->). reflexivity.
  - rewrite (write_run_success _ _ _ _ H eq_refl).
    apply Forall_forall. intros ev Hin. apply list_elem_of_fmap in Hin as (c & -> & _).
    reflexivity.
Qed.

(** The probe loop of [Create] as a run of writes; a failing write comes
    back through [checkEBUSY]. *)
Lemma kmem_probe_run m path probes : forall w : World E,
  let kf := filepath.Join [Path m path; "memory.kmem.limit_in_bytes"] in
  exists evs rp,
    log (kmem_probe E m path probes w).2 = (log w ++ evs)%list
    /\ fdt (kmem_probe E m path probes w).2 = fdt w
    /\ write_run (defaultFilePerm E) (map (fun i => (kf, FormatInt i)) probes) evs rp
    /\ (kmem_probe E m path probes w).1 = checkEBUSY <$> rp.
Proof.
  induction probes as [|i rest IH]; intros w kf.
  - exists [], None. simpl. rewrite app_nil_r. repeat split. constructor.
  - simpl. fold kf. unfold bind, ioutil_WriteFile.
    destruct (sys_writefile E _ _ _ (kern w)) as [o k] eqn:Ho.
    destruct (write_error _ o) as [e|] eqn:He.
    + exists [EvWriteFile kf (FormatInt i) (defaultFilePerm E) (Some e)], (Some e).
      simpl. repeat split. constructor.
    + match goal with |- context [kmem_probe E m path rest ?w1] =>
        destruct (IH w1) as (evs & rp & Hlog & Hfd & Hrun & Hres) end.
      exists (EvWriteFile kf (FormatInt i) (defaultFilePerm E) None :: evs), rp.
      rewrite Hlog, Hfd, Hres. simpl. rewrite <- app_assoc. repeat split.
      constructor. exact Hrun.
Qed.

(** What [Create] does on resources that are present: [MkdirAll], then the
    probes, then one pass of [set]. *)
Lemma Create_shape m path res (w : World E) :
  let r0 := (sys_mkdirall E (Path m path) (defaultDirPerm E) (kern w)).1 in
  exists evs r,
    (Create E m path (Some res) w).1 = Returns r
    /\ log (Create E m path (Some res) w).2
       = (log w ++ EvMkdirAll (Path m path) (defaultDirPerm E) r0 :: evs)%list
    /\ fdt (Create E m path (Some res) w).2 = fdt w
    /\ match r0 with
       | Some e => r = Some e /\ evs = []
       | None =>
           match specs.Memory res with
           | None => r = None /\ evs = []
           | Some mem =>
               exists probes rest rp,
                 evs = (probes ++ rest)%list
                 /\ write_run (defaultFilePerm E) (probes_of m path mem) probes rp
                 /\ match rp with
                    | Some e => rest = [] /\ r = Some (checkEBUSY e)
                    | None =>
                        write_run (defaultFilePerm E)
                          (map (knob_call m path) (provided_knobs res mem)) rest r
                    end
           end
       end.
Proof.
  intros r0. subst r0. unfold Create, bind, os_MkdirAll.
  destruct (sys_mkdirall E (Path m path) (defaultDirPerm E) (kern w)) as [r0 k1].
  cbn [fst].
  destruct r0 as [e|].
  { exists [], (Some e). simpl. auto. }
  destruct (specs.Memory res) as [mem|] eqn:Hmem.
  2: { exists [], None. simpl. auto. }
  destruct (getMemorySettings_Some res mem Hmem) as [settings Hs].
  pose proof (settings_calls m path res mem settings Hmem Hs) as Hcalls.
  rewrite Hs.
  set (w1 := record E w k1 (fdt w) _).
  assert (Hp : exists probes rp w2 pr,
    (match specs.Kernel mem with
     | Some _ => kmem_probe E m path [1%Z; (-1)%Z]
     | None => ret E None
     end) w1 = (pr, w2)
    /\ pr = checkEBUSY <$> rp
    /\ log w2 = (log w1 ++ probes)%list /\ fdt w2 = fdt w1
    /\ write_run (defaultFilePerm E) (probes_of m path mem) probes rp).
  { unfold probes_of. destruct (specs.Kernel mem) as [kl|].
    - destruct (kmem_probe_run m path [1%Z; (-1)%Z] w1) as (evs & rp & Hlog & Hfd & Hrun & Hres).
      destruct (kmem_probe E m path [1%Z; (-1)%Z] w1) as [pr w2].
      exists evs, rp, w2, pr. simpl in *. auto.
    - exists [], None, w1, None. unfold ret. rewrite app_nil_r.
      repeat split. constructor. }
  destruct Hp as (probes & rp & w2 & pr & -> & -> & Hlog2 & Hfd2 & Hrun2).
  destruct rp as [e|]; cbn [fmap option_fmap option_map].
  - exists probes, (Some (checkEBUSY e)). simpl.
    split; [reflexivity|]. split; [rewrite Hlog2; unfold w1; simpl; rewrite <- app_assoc; reflexivity|].
    split; [rewrite Hfd2; reflexivity|].
    exists probes, [], (Some e). rewrite app_nil_r. auto.
  - destruct (set_run E m path settings w2) as (evs & Hlog & Hfd & Hrun).
    destruct (set E m path settings w2) as [r w3].
    exists (probes ++ evs)%list, r. simpl in *.
    split; [reflexivity|].
    split; [rewrite Hlog, Hlog2; unfold w1; simpl; rewrite <- !app_assoc; reflexivity|].
    split; [rewrite Hfd, Hfd2; reflexivity|].
    exists probes, evs, None. rewrite Hcalls in Hrun. auto.
Qed.

End MemoryMore.

Section MemoryExtras.
Context (E : Env).

(** Property X1.  [Update] and [Create] panic on nil resources only: with
    resources present neither an index of the settings list nor a pointer is
    ever out of reach, whatever the record holds; [Create] on nil resources
    panics exactly when [MkdirAll] succeeded. *)
Theorem nil_resources_is_the_only_panic :
  forall m path res (w : World E),
    ((Update E m path res w).1 = Panics <-> res = None)
    /\ ((Create E m path res w).1 = Panics
        <-> res = None
            /\ (sys_mkdirall E (Path m path) (defaultDirPerm E) (kern w)).1 = None).
Proof.
  intros m path res w. split.
  - destruct res as [res|]; [|split; reflexivity].
    split; [|discriminate]. intros HP. exfalso.
    destruct (specs.Memory res) as [mem|] eqn:Hmem.
    + destruct (Update_shape E m path res mem w Hmem) as (pre & evs & r & Hr & _).
      rewrite Hr in HP. discriminate.
    + unfold Update in HP. rewrite Hmem in HP. discriminate.
  - destruct res as [res|].
    + split; [|intros [? _]; discriminate]. intros HP. exfalso.
      destruct (Create_shape E m path res w) as (evs & r & Hr & _).
      rewrite Hr in HP. discriminate.
    + unfold Create, bind, os_MkdirAll.
      destruct (sys_mkdirall E (Path m path) (defaultDirPerm E) (kern w)) as [[e|] k1];
        simpl; split; try discriminate; auto.
      intros [_ H]. discriminate.
Qed.

(** Property X2.  When the memory limit or the swap limit is absent or zero,
    [Update] does not read the current limit: it writes the provided knobs in
    the order of the settings list, stopping at the first failing write. *)
Theorem Update_without_both_limits_keeps_list_order :
  forall m path res mem (w : World E),
    specs.Memory res = Some mem ->
    positive (specs.Limit mem) && positive (specs.Swap mem) = false ->
    exists evs r,
      (Update E m path (Some res) w).1 = Returns r
      /\ log (Update E m path (Some res) w).2 = (log w ++ evs)%list
      /\ write_run (defaultFilePerm E)
           (map (knob_call m path) (provided_knobs res mem)) evs r.
Proof.
  intros m path res mem w Hmem Hboth.
  destruct (Update_shape E m path res mem w Hmem) as (pre & evs & r & Hr & Hlog & _ & H).
  rewrite Hboth in H. destruct H as [-> Hrun].
  exists evs, r. auto.
Qed.

(** Property X3.  [Update] makes at most one read, of
    [memory.limit_in_bytes] and before anything else, and otherwise only
    writes; it leaves the descriptor table alone and stops at the first call
    that fails: it returns nil exactly when every call it made succeeded, and
    otherwise the error of the last call it made, unchanged. *)
Theorem Update_stops_at_first_failure :
  forall m path res (w : World E),
    exists pre evs,
      log (Update E m path (Some res) w).2 = (log w ++ pre ++ evs)%list
      /\ fdt (Update E m path (Some res) w).2 = fdt w
      /\ (pre = []
          \/ exists r, pre = [EvReadUint
                                (filepath.Join [Path m path; "memory.limit_in_bytes"]) r])
      /\ Forall is_write evs
      /\ match (Update E m path (Some res) w).1 with
         | Panics => False
         | Returns None => Forall succeeded (pre ++ evs)
         | Returns (Some err) =>
             exists before last,
               (pre ++ evs)%list = (before ++ [last])%list
               /\ Forall succeeded before /\ failed_with err last
         end.
Proof.
  intros m path res w.
  destruct (specs.Memory res) as [mem|] eqn:Hmem.
  2: { unfold Update. rewrite Hmem. exists [], []. simpl. rewrite app_nil_r. auto 6. }
  destruct (Update_shape E m path res mem w Hmem) as (pre & evs & r & Hr & Hlog & Hfd & H).
  exists pre, evs. rewrite Hr. split; [exact Hlog|]. split; [exact Hfd|].
  destruct (positive (specs.Limit mem) && positive (specs.Swap mem)).
  - destruct (readUint_result E _ (kern w)) as [err|current].
    + destruct H as (-> & -> & -> & _). simpl.
      split; [right; eauto|]. split; [constructor|].
      exists [], (EvReadUint (filepath.Join [Path m path; "memory.limit_in_bytes"]) (inl err)).
      repeat split. constructor.
    + destruct H as (-> & calls & _ & Hrun).
      split; [right; eauto|]. split; [exact (write_run_is_write _ _ _ _ Hrun)|].
      pose proof (write_run_outcome _ _ _ _ Hrun) as Ho. destruct r as [e|].
      * destruct Ho as (before & last & -> & Hb & Hl).
        exists (EvReadUint (filepath.Join [Path m path; "memory.limit_in_bytes"])
                  (inr current) :: before), last.
        split; [reflexivity|]. split; [|exact Hl].
        constructor; [simpl; eauto | exact Hb].
      * constructor; [simpl; eauto | exact Ho].
  - destruct H as (-> & Hrun). simpl.
    split; [left; reflexivity|]. split; [exact (write_run_is_write _ _ _ _ Hrun)|].
    exact (write_run_outcome _ _ _ _ Hrun).
Qed.

Lemma provided_knobs_names_NoDup res mem : NoDup (map fst (provided_knobs res mem)).
Proof.
  unfold provided_knobs. destruct mem as [l rsv s k kt sw]; simpl.
  destruct l, s, k, kt, sw, (specs.DisableOOMKiller res) as [[|]|]; simpl;
    apply (bool_decide_unpack _); vm_compute; reflexivity.
Qed.

Lemma provided_calls_NoDup m path res mem :
  NoDup (map fst (map (knob_call m path) (provided_knobs res mem))).
Proof.
  rewrite map_map. unfold knob_call. cbn [fst].
  change (map (fun x : string * N => knob_file m path x.1) (provided_knobs res mem))
    with ((fun x : string * N => knob_file m path x.1) <$> provided_knobs res mem).
  apply NoDup_fmap_2_strong.
  - intros [n1 v1] [n2 v2] H1 H2 Heq. cbn [fst] in Heq.
    apply knob_file_inj in Heq;
      [|exact (provided_knobs_plain _ _ _ H1)|exact (provided_knobs_plain _ _ _ H2)].
    subst n2.
    pose proof (provided_knobs_names_NoDup res mem) as Hnd.
    f_equal. eapply NoDup_fst_functional; eauto.
  - pose proof (provided_knobs_names_NoDup res mem) as Hnd.
    apply NoDup_fmap_1 in Hnd. exact Hnd.
Qed.

Lemma writes_in_app l1 l2 : writes_in (l1 ++ l2) = (writes_in l1 ++ writes_in l2)%list.
Proof. unfold writes_in. apply omap_app. Qed.

(** Property X4.  [Update] writes no file twice, in either order of the two
    limits. *)
Theorem Update_writes_each_file_at_most_once :
  forall m path res (w : World E),
    exists evs,
      log (Update E m path (Some res) w).2 = (log w ++ evs)%list
      /\ NoDup (map fst (writes_in evs)).
Proof.
  intros m path res w.
  destruct (specs.Memory res) as [mem|] eqn:Hmem.
  2: { unfold Update. rewrite Hmem. exists []. simpl. rewrite app_nil_r.
       split; [reflexivity | constructor]. }
  destruct (Update_shape E m path res mem w Hmem) as (pre & evs & r & Hr & Hlog & Hfd & H).
  exists (pre ++ evs)%list. split; [exact Hlog|]. rewrite writes_in_app.
  assert (Hgen : forall calls,
    Permutation calls (map (knob_call m path) (provided_knobs res mem)) ->
    write_run (defaultFilePerm E) calls evs r -> NoDup (map fst (writes_in evs))).
  { intros calls Hperm Hrun.
    destruct (write_run_writes _ _ _ _ Hrun) as (n & -> & _).
    assert (Hnd : NoDup (map fst calls)).
    { assert (Hp2 : map fst calls ≡ₚ map fst (map (knob_call m path) (provided_knobs res mem)))
        by (apply Permutation_map, Hperm).
      rewrite Hp2. apply provided_calls_NoDup. }
    change (map fst (take n calls)) with (fst <$> take n calls).
    rewrite fmap_take. exact (sublist_NoDup _ _ Hnd (sublist_take _ _)). }
  destruct (positive (specs.Limit mem) && positive (specs.Swap mem)).
  - destruct (readUint_result E _ (kern w)) as [err|current].
    + destruct H as (-> & -> & _). simpl. constructor.
    + destruct H as (-> & calls & Hperm & Hrun). simpl. eapply Hgen; eauto.
  - destruct H as (-> & Hrun). simpl. eapply Hgen; eauto.
Qed.

(** Property X5.  The calls of a [Create] that returns nil: [MkdirAll], the
    probes "1" and "-1" when a kernel limit is provided, then one write per
    provided knob in list order; the kernel-memory file is then written three
    times. *)
Theorem Create_success_call_sequence :
  forall m path res mem (w : World E),
    specs.Memory res = Some mem ->
    (Create E m path (Some res) w).1 = Returns None ->
    log (Create E m path (Some res) w).2 = (log w ++ create_calls E m path res mem)%list.
Proof.
  intros m path res mem w Hmem Hok.
  destruct (Create_shape E m path res w) as (evs & r & Hr & Hlog & _ & H).
  rewrite Hr in Hok. injection Hok as ->. rewrite Hlog. f_equal.
  unfold create_calls.
  destruct (sys_mkdirall E (Path m path) (defaultDirPerm E) (kern w)).1 as [e|];
    [destruct H; discriminate|].
  rewrite Hmem in H. destruct H as (probes & rest & rp & -> & Hp & H).
  destruct rp as [e|]; [destruct H; discriminate|].
  rewrite (write_run_success _ _ _ _ H eq_refl).
  rewrite (write_run_success _ _ _ _ Hp eq_refl).
  unfold probes_of. destruct (specs.Kernel mem); reflexivity.
Qed.

Lemma write_run_length perm calls evs r :
  write_run perm calls evs r ->
  (length evs <= length calls)%nat /\ (r = None -> length evs = length calls).
Proof.
  induction 1 as [|f d calls evs r _ [IH1 IH2]|f d calls e]; simpl.
  - split; [lia | reflexivity].
  - split; [lia|]. intros Hr. rewrite (IH2 Hr). reflexivity.
  - split; [lia | discriminate].
Qed.

(** Property X6.  [Create] calls [MkdirAll] first and after it only writes; a
    failing [MkdirAll] is returned with nothing written; otherwise the call
    stops at the first failing write and returns its error: passed through
    [checkEBUSY] when the write was one of the probes, unchanged when it came
    from the settings list. *)
Theorem Create_stops_at_first_failure :
  forall m path res (w : World E),
    let r0 := (sys_mkdirall E (Path m path) (defaultDirPerm E) (kern w)).1 in
    let probes := match specs.Memory res with
                  | Some mem => probes_of m path mem
                  | None => []
                  end in
    exists evs,
      log (Create E m path (Some res) w).2
      = (log w ++ EvMkdirAll (Path m path) (defaultDirPerm E) r0 :: evs)%list
      /\ fdt (Create E m path (Some res) w).2 = fdt w
      /\ Forall is_write evs
      /\ match (Create E m path (Some res) w).1 with
         | Panics => False
         | Returns None => r0 = None /\ Forall succeeded evs
         | Returns (Some err) =>
             (r0 = Some err /\ evs = [])
             \/ (r0 = None
                 /\ exists before f d e0,
                      evs = (before ++ [EvWriteFile f d (defaultFilePerm E) (Some e0)])%list
                      /\ Forall succeeded before
                      /\ err = if (length before <? length probes)%nat
                               then checkEBUSY e0 else e0)
         end.
Proof.
  intros m path res w r0 probes0.
  destruct (Create_shape E m path res w) as (evs & r & Hr & Hlog & Hfd & H).
  fold r0 in Hlog, H. exists evs. rewrite Hr.
  split; [exact Hlog|]. split; [exact Hfd|].
  destruct r0 as [e|].
  { destruct H as [-> ->]. split; [constructor|]. left. auto. }
  subst probes0. destruct (specs.Memory res) as [mem|].
  2: { destruct H as [-> ->]. split; [constructor|]. split; [reflexivity|constructor]. }
  destruct H as (probes & rest & rp & -> & Hp & H).
  pose proof (write_run_is_write _ _ _ _ Hp) as Hwp.
  destruct (write_run_length _ _ _ _ Hp) as [Hle Hfull].
  destruct rp as [e|].
  - destruct H as [-> ->]. rewrite app_nil_r. split; [exact Hwp|]. right.
    split; [reflexivity|].
    destruct (write_run_error _ _ _ _ Hp) as (f & d & before & -> & Hb).
    exists before, f, d, e. split; [reflexivity|]. split.
    + eapply Forall_impl; [exact Hb|]. intros ev (f' & d' & ->). reflexivity.
    + rewrite length_app in Hle. simpl in Hle.
      rewrite (proj2 (Nat.ltb_lt _ _)) by lia. reflexivity.
  - pose proof (write_run_is_write _ _ _ _ H) as Hwr.
    split; [apply Forall_app; auto|].
    pose proof (write_run_outcome _ _ _ _ Hp) as Hsp. cbv beta iota in Hsp.
    destruct r as [e|].
    + right. split; [reflexivity|].
      destruct (write_run_error _ _ _ _ H) as (f & d & before & -> & Hb).
      exists (probes ++ before)%list, f, d, e. rewrite app_assoc.
      split; [reflexivity|]. split.
      * apply Forall_app. split; [exact Hsp|].
        eapply Forall_impl; [exact Hb|]. intros ev (f' & d' & ->). reflexivity.
      * rewrite length_app, (Hfull eq_refl).
        rewrite (proj2 (Nat.ltb_ge _ _)) by lia. reflexivity.
    + split; [reflexivity|]. apply Forall_app. split; [exact Hsp|].
      exact (write_run_outcome _ _ _ _ H).
Qed.

(** Property X7.  [set] over a concatenation applies the first list and, when
    none of its writes failed, goes on with the second from the state reached;
    a failure in the first list is returned with the second untouched. *)
Theorem set_app :
  forall m path s1 s2 (w : World E),
    set E m path (s1 ++ s2) w
    = match set E m path s1 w with
      | (Some e, w1) => (Some e, w1)
      | (None, w1) => set E m path s2 w1
      end.
Proof.
  intros m path s1 s2. induction s1 as [|t rest IH]; intros w; [reflexivity|].
  simpl. destruct (value t) as [v|]; [|apply IH].
  unfold bind, ioutil_WriteFile.
  destruct (sys_writefile E _ _ _ (kern w)) as [o k].
  destruct (write_error _ o) as [e|]; [reflexivity|]. apply IH.
Qed.

End MemoryExtras.

Section PathMore.

Lemma append_cancel_l (a b c : string) : a +:+ b = a +:+ c -> b = c.
Proof.
  induction a as [|ch a IH]; intros H; [exact H|].
  change (String ch (a +:+ b) = String ch (a +:+ c)) in H.
  injection H as H. apply IH, H.
Qed.

(** Property X8.  Two different paths made of plain components name two
    different directories under the controller's root. *)
Theorem Path_separates_plain_paths :
  forall m p1 p2,
    plain_path p1 = true -> plain_path p2 = true ->
    p1 <> p2 -> Path m p1 <> Path m p2.
Proof.
  intros m p1 p2 H1 H2 Hne Heq. apply Hne. revert Heq. unfold Path.
  rewrite (Join_plain_path _ p1 H1), (Join_plain_path _ p2 H2).
  apply append_cancel_l.
Qed.

End PathMore.

Section FilesWritten.
Context (E : Env).

Lemma provided_knobs_names res mem kv :
  kv ∈ provided_knobs res mem -> kv.1 ∈ knob_names.
Proof.
  unfold provided_knobs, knob_names. destruct mem as [l rsv s k kt sw]; simpl.
  destruct l, s, k, kt, sw, (specs.DisableOOMKiller res) as [[|]|]; simpl;
    intros H; repeat (apply elem_of_cons in H as [->|H]; [simpl; set_solver|]);
    apply elem_of_nil in H; contradiction.
Qed.

Lemma write_run_files perm calls evs r f d p res0 :
  write_run perm calls evs r ->
  EvWriteFile f d p res0 ∈ evs -> (f, d) ∈ calls.
Proof.
  intros Hrun Hin. pose proof (write_run_only_writes _ _ _ _ Hrun) as H.
  rewrite Forall_forall in H. destruct (H _ Hin) as (f' & d' & res' & Heq & Hc).
  injection Heq as -> -> _ _. exact Hc.
Qed.

Lemma provided_call_file m path res mem f d :
  (f, d) ∈ map (knob_call m path) (provided_knobs res mem) ->
  exists name, name ∈ knob_names /\ f = knob_file m path name.
Proof.
  intros H. apply list_elem_of_fmap in H as ([name v] & Heq & Hin).
  injection Heq as -> ->. exists name. split; [|reflexivity].
  exact (provided_knobs_names res mem _ Hin).
Qed.

(** Property X9.  Whatever the resources, every file [Update] or [Create]
    writes is one of the six limit files of the cgroup's directory. *)
Theorem Update_and_Create_write_only_limit_files :
  forall m path res (w : World E) f d p r,
    (EvWriteFile f d p r ∈ log (Update E m path (Some res) w).2 ->
     EvWriteFile f d p r ∈ log w
     \/ exists name, name ∈ knob_names /\ f = knob_file m path name)
    /\ (EvWriteFile f d p r ∈ log (Create E m path (Some res) w).2 ->
        EvWriteFile f d p r ∈ log w
        \/ exists name, name ∈ knob_names /\ f = knob_file m path name).
Proof.
  intros m path res w f d p r. split.
  - destruct (specs.Memory res) as [mem|] eqn:Hmem.
    2: { unfold Update. rewrite Hmem. simpl. auto. }
    destruct (Update_shape E m path res mem w Hmem) as (pre & evs & r' & _ & Hlog & _ & H).
    rewrite Hlog. intros Hin.
    apply elem_of_app in Hin as [Hin|Hin]; [left; exact Hin|right].
    apply elem_of_app in Hin as [Hin|Hin].
    + exfalso. destruct (positive (specs.Limit mem) && positive (specs.Swap mem)).
      * destruct (readUint_result E _ (kern w)); destruct H as (-> & _);
          apply list_elem_of_singleton in Hin; discriminate.
      * destruct H as (-> & _). apply elem_of_nil in Hin. exact Hin.
    + destruct (positive (specs.Limit mem) && positive (specs.Swap mem)).
      * destruct (readUint_result E _ (kern w)).
        -- destruct H as (_ & -> & _). apply elem_of_nil in Hin. contradiction.
        -- destruct H as (_ & calls & Hperm & Hrun).
           pose proof (write_run_files _ _ _ _ _ _ _ _ Hrun Hin) as Hc.
           rewrite Hperm in Hc. exact (provided_call_file m path res mem f d Hc).
      * destruct H as (_ & Hrun).
        exact (provided_call_file m path res mem f d
                 (write_run_files _ _ _ _ _ _ _ _ Hrun Hin)).
  - destruct (Create_shape E m path res w) as (evs & r' & _ & Hlog & _ & H).
    rewrite Hlog. intros Hin.
    apply elem_of_app in Hin as [Hin|Hin]; [left; exact Hin|right].
    apply elem_of_cons in Hin as [Heq|Hin]; [discriminate|].
    destruct (sys_mkdirall E (Path m path) (defaultDirPerm E) (kern w)).1 as [e|].
    { destruct H as [_ ->]. apply elem_of_nil in Hin. contradiction. }
    destruct (specs.Memory res) as [mem|].
    2: { destruct H as [_ ->]. apply elem_of_nil in Hin. contradiction. }
    destruct H as (probes & rest & rp & -> & Hp & H).
    assert (Hprobe : EvWriteFile f d p r ∈ probes ->
              exists name, name ∈ knob_names /\ f = knob_file m path name).
    { intros Hin'. pose proof (write_run_files _ _ _ _ _ _ _ _ Hp Hin') as Hc.
      exists "kmem.limit_in_bytes". split; [unfold knob_names; do 2 right; left|].
      unfold probes_of in Hc. destruct (specs.Kernel mem).
      - apply elem_of_cons in Hc as [Hc|Hc]; [injection Hc as -> _; reflexivity|].
        apply elem_of_cons in Hc as [Hc|Hc]; [injection Hc as -> _; reflexivity|].
        apply elem_of_nil in Hc. contradiction.
      - apply elem_of_nil in Hc. contradiction. }
    apply elem_of_app in Hin as [Hin|Hin]; [exact (Hprobe Hin)|].
    destruct rp as [e|].
    + destruct H as [-> _]. apply elem_of_nil in Hin. contradiction.
    + exact (provided_call_file m path res mem f d
               (write_run_files _ _ _ _ _ _ _ _ H Hin)).
Qed.

(** The [Reservation] field takes no part in either call. *)
Remark Reservation_is_ignored :
  forall m path d l r1 r2 s k kt sw (w : World E),
    let res r := Some {| specs.DisableOOMKiller := d;
                         specs.Memory :=
                           Some {| specs.Limit := l; specs.Reservation := r;
                                   specs.Swap := s; specs.Kernel := k;
                                   specs.KernelTCP := kt; specs.Swappiness := sw |} |} in
    Update E m path (res r1) w = Update E m path (res r2) w
    /\ Create E m path (res r1) w = Create E m path (res r2) w.
Proof. intros. split; reflexivity. Qed.

End FilesWritten.

(** ** Statistics: [Stat], [parseStats] *)

Section StatMore.
Context (E : Env).

Lemma scan_loop_last key lines : forall out raw,
  scan_loop E lines out = inr raw ->
  raw !! key = match last_value E key lines with
               | Some v => Some v
               | None => out !! key
               end.
Proof.
  induction lines as [|[text scerr] rest IH]; intros out raw H; simpl in H |- *.
  - injection H as <-. reflexivity.
  - destruct scerr as [e|]; [discriminate|].
    destruct (parseKV E text) as [e|[k v]]; [discriminate|].
    rewrite (IH _ _ H).
    destruct (last_value E key rest) as [v'|]; [reflexivity|].
    destruct (String.eqb_spec k key) as [->|Hne].
    + apply lookup_insert_eq.
    + apply lookup_insert_ne. exact Hne.
Qed.

Lemma reads_until_error_app k l1 l2 :
  reads_until_error E k (l1 ++ l2)
  = match first_read_error E k l1 with
    | Some _ => reads_until_error E k l1
    | None => (reads_until_error E k l1 ++ reads_until_error E k l2)%list
    end.
Proof.
  induction l1 as [|f rest IH]; simpl; [reflexivity|].
  destruct (readUint_result E f k) as [e|v]; [reflexivity|].
  rewrite IH. destruct (first_read_error E k rest); reflexivity.
Qed.

Lemma first_read_error_app k l1 l2 :
  first_read_error E k (l1 ++ l2)
  = match first_read_error E k l1 with
    | Some e => Some e
    | None => first_read_error E k l2
    end.
Proof.
  induction l1 as [|f rest IH]; simpl; [reflexivity|].
  destruct (readUint_result E f k) as [e|v]; [reflexivity|]. exact IH.
Qed.

Lemma first_read_error_None k l :
  first_read_error E k l = None <-> forall f, f ∈ l -> exists v, readUint_result E f k = inr v.
Proof.
  induction l as [|f rest IH]; simpl.
  - split; [|reflexivity]. intros _ f H. apply elem_of_nil in H. contradiction.
  - destruct (readUint_result E f k) as [e|v] eqn:Hr.
    + split; [discriminate|]. intros H. destruct (H f) as [v Hv]; [left|]. congruence.
    + rewrite IH. split.
      * intros H f' Hin. apply elem_of_cons in Hin as [->|Hin]; eauto.
      * intros H f' Hin. apply H. right. exact Hin.
Qed.

Lemma leaked_reads k files : forall open,
  fold_left track (reads_until_error E k files) open = open.
Proof.
  induction files as [|f rest IH]; intros open; simpl; [reflexivity|].
  destruct (readUint_result E f k); simpl; [reflexivity | apply IH].
Qed.

Lemma stat_fields_reads m path t tts : forall mem (w : World E),
  let files := map (fun tt' => filepath.Join [Path m path; usage_file t tt']) tts in
  log (stat_fields E m path t tts mem w).2 = (log w ++ reads_until_error E (kern w) files)%list
  /\ (stat_fields E m path t tts mem w).1.1 = first_read_error E (kern w) files.
Proof.
  induction tts as [|tt' rest IH]; intros mem w; simpl.
  - rewrite app_nil_r. split; reflexivity.
  - unfold bind, readUint, ret, record. cbv beta.
    destruct (readUint_result E _ (kern w)) as [e|v] eqn:Hr.
    + split; reflexivity.
    + match goal with |- context [stat_fields E m path t rest ?mem1 ?w1] =>
        destruct (IH mem1 w1) as [Hl He] end.
      cbn [kern log] in Hl, He. rewrite Hl, He, <- app_assoc. split; reflexivity.
Qed.

Lemma stat_classes_reads m path ts : forall mem (w : World E),
  (forall t, t ∈ ts -> t ∈ usage_classes) ->
  let files := map (fun f => filepath.Join [Path m path; f])
                 (flat_map (fun t => map (usage_file t) usage_fields) ts) in
  log (stat_classes E m path ts mem w).2 = (log w ++ reads_until_error E (kern w) files)%list
  /\ (stat_classes E m path ts mem w).1.1 = first_read_error E (kern w) files.
Proof.
  induction ts as [|t rest IH]; intros mem w Hts.
  - simpl. rewrite app_nil_r. split; reflexivity.
  - cbn [stat_classes flat_map]. unfold bind. rewrite map_app, map_map.
    rewrite reads_until_error_app, first_read_error_app.
    destruct (stat_fields_reads m path t usage_fields mem w) as [Hl He].
    pose proof (stat_fields_run E m path t (Hts t ltac:(left)) usage_fields mem w) as Hrun.
    destruct (stat_fields E m path t usage_fields mem w) as [[err mem1] w1].
    destruct Hrun as (Hk1 & _). cbn [fst snd] in Hl, He. rewrite <- He.
    destruct err as [e|].
    + unfold ret. cbv beta iota. cbn [fst snd]. rewrite Hl. split; reflexivity.
    + cbv beta iota.
      destruct (IH mem1 w1 (fun t' Hin => Hts t' ltac:(right; exact Hin))) as [Hl2 He2].
      rewrite Hl2, He2, Hl, Hk1, <- app_assoc. split; reflexivity.
Qed.

(** The values a pass over the four classes leaves in the snapshot are the
    ones read. *)
Lemma stat_classes_values m path mem (w : World E) :
  (stat_classes E m path usage_classes mem w).1.1 = None ->
  Forall (fun fp => readUint_result E (filepath.Join [Path m path; fp.1]) (kern w)
                    = inr (fp.2 (stat_classes E m path usage_classes mem w).1.2))
         usage_table.
Proof.
  destruct mem.
  cbv -[filepath.Join Path readUint_result kern].
  repeat match goal with
  | |- context [readUint_result E ?f (kern w)] =>
      destruct (readUint_result E f (kern w)) eqn:?; cbn [kern];
      [intros Hbad; discriminate Hbad|]
  end.
  intros _. repeat constructor; assumption.
Qed.

Lemma parseStats_calls m path (w : World E) :
  let sf := stat_file m path in
  let fd := fresh (dom (fdt w)) in
  match sys_open E sf O_RDONLY (kern w) (fdt w) with
  | Some e =>
      log (parseStats E m path w).2
      = (log w ++ [EvOpenFile sf O_RDONLY (inl (PathError "open" sf (ErrnoError e)))])%list
  | None =>
      log (parseStats E m path w).2
      = (log w ++ [EvOpenFile sf O_RDONLY (inr fd); EvClose fd None])%list
  end.
Proof.
  intros sf fd. unfold parseStats, defer, os_Open, os_OpenFile, bufio_scan, File_Close,
    bind, ret, record. cbv beta. fold (stat_file m path). fold sf.
  destruct (sys_open E sf O_RDONLY (kern w) (fdt w)) as [e|].
  - reflexivity.
  - cbn [kern fdt log Fd File_name snd]. fold fd. rewrite lookup_insert_eq, <- app_assoc.
    reflexivity.
Qed.

(** [Stat], call by call. *)
Lemma Stat_run m path stats (w : World E) :
  let sf := stat_file m path in
  let files := map (fun f => filepath.Join [Path m path; f]) usage_files in
  let fd := fresh (dom (fdt w)) in
  let out := Stat E m path stats w in
  kern out.2 = kern w /\ fdt out.2 = fdt w
  /\ match (parseStats E m path w).1 with
     | inl e =>
         out.1 = (Some e, stats)
         /\ (log out.2 = (log w ++ [EvOpenFile sf O_RDONLY (inl e)])%list
             \/ log out.2 = (log w ++ [EvOpenFile sf O_RDONLY (inr fd); EvClose fd None])%list)
     | inr raw =>
         scan_loop E (sys_scan E sf (kern w)) ∅ = inr raw
         /\ out.1.1 = first_read_error E (kern w) files
         /\ log out.2
            = (log w ++ [EvOpenFile sf O_RDONLY (inr fd); EvClose fd None]
                 ++ reads_until_error E (kern w) files)%list
         /\ exists mem',
              Stats.Memory out.1.2 = Some mem'
              /\ Forall (fun kp => kp.2 mem' = index raw kp.1) named_fields
              /\ (out.1.1 = None ->
                  Forall (fun fp => readUint_result E (filepath.Join [Path m path; fp.1]) (kern w)
                                    = inr (fp.2 mem')) usage_table)
     end.
Proof.
  intros sf files fd out. subst out. unfold Stat, bind.
  pose proof (parseStats_run E m path w) as Hp. cbv zeta in Hp.
  pose proof (parseStats_calls m path w) as Hc. cbv zeta in Hc.
  fold sf fd in Hp, Hc.
  destruct (parseStats E m path w) as [r w1]. destruct Hp as (Hk & Hf & Hr).
  cbn [fst snd] in Hc |- *.
  destruct (sys_open E sf O_RDONLY (kern w) (fdt w)) as [e|] eqn:Hopen.
  { subst r. unfold ret. cbn [fst snd]. auto. }
  destruct r as [err|raw].
  { unfold ret. cbn [fst snd]. auto. }
  pose proof (stat_classes_run E m path usage_classes (fun t H => H)
                (named_counters raw) w1) as Hrun.
  destruct (stat_classes_reads m path usage_classes (named_counters raw) w1 (fun t H => H))
    as [Hl He].
  pose proof (stat_classes_values m path (named_counters raw) w1) as Hv.
  destruct (stat_classes E m path usage_classes (named_counters raw) w1)
    as [[err mem'] w2].
  destruct Hrun as (Hk2 & Hf2 & Hn & _).
  rewrite usage_files_read in Hl, He. fold files in Hl, He.
  unfold ret. cbn [fst snd] in *.
  split; [congruence|]. split; [congruence|]. split; [auto|].
  split; [rewrite He, Hk; reflexivity|].
  split; [rewrite Hl, Hc, Hk, <- app_assoc; reflexivity|].
  exists mem'. split; [reflexivity|]. split.
  - pose proof (named_counters_index raw) as Hidx.
    rewrite Forall_forall in Hn, Hidx |- *. intros kp Hin.
    rewrite (Hn kp Hin). apply Hidx, Hin.
  - intros Hnone. rewrite <- Hk. apply Hv, Hnone.
Qed.

End StatMore.

Section StatExtras.
Context (E : Env).

(** Property X10.  Once [memory.stat] has been opened and parsed, [Stat] has
    closed it before it reads the usage files; it reads them in the order of
    the two tables and stops at the first that cannot be read, whose error it
    returns. *)
Theorem Stat_reads_usage_files_until_first_error :
  forall m path stats (w : World E) raw,
    (parseStats E m path w).1 = inr raw ->
    let files := map (fun f => filepath.Join [Path m path; f]) usage_files in
    let fd := fresh (dom (fdt w)) in
    (Stat E m path stats w).1.1 = first_read_error E (kern w) files
    /\ log (Stat E m path stats w).2
       = (log w ++ [EvOpenFile (stat_file m path) O_RDONLY (inr fd); EvClose fd None]
            ++ reads_until_error E (kern w) files)%list.
Proof.
  intros m path stats w raw Hp files fd.
  pose proof (Stat_run E m path stats w) as H. cbv zeta in H.
  rewrite Hp in H. destruct H as (_ & _ & _ & He & Hl & _). auto.
Qed.

(** Property X11.  When [memory.stat] cannot be opened or parsed, [Stat]
    returns that error, reads no usage file, and leaves the caller's snapshot
    as it was. *)
Theorem Stat_parse_failure_leaves_stats :
  forall m path stats (w : World E) err,
    (parseStats E m path w).1 = inl err ->
    (Stat E m path stats w).1 = (Some err, stats)
    /\ exists evs,
         log (Stat E m path stats w).2 = (log w ++ evs)%list
         /\ forall f r, EvReadUint f r ∉ evs.
Proof.
  intros m path stats w err Hp.
  pose proof (Stat_run E m path stats w) as H. cbv zeta in H.
  rewrite Hp in H. destruct H as (_ & _ & Hr & [Hl|Hl]); (split; [exact Hr|]);
    eexists; (split; [exact Hl|]); intros f r Hin;
    repeat (apply elem_of_cons in Hin as [Hin|Hin]; [discriminate|]);
    apply elem_of_nil in Hin; contradiction.
Qed.

(** Property X12.  [Stat] changes neither the kernel state nor the descriptor
    table: [memory.stat] is closed again on every path, also when a line does
    not parse or a usage file cannot be read. *)
Theorem Stat_leaves_no_descriptor :
  forall m path stats (w : World E),
    kern (Stat E m path stats w).2 = kern w
    /\ fdt (Stat E m path stats w).2 = fdt w
    /\ exists evs,
         log (Stat E m path stats w).2 = (log w ++ evs)%list
         /\ leaked evs = [].
Proof.
  intros m path stats w.
  pose proof (Stat_run E m path stats w) as H. cbv zeta in H.
  destruct H as (Hk & Hf & H). split; [exact Hk|]. split; [exact Hf|].
  assert (Hoc : forall fd rest,
    leaked ([EvOpenFile (stat_file m path) O_RDONLY (inr fd); EvClose fd None] ++ rest)
    = leaked rest).
  { intros fd rest. unfold leaked. simpl. rewrite filter_cons, filter_nil.
    case_decide; [contradiction | reflexivity]. }
  destruct ((parseStats E m path w).1) as [e|raw].
  - destruct H as (_ & [Hl|Hl]); eexists; (split; [exact Hl|]).
    + reflexivity.
    + rewrite <- (app_nil_r [_; _]). rewrite Hoc. reflexivity.
  - destruct H as (_ & _ & Hl & _). eexists. split; [exact Hl|].
    rewrite Hoc. apply (leaked_reads E).
Qed.

(** Property X13.  Once [memory.stat] has been parsed, the snapshot [Stat]
    stores holds in each named counter the value of the last line carrying its
    key among the lines the scanner yielded, and zero when none of them does;
    this holds also when a usage file then fails.  Lines the scanner did not
    yield do not count. *)
Theorem Stat_named_counters_last_line_wins :
  forall m path stats (w : World E) raw,
    (parseStats E m path w).1 = inr raw ->
    exists mem',
      Stats.Memory (Stat E m path stats w).1.2 = Some mem'
      /\ forall key proj,
           (key, proj) ∈ named_fields ->
           proj mem'
           = default 0%N (last_value E key (sys_scan E (stat_file m path) (kern w))).
Proof.
  intros m path stats w raw Hp.
  pose proof (Stat_run E m path stats w) as H. cbv zeta in H.
  rewrite Hp in H. destruct H as (_ & _ & Hscan & _ & _ & mem' & Hm & Hn & _).
  exists mem'. split; [exact Hm|]. intros key proj Hin.
  rewrite Forall_forall in Hn. pose proof (Hn (key, proj) Hin) as Hv.
  cbn [fst snd] in Hv. rewrite Hv. unfold index.
  rewrite (scan_loop_last E key _ _ _ Hscan), lookup_empty.
  destruct (last_value E key _); reflexivity.
Qed.

(** Property X14.  After a successful [Stat] each of the sixteen usage fields
    holds the value read from its own file: [Usage], [Max], [Failcnt] and
    [Limit] of the plain, memsw, kmem and kmem.tcp classes. *)
Theorem Stat_usage_fields_hold_what_was_read :
  forall m path stats (w : World E),
    (Stat E m path stats w).1.1 = None ->
    exists mem',
      Stats.Memory (Stat E m path stats w).1.2 = Some mem'
      /\ forall file proj,
           (file, proj) ∈ usage_table ->
           readUint_result E (filepath.Join [Path m path; file]) (kern w)
           = inr (proj mem').
Proof.
  intros m path stats w Hok.
  pose proof (Stat_run E m path stats w) as H. cbv zeta in H.
  destruct ((parseStats E m path w).1) as [e|raw].
  - destruct H as (_ & _ & Hr & _). rewrite Hr in Hok. discriminate.
  - destruct H as (_ & _ & _ & _ & _ & mem' & Hm & _ & Hv).
    exists mem'. split; [exact Hm|]. intros file proj Hin.
    specialize (Hv Hok). rewrite Forall_forall in Hv. exact (Hv (file, proj) Hin).
Qed.

End StatExtras.

(** ** OOM events and [checkEBUSY] *)

Section OOMExtras.
Context (E : Env).

(** Property X15.  [writeEventFD] leaves the descriptor table as it found it:
    the control file is closed whether or not the write succeeded, and the
    result of the close is dropped.  The error returned is that of the open or
    of the write; the line written starts with the event descriptor, the third
    argument. *)
Theorem writeEventFD_closes_the_control_file :
  forall root cfd efd (w : World E),
    let f := filepath.Join [root; "cgroup.event_control"] in
    let line := FormatUint efd +:+ " " +:+ FormatUint cfd in
    let out := writeEventFD E root cfd efd w in
    fdt out.2 = fdt w
    /\ exists evs,
         log out.2 = (log w ++ evs)%list
         /\ leaked evs = []
         /\ match sys_open E f O_WRONLY (kern w) (fdt w) with
            | Some e =>
                out.1 = Some (PathError "open" f (ErrnoError e))
                /\ kern out.2 = kern w
                /\ evs = [EvOpenFile f O_WRONLY (inl (PathError "open" f (ErrnoError e)))]
            | None =>
                out.1 = (sys_write E f line (kern w)).1
                /\ kern out.2 = (sys_write E f line (kern w)).2
                /\ exists fd,
                     fdt w !! fd = None
                     /\ evs = [EvOpenFile f O_WRONLY (inr fd);
                               EvWriteString fd line out.1;
                               EvClose fd None]
            end.
Proof.
  intros root cfd efd w f line out. subst out.
  unfold writeEventFD, os_OpenFile, File_WriteString, File_Close, bind, ret, record.
  cbv beta. fold f. change (Sprintf_d_d efd cfd) with line.
  destruct (sys_open E f O_WRONLY (kern w) (fdt w)) as [e|].
  - cbn [fst snd kern fdt log]. split; [reflexivity|].
    eexists. split; [reflexivity|]. repeat split.
  - cbn [kern fdt log Fd File_name].
    destruct (sys_write E f line (kern w)) as [r k].
    cbn [fst snd kern fdt log Fd File_name].
    rewrite lookup_insert_eq.
    split; [apply delete_insert_id, fresh_None|].
    eexists. split; [rewrite <- !app_assoc; reflexivity|]. split.
    + unfold leaked. simpl. rewrite filter_cons, filter_nil.
      case_decide; [contradiction | reflexivity].
    + split; [reflexivity|]. split; [reflexivity|].
      exists (fresh (dom (fdt w))). split; [apply fresh_None | reflexivity].
Qed.

Lemma OOMEventFD_success m path (w : World E) fd :
  (OOMEventFD E m path w).1 = (fd, None) ->
  fdt w !! fd = None
  /\ fdt (OOMEventFD E m path w).2 = <[fd := FdEvent]> (fdt w).
Proof.
  intros Hok.
  pose proof (OOMEventFD_paths E m path w) as H. cbv zeta in H.
  destruct (OOMEventFD E m path w) as [[fd' err] w']. simpl in Hok |- *.
  injection Hok as -> ->.
  destruct H as (evs & Hlog & [H|[H|[H|[H|H]]]]).
  - destruct H as (e & He & _). discriminate.
  - destruct H as (e & _ & He & _). discriminate.
  - destruct H as (e & He & _). discriminate.
  - destruct H as (e & He & _). discriminate.
  - destruct H as (_ & -> & Hn & Hf & _). split; assumption.
Qed.

(** Property X16.  Two successful registrations in a row return two different
    descriptors, and both are open afterwards. *)
Theorem OOMEventFD_twice_gives_distinct_descriptors :
  forall m p1 p2 (w : World E) fd1 fd2,
    (OOMEventFD E m p1 w).1 = (fd1, None) ->
    (OOMEventFD E m p2 (OOMEventFD E m p1 w).2).1 = (fd2, None) ->
    fd1 <> fd2
    /\ fdt (OOMEventFD E m p2 (OOMEventFD E m p1 w).2).2
       = <[fd2 := FdEvent]> (<[fd1 := FdEvent]> (fdt w)).
Proof.
  intros m p1 p2 w fd1 fd2 H1 H2.
  destruct (OOMEventFD_success m p1 w fd1 H1) as [Hn1 Hf1].
  destruct (OOMEventFD_success m p2 _ fd2 H2) as [Hn2 Hf2].
  rewrite Hf1 in Hn2, Hf2. split; [|exact Hf2].
  intros ->. rewrite lookup_insert_eq in Hn2. discriminate.
Qed.

(** Property X17.  Leaving aside the closing of descriptors, whose result
    the code drops: [OOMEventFD] returns nil exactly when every call it made
    succeeded; otherwise it returns the error of the one call that failed, no
    descriptor was closed before that call, and everything done after it is
    closing descriptors. *)
Theorem OOMEventFD_reports_the_failing_call :
  forall m path (w : World E),
    exists evs,
      log (OOMEventFD E m path w).2 = (log w ++ evs)%list
      /\ match (OOMEventFD E m path w).1.2 with
         | None => Forall (fun ev => is_close ev \/ succeeded ev) evs
         | Some e =>
             exists before last after,
               evs = (before ++ last :: after)%list
               /\ Forall (fun ev => succeeded ev /\ ~ is_close ev) before
               /\ failed_with e last
               /\ Forall is_close after
         end.
Proof.
  intros m path w.
  pose proof (OOMEventFD_paths E m path w) as H. cbv zeta in H.
  destruct (OOMEventFD E m path w) as [[fd err] w']. cbn [fst snd].
  destruct H as (evs & Hlog & H). exists evs. split; [exact Hlog|].
  assert (Hopen : forall f flag x,
            succeeded (EvOpenFile f flag (inr x)) /\ ~ is_close (EvOpenFile f flag (inr x))).
  { intros f flag x. split; [simpl; eauto|]. intros (? & ? & Hc). discriminate. }
  assert (Hev : forall a b x,
            succeeded (EvEventfd2 a b (x, 0%N)) /\ ~ is_close (EvEventfd2 a b (x, 0%N))).
  { intros a b x. split; [reflexivity|]. intros (? & ? & Hc). discriminate. }
  assert (Hcl : forall x r, is_close (EvClose x r)) by (intros x r; exists x, r; reflexivity).
  destruct H as [H|[H|[H|[H|H]]]].
  - destruct H as (e & -> & _ & _ & _ & ->).
    exists [], (EvOpenFile (filepath.Join [Path m path; "memory.oom_control"]) O_RDONLY (inl e)), [].
    repeat split; constructor.
  - destruct H as (errno & Hne & -> & _ & _ & _ & ->).
    eexists [_], _, [_]. split; [reflexivity|]. split; [|split].
    + constructor; [apply Hopen | constructor].
    + simpl. split; [exact Hne | reflexivity].
    + constructor; [apply Hcl | constructor].
  - destruct H as (e & -> & _ & _ & _ & ->).
    eexists [_; _], _, [_; _]. split; [reflexivity|]. split; [|split].
    + constructor; [apply Hopen|]. constructor; [apply Hev | constructor].
    + reflexivity.
    + constructor; [apply Hcl|]. constructor; [apply Hcl | constructor].
  - destruct H as (e & -> & _ & _ & ->).
    eexists [_; _; _], _, [_; _; _]. split; [reflexivity|]. split; [|split].
    + constructor; [apply Hopen|]. constructor; [apply Hev|].
      constructor; [apply Hopen | constructor].
    + reflexivity.
    + constructor; [apply Hcl|]. constructor; [apply Hcl|].
      constructor; [apply Hcl | constructor].
  - destruct H as (-> & _ & _ & _ & ->).
    constructor; [right; apply Hopen|]. constructor; [right; apply Hev|].
    constructor; [right; apply Hopen|]. constructor; [right; reflexivity|].
    constructor; [left; apply Hcl|]. constructor; [left; apply Hcl | constructor].
Qed.

End OOMExtras.

Section CheckEBUSY.

(** Property X18.  [checkEBUSY] changes an error exactly when it is a path
    error whose inner error is the errno EBUSY itself; a bare EBUSY, another
    errno and a doubly wrapped EBUSY pass unchanged; the result is the
    argument or the descriptive error, and a second application changes
    nothing. *)
Theorem checkEBUSY_translates_only_wrapped_EBUSY :
  forall err,
    (checkEBUSY err <> err <-> exists op p, err = PathError op p (ErrnoError EBUSY))
    /\ (checkEBUSY err = err \/ checkEBUSY err = kmem_busy_error)
    /\ checkEBUSY (checkEBUSY err) = checkEBUSY err.
Proof.
  intros err. destruct err as [op p inner|e|s].
  - destruct inner as [op' p' inner'|e|s].
    + simpl. split; [|auto]. split; [congruence|]. intros (? & ? & H). discriminate.
    + simpl. destruct (N.eqb_spec e EBUSY) as [->|Hne].
      * split; [|split; [right|]; reflexivity].
        split; [eauto|]. intros _. discriminate.
      * assert (Hid : checkEBUSY (PathError op p (ErrnoError e)) = PathError op p (ErrnoError e))
          by (simpl; rewrite (proj2 (N.eqb_neq e EBUSY) Hne); reflexivity).
        split; [|split; [left; reflexivity | exact Hid]].
        split; [congruence|]. intros (? & ? & H). injection H as _ _ ->. contradiction.
    + simpl. split; [|auto]. split; [congruence|]. intros (? & ? & H). discriminate.
  - simpl. split; [|auto]. split; [congruence|]. intros (? & ? & H). discriminate.
  - simpl. split; [|auto]. split; [congruence|]. intros (? & ? & H). discriminate.
Qed.

End CheckEBUSY.

(** ** The collector: [Collect], [Add], [New], [Describe], [blkioValues] *)

Section CollectMore.

Context {Cgroup Stats Namespace Sample metric : Type}.
Context (Cgroup_Stat : Cgroup -> error + Stats).
Context (metric_collect : metric -> string -> Stats -> Namespace -> list Sample).

Abbreviation Collector := (@Collector Cgroup Namespace metric).
Abbreviation machine := (@machine Cgroup Stats Sample metric).
Abbreviation reachable := (reachable Cgroup_Stat metric_collect).
Abbreviation inv := (inv Cgroup_Stat metric_collect).

Implicit Types (c : Collector) (s : machine) (order : list (string * Cgroup)).

Lemma order_of_registry c order :
  Permutation order (map_to_list (cgroups c)) ->
  NoDup (map fst order)
  /\ forall id cg, (id, cg) ∈ order <-> cgroups c !! id = Some cg.
Proof.
  intros Hperm. split.
  - rewrite Hperm. apply NoDup_fst_map_to_list.
  - intros id cg. rewrite Hperm. apply elem_of_map_to_list.
Qed.

(** What the shared state holds for a cgroup at any moment of a run. *)
Lemma running_cgroup c order s id cg :
  NoDup (map fst order) -> inv c order s -> (id, cg) ∈ order ->
  match Cgroup_Stat cg with
  | inl err =>
      sent_by id (ch s) = []
      /\ (logged_for id (logged s) = [] \/ logged_for id (logged s) = [err])
  | inr stats =>
      sent_by id (ch s) `prefix_of` expected metric_collect c id stats
      /\ logged_for id (logged s) = []
  end.
Proof.
  intros Hnd Hinv Hin.
  destruct (inv_pool_NoDup Cgroup_Stat metric_collect c order s Hnd Hinv) as [_ Hfresh].
  destruct Hinv as [Hord _ _ Hpool Hch Hlog _].
  assert (Hid : id ∈ map fst order).
  { apply list_elem_of_fmap. exists (id, cg). split; [reflexivity | exact Hin]. }
  rewrite <- Hord in Hid. apply elem_of_app in Hid as [Hid|Hid].
  - apply list_elem_of_fmap in Hid as (g & Hg & Hgin).
    rewrite Forall_forall in Hpool. pose proof (Hpool g Hgin) as Hok.
    rewrite <- Hg in Hok.
    assert (Hsame : forall cg', (id, cg') ∈ order -> cg' = cg).
    { intros cg' Hin'. exact (NoDup_fst_functional order id cg' cg Hnd Hin' Hin). }
    destruct g as [id' cg'|id' err|id' stats pending ms|id'|id']; simpl in Hg, Hok; subst id'.
    + destruct Hok as (_ & -> & ->).
      destruct (Cgroup_Stat cg); split; auto. apply prefix_nil.
    + destruct Hok as ((cg' & Hin' & Hst) & -> & ->).
      rewrite (Hsame cg' Hin') in Hst. rewrite Hst. auto.
    + destruct Hok as ((cg' & Hin' & Hst) & Heq & ->).
      rewrite (Hsame cg' Hin') in Hst. rewrite Hst. split; [|reflexivity].
      rewrite <- Heq. apply prefix_app_r. reflexivity.
    + destruct Hok as (cg' & Hin' & Hfin). rewrite (Hsame cg' Hin') in Hfin.
      destruct (Cgroup_Stat cg); destruct Hfin as [-> ->]; auto.
    + destruct Hok as (cg' & Hin' & Hfin). rewrite (Hsame cg' Hin') in Hfin.
      destruct (Cgroup_Stat cg); destruct Hfin as [-> ->]; auto.
  - pose proof (Hfresh id Hid) as Hnot.
    assert (Hs : sent_by id (ch s) = []).
    { apply sent_by_nil_iff. intros p Hp Heq. apply Hnot. rewrite <- Heq. exact (Hch p Hp). }
    assert (Hl : logged_for id (logged s) = []).
    { apply logged_for_nil_iff. intros p Hp Heq. apply Hnot. rewrite <- Heq.
      exact (Hlog p Hp). }
    rewrite Hs, Hl. destruct (Cgroup_Stat cg); split; auto. apply prefix_nil.
Qed.

(** Property X19.  Whatever cgroups fail, once [Collect] has returned each
    tracked cgroup has been exported in full or logged once, according to its
    own [Stat] alone; the channel holds samples of healthy tracked cgroups
    only and the log holds only errors of tracked cgroups, each with its own. *)
Theorem Collect_treats_each_cgroup_on_its_own :
  forall c order s,
    Permutation order (map_to_list (cgroups c)) ->
    reachable c order s ->
    pc s = PReturned ->
    (forall id cg, cgroups c !! id = Some cg ->
       match Cgroup_Stat cg with
       | inl err => sent_by id (ch s) = [] /\ logged_for id (logged s) = [err]
       | inr stats =>
           sent_by id (ch s) = expected metric_collect c id stats
           /\ logged_for id (logged s) = []
       end)
    /\ (forall p, p ∈ ch s ->
          exists cg stats, cgroups c !! p.1 = Some cg /\ Cgroup_Stat cg = inr stats)
    /\ (forall p, p ∈ logged s ->
          exists cg, cgroups c !! p.1 = Some cg /\ Cgroup_Stat cg = inl p.2).
Proof.
  intros c order s Hperm Hs Hpc.
  destruct (order_of_registry c order Hperm) as [Hnd Hmem].
  pose proof (inv_reachable Cgroup_Stat metric_collect c order s Hnd Hs) as Hinv.
  pose proof (fun id cg H =>
    returned_cgroup Cgroup_Stat metric_collect c order s id cg Hnd Hinv Hpc
      (proj2 (Hmem id cg) H)) as Hret.
  destruct Hinv as [Hord _ _ _ Hch Hlog _].
  rewrite Hpc in Hord. simpl in Hord. rewrite app_nil_r in Hord.
  assert (Htracked : forall id, id ∈ map gid (pool s) -> exists cg, cgroups c !! id = Some cg).
  { intros id Hid. rewrite Hord in Hid.
    apply list_elem_of_fmap in Hid as ([id' cg] & -> & Hin). exists cg.
    apply Hmem. exact Hin. }
  split; [exact Hret|]. split.
  - intros p Hp. destruct (Htracked p.1 (Hch p Hp)) as [cg Hcg].
    exists cg. pose proof (Hret p.1 cg Hcg) as H.
    destruct (Cgroup_Stat cg) as [err|stats]; [|eauto].
    exfalso. destruct H as [Hnil _].
    exact (proj1 (sent_by_nil_iff p.1 (ch s)) Hnil p Hp eq_refl).
  - intros p Hp. destruct (Htracked p.1 (Hlog p Hp)) as [cg Hcg].
    exists cg. split; [exact Hcg|]. pose proof (Hret p.1 cg Hcg) as H.
    destruct (Cgroup_Stat cg) as [err|stats].
    + destruct H as [_ Hone]. f_equal.
      assert (Hin : p.2 ∈ logged_for p.1 (logged s)).
      { unfold logged_for. apply list_elem_of_fmap. exists p. split; [reflexivity|].
        apply list_elem_of_filter. split; [reflexivity | exact Hp]. }
      rewrite Hone in Hin. apply list_elem_of_singleton in Hin. congruence.
    + exfalso. destruct H as [_ Hnil].
      exact (proj1 (logged_for_nil_iff p.1 (logged s)) Hnil p Hp eq_refl).
Qed.

(** Property X20.  At every moment of every run of [Collect], nothing has been
    sent for a cgroup whose [Stat] fails, and what has been sent for a healthy
    one is an initial part of its samples in table order. *)
Theorem Collect_sends_in_table_order_throughout :
  forall c order s id cg,
    Permutation order (map_to_list (cgroups c)) ->
    reachable c order s ->
    cgroups c !! id = Some cg ->
    match Cgroup_Stat cg with
    | inl err =>
        sent_by id (ch s) = []
        /\ (logged_for id (logged s) = [] \/ logged_for id (logged s) = [err])
    | inr stats =>
        sent_by id (ch s) `prefix_of` expected metric_collect c id stats
        /\ logged_for id (logged s) = []
    end.
Proof.
  intros c order s id cg Hperm Hs Hcg.
  destruct (order_of_registry c order Hperm) as [Hnd Hmem].
  apply (running_cgroup c order s id cg Hnd).
  - exact (inv_reachable Cgroup_Stat metric_collect c order s Hnd Hs).
  - apply Hmem. exact Hcg.
Qed.

(** Property X21.  The WaitGroup counter never goes below zero: it is the
    number of goroutines that have not finished, plus the one announced by
    [wg.Add(1)] and not yet started; there are never more goroutines than
    tracked cgroups. *)
Theorem WaitGroup_counts_unfinished_goroutines :
  forall c order s,
    Permutation order (map_to_list (cgroups c)) ->
    reachable c order s ->
    (0 <= wg s)%Z
    /\ wg s = (Z.of_nat (live (pool s))
               + match pc s with PGo _ _ _ => 1 | _ => 0 end)%Z
    /\ (length (pool s) <= size (cgroups c))%nat.
Proof.
  intros c order s Hperm Hs.
  destruct (order_of_registry c order Hperm) as [Hnd _].
  destruct (inv_reachable Cgroup_Stat metric_collect c order s Hnd Hs)
    as [Hord _ Hwg _ _ _ _].
  split; [|split; [exact Hwg|]].
  - rewrite Hwg. destruct (pc s); lia.
  - rewrite <- (length_map_to_list (cgroups c)), <- Hperm.
    rewrite <- (length_map fst order), <- Hord, length_app, length_map. lia.
Qed.

(** Property X22.  [Collect] holds the read lock while it starts the
    goroutines and at no other time: it is released before [wg.Wait()]. *)
Theorem Collect_releases_the_lock_before_waiting :
  forall c order s,
    reachable c order s ->
    readers s = match pc s with
                | PRange _ | PGo _ _ _ | PRUnlock => 1%nat
                | PRLock | PWait | PReturned => 0%nat
                end.
Proof.
  intros c order s. induction 1 as [|s s' _ IH [t Hstep]]; [reflexivity|].
  destruct t as [|i]; simpl in Hstep.
  - unfold step_main in Hstep.
    destruct (pc s) as [|[|[id cg] rest]|id cg rest| | |];
      try (injection Hstep as <-); try discriminate; simpl; try congruence.
    + rewrite IH. reflexivity.
    + destruct (Z.eqb (wg s) 0); [|discriminate]. injection Hstep as <-. exact IH.
  - unfold step_goroutine in Hstep.
    destruct (pool s !! i) as [g|]; [|discriminate].
    destruct (goroutine_step Cgroup_Stat metric_collect c g) as [e|]; [|discriminate].
    injection Hstep as <-. exact IH.
Qed.

(** Property X23.  A cgroup accepted by [Add] is exported by the next
    [Collect]: once it has returned, the channel holds the samples of every
    descriptor for it. *)
Theorem Add_then_Collect_exports_the_new_cgroup :
  forall c id cg stats order s,
    cgroups c !! id = None ->
    Cgroup_Stat cg = inr stats ->
    Permutation order (map_to_list (cgroups (Add c id cg).2)) ->
    reachable (Add c id cg).2 order s ->
    pc s = PReturned ->
    (Add c id cg).1 = None
    /\ sent_by id (ch s) = expected metric_collect c id stats.
Proof.
  intros c id cg stats order s Hfresh Hst Hperm Hs Hpc.
  destruct (order_of_registry _ order Hperm) as [Hnd Hmem].
  pose proof (inv_reachable Cgroup_Stat metric_collect _ order s Hnd Hs) as Hinv.
  assert (Hin : (id, cg) ∈ order).
  { apply Hmem. unfold Add. rewrite Hfresh. simpl. apply lookup_insert_eq. }
  pose proof (returned_cgroup Cgroup_Stat metric_collect _ order s id cg Hnd Hinv Hpc Hin) as H.
  rewrite Hst in H. destruct H as [Hsent _].
  unfold Add in *. rewrite Hfresh in *. split; [reflexivity | exact Hsent].
Qed.

(** Property X24.  Registering a list of cgroups one after the other: an id
    already tracked keeps its cgroup, of two entries with the same id the
    first stands, the namespace and the descriptor table are untouched, and
    the registry grows by exactly one per accepted call. *)
Theorem add_all_first_registration_wins :
  forall c (l : list (string * Cgroup)),
    cgroups (add_all c l).2 = cgroups c ∪ list_to_map l
    /\ ns (add_all c l).2 = ns c
    /\ metrics (add_all c l).2 = metrics c
    /\ length (add_all c l).1 = length l
    /\ (size (cgroups (add_all c l).2)
        = size (cgroups c) + length (filter (fun r => r = None) (add_all c l).1))%nat.
Proof.
  intros c l. revert c. induction l as [|[id cg] rest IH]; intros c.
  - simpl. rewrite (right_id_L ∅ (∪) (cgroups c)). repeat split. lia.
  - cbn [add_all fst snd]. destruct (IH (Add c id cg).2) as (Hm & Hn & Hms & Hlen & Hsz).
    rewrite Hsz, Hm, Hn, Hms. cbn [length]. rewrite Hlen.
    rewrite list_to_map_cons, filter_cons. unfold Add.
    destruct (cgroups c !! id) as [old|] eqn:Hc; cbn [fst snd cgroups ns metrics].
    + rewrite decide_False by discriminate.
      repeat split.
      apply map_eq. intros k. rewrite !lookup_union.
      destruct (decide (k = id)) as [->|Hne].
      * rewrite Hc, lookup_insert_eq.
        destruct (cgroups c !! id); [|discriminate].
        destruct (list_to_map rest !! id); reflexivity.
      * rewrite lookup_insert_ne by congruence. reflexivity.
    + rewrite decide_True by reflexivity.
      repeat split.
      * rewrite <- insert_union_l. apply insert_union_r. exact Hc.
      * rewrite map_size_insert_None by exact Hc. simpl. lia.
Qed.

End CollectMore.

Section CollectSteps.

Context {Cgroup Stats Namespace Sample metric : Type}.
Context (Cgroup_Stat : Cgroup -> error + Stats).
Context (metric_collect : metric -> string -> Stats -> Namespace -> list Sample).

Abbreviation Collector := (@Collector Cgroup Namespace metric).
Abbreviation machine := (@machine Cgroup Stats Sample metric).
Abbreviation reachable := (reachable Cgroup_Stat metric_collect).
Abbreviation inv := (inv Cgroup_Stat metric_collect).
Abbreviation measure := (measure Cgroup_Stat metric_collect).
Abbreviation run_of := (run_of Cgroup_Stat metric_collect).

Implicit Types (c : Collector) (s : machine) (order : list (string * Cgroup)).

Lemma run_of_reachable c order s n s' :
  run_of c order s n s' -> reachable c order s -> reachable c order s'.
Proof.
  induction 1 as [|s s1 s2 n Hstep _ IH]; intros Hs; [exact Hs|].
  apply IH. eapply reach_step; eauto.
Qed.

Lemma run_of_measure c order s n s' :
  run_of c order s n s' -> (n + measure c order s' = measure c order s)%nat.
Proof.
  induction 1 as [|s s1 s2 n Hstep _ IH]; [reflexivity|].
  rewrite <- (step_measure Cgroup_Stat metric_collect c order s s1 Hstep). lia.
Qed.

Lemma measure_returned c order s :
  inv c order s -> (pc s = PReturned <-> measure c order s = 0%nat).
Proof.
  intros [_ _ Hwg _ _ _ Hret]. unfold measure. split.
  - intros Hpc. rewrite Hpc in Hwg |- *. rewrite (Hret Hpc) in Hwg. simpl.
    assert (Hex : Forall (fun g => exited g = true) (pool s)) by (apply live_zero; lia).
    clear Hwg. induction Hex as [|g l Hg _ IH]; [reflexivity|].
    simpl. rewrite IH. destruct g; try discriminate. reflexivity.
  - intros Hm. destruct (pc s); simpl in Hm; try reflexivity; unfold range_cost in Hm; lia.
Qed.

(** Property X25.  [Collect] cannot run forever: along every run the
    steps taken and the measure of the state reached add up to the measure of
    the initial state, so no run is longer than that, and a run has returned
    exactly when it has taken that many steps.  Whether a run gets that far
    is not said: it takes every [Stat] to return and every send to be
    received. *)
Theorem Collect_run_length_is_bounded :
  forall c order n s,
    Permutation order (map_to_list (cgroups c)) ->
    run_of c order Collect_init n s ->
    (n + measure c order s = measure c order Collect_init)%nat
    /\ (n <= measure c order Collect_init)%nat
    /\ (pc s = PReturned <-> n = measure c order Collect_init).
Proof.
  intros c order n s Hperm Hrun.
  destruct (order_of_registry c order Hperm) as [Hnd _].
  pose proof (run_of_measure c order _ n s Hrun) as Hm.
  assert (Hs : reachable c order s).
  { eapply run_of_reachable; [exact Hrun | apply reach_init]. }
  pose proof (inv_reachable Cgroup_Stat metric_collect c order s Hnd Hs) as Hinv.
  split; [exact Hm|]. split; [lia|].
  rewrite (measure_returned c order s Hinv). lia.
Qed.

End CollectSteps.

Lemma to_uint_nonnil (n : N) : N.to_uint n <> Decimal.Nil.
Proof.
  destruct n as [|p]; [discriminate|]. apply DecimalPos.Unsigned.to_uint_nonnil.
Qed.

Lemma FormatUint_inj a b : FormatUint a = FormatUint b -> a = b.
Proof.
  unfold FormatUint. intros H.
  apply DecimalN.Unsigned.to_uint_inj.
  apply (f_equal NilZero.uint_of_string) in H.
  rewrite !NilZero.usu in H by apply to_uint_nonnil.
  injection H as H. exact H.
Qed.

Section ExporterFacts.

Context {Cgroup Stats Namespace Sample Desc metric F : Type}.
Context (Cgroup_Stat : Cgroup -> error + Stats).
Context (metric_collect : metric -> string -> Stats -> Namespace -> list Sample).
Context (metric_desc : metric -> Namespace -> Desc).
Context (float64 : N -> F).

Lemma add_all_tables (c : @Collector Cgroup Namespace metric) l :
  ns (add_all c l).2 = ns c /\ metrics (add_all c l).2 = metrics c.
Proof.
  revert c. induction l as [|[id cg] rest IH]; intros c; [split; reflexivity|].
  cbn [add_all fst snd]. destruct (IH (Add c id cg).2) as [-> ->].
  unfold Add. destruct (cgroups c !! id); split; reflexivity.
Qed.

(** Property X26.  [Describe] sends one descriptor per entry of the five
    tables, in the order [New] appended them (pid, cpu, memory, hugetlb,
    blkio), whatever has been registered since. *)
Theorem Describe_lists_the_tables_in_order :
  forall pid cpu mem huge blk namespace (l : list (string * Cgroup)),
    Describe metric_desc (add_all (New pid cpu mem huge blk namespace) l).2
    = map (fun m => metric_desc m namespace) (pid ++ cpu ++ mem ++ huge ++ blk).
Proof.
  intros pid cpu mem huge blk namespace l. unfold Describe.
  destruct (add_all_tables (New pid cpu mem huge blk namespace) l) as [-> ->].
  unfold New. cbn [ns metrics]. rewrite app_nil_l, <- !app_assoc. reflexivity.
Qed.

(** Property X27.  A collector fresh from [New] tracks nothing: a [Collect] on
    it starts no goroutine, sends nothing and logs nothing. *)
Theorem New_collector_exports_nothing :
  forall pid cpu mem huge blk namespace s,
    let c := New pid cpu mem huge blk namespace in
    cgroups c = ∅
    /\ (reachable Cgroup_Stat metric_collect c (map_to_list (cgroups c)) s ->
        pool s = [] /\ ch s = [] /\ logged s = []).
Proof.
  intros pid cpu mem huge blk namespace s c. split; [reflexivity|].
  change (cgroups c) with (∅ : gmap string Cgroup). rewrite map_to_list_empty.
  intros Hs.
  destruct (inv_reachable Cgroup_Stat metric_collect c [] s (NoDup_nil_2) Hs)
    as [Hord _ _ _ Hch Hlog _].
  simpl in Hord. apply app_eq_nil in Hord as [Hp _].
  apply map_eq_nil in Hp. rewrite Hp in Hch, Hlog. simpl in Hch, Hlog.
  split; [exact Hp|]. split.
  - destruct (ch s) as [|p rest]; [reflexivity|].
    exfalso. exact (not_elem_of_nil _ (Hch p ltac:(left))).
  - destruct (logged s) as [|p rest]; [reflexivity|].
    exfalso. exact (not_elem_of_nil _ (Hlog p ltac:(left))).
Qed.

Lemma blkioValues_map (entries : list BlkioEntry.t) :
  blkioValues float64 entries
  = map (fun e => {| value.v := float64 (BlkioEntry.Value e);
                     value.l := [ BlkioEntry.Op e;
                                  FormatUint (BlkioEntry.Major e);
                                  FormatUint (BlkioEntry.Minor e) ] |}) entries.
Proof.
  unfold blkioValues.
  set (g := fun e => {| value.v := float64 (BlkioEntry.Value e);
                        value.l := [ BlkioEntry.Op e;
                                     FormatUint (BlkioEntry.Major e);
                                     FormatUint (BlkioEntry.Minor e) ] |}).
  assert (H : forall acc : list (value.t F),
            fold_left (fun out e => (out ++ [g e])%list) entries acc
            = (acc ++ map g entries)%list).
  { induction entries as [|e rest IH]; intros acc; simpl.
    - rewrite app_nil_r. reflexivity.
    - rewrite IH, <- app_assoc. reflexivity. }
  exact (H []).
Qed.

(** Property X28.  [blkioValues] gives one value per entry, in the order of
    the entries: the converted [Value], labelled with the operation and the
    decimal major and minor numbers. *)
Theorem blkioValues_one_value_per_entry :
  forall entries,
    length (blkioValues float64 entries) = length entries
    /\ forall i e,
         entries !! i = Some e ->
         blkioValues float64 entries !! i
         = Some {| value.v := float64 (BlkioEntry.Value e);
                   value.l := [ BlkioEntry.Op e;
                                FormatUint (BlkioEntry.Major e);
                                FormatUint (BlkioEntry.Minor e) ] |}.
Proof.
  intros entries. rewrite blkioValues_map. split; [apply length_map|].
  intros i e Hi.
  change (map ?f entries) with (f <$> entries).
  rewrite list_lookup_fmap, Hi. reflexivity.
Qed.

(** Property X29.  Two values of [blkioValues] carry the same labels only when
    their entries agree on the operation, the major and the minor number. *)
Theorem blkioValues_labels_identify_the_device :
  forall entries i j x y e1 e2,
    entries !! i = Some e1 ->
    entries !! j = Some e2 ->
    blkioValues float64 entries !! i = Some x ->
    blkioValues float64 entries !! j = Some y ->
    value.l x = value.l y ->
    BlkioEntry.Op e1 = BlkioEntry.Op e2
    /\ BlkioEntry.Major e1 = BlkioEntry.Major e2
    /\ BlkioEntry.Minor e1 = BlkioEntry.Minor e2.
Proof.
  intros entries i j x y e1 e2 H1 H2 Hx Hy Hl.
  rewrite blkioValues_map in Hx, Hy.
  change (map ?f entries) with (f <$> entries) in Hx, Hy.
  rewrite list_lookup_fmap in Hx, Hy. rewrite H1 in Hx. rewrite H2 in Hy.
  simpl in Hx, Hy. injection Hx as <-. injection Hy as <-. simpl in Hl.
  injection Hl as Hop Hmaj Hmin.
  split; [exact Hop|]. split; apply FormatUint_inj; assumption.
Qed.

End ExporterFacts.

(** ** Runs on the sample kernel and the sample collector *)

(** A limit of zero: both files are written in list order, nothing is read. *)
Lemma Update_without_both_limits_witness :
  exists evs r,
    (Update Sim.env m0 "mygroup" (Some (limits (Some 0%N) (Some 5%N) None None))
       (Sim.boot Sim.quiet)).1 = Returns r
    /\ log (Update Sim.env m0 "mygroup" (Some (limits (Some 0%N) (Some 5%N) None None))
              (Sim.boot Sim.quiet)).2
       = (log (Sim.boot Sim.quiet) ++ evs)%list
    /\ write_run (defaultFilePerm Sim.env)
         (map (knob_call m0 "mygroup")
            (provided_knobs (limits (Some 0%N) (Some 5%N) None None)
               (memory_of (Some 0%N) (Some 5%N) None)))
         evs r.
Proof.
  exact (Update_without_both_limits_keeps_list_order Sim.env m0 "mygroup"
           (limits (Some 0%N) (Some 5%N) None None)
           (memory_of (Some 0%N) (Some 5%N) None)
           (Sim.boot Sim.quiet) eq_refl eq_refl).
Defined.

(** A successful [Create] with a memory and a kernel limit: five calls, the
    kernel-memory file written three times. *)
Lemma Create_success_witness :
  log (Create Sim.env m0 "mygroup" (Some (limits (Some 4%N) None (Some 3%N) None))
         (Sim.boot Sim.quiet)).2
  = [ EvMkdirAll dir0 493%N None;
      EvWriteFile (dir0 +:+ "/memory.kmem.limit_in_bytes") "1" 420%N None;
      EvWriteFile (dir0 +:+ "/memory.kmem.limit_in_bytes") "-1" 420%N None;
      EvWriteFile (dir0 +:+ "/memory.limit_in_bytes") "4" 420%N None;
      EvWriteFile (dir0 +:+ "/memory.kmem.limit_in_bytes") "3" 420%N None ].
Proof.
  rewrite (Create_success_call_sequence Sim.env m0 "mygroup"
             (limits (Some 4%N) None (Some 3%N) None)
             (memory_of (Some 4%N) None (Some 3%N))
             (Sim.boot Sim.quiet) eq_refl ltac:(vm_compute; reflexivity)).
  vm_compute. reflexivity.
Defined.

Lemma Path_separates_witness : Path m0 "web" <> Path m0 "db".
Proof.
  apply (Path_separates_plain_paths m0 "web" "db"); [reflexivity | reflexivity | discriminate].
Defined.

(** With [memory.stat] in place and no usage file, the first read fails and
    is the last thing done. *)
Lemma Stat_reads_usage_files_witness :
  (Stat Sim.env m0 "mygroup" {| Stats.Memory := None |}
     (Sim.boot (stat_kernel (two_lines "cache 1" "rss 2") []))).1.1
  = Some (PathError "open" (dir0 +:+ "/memory.usage_in_bytes") (ErrnoError Sim.ENOENT))
  /\ length (log (Stat Sim.env m0 "mygroup" {| Stats.Memory := None |}
                    (Sim.boot (stat_kernel (two_lines "cache 1" "rss 2") []))).2) = 3%nat.
Proof.
  edestruct (Stat_reads_usage_files_until_first_error Sim.env m0 "mygroup"
               {| Stats.Memory := None |}
               (Sim.boot (stat_kernel (two_lines "cache 1" "rss 2") []))) as [He Hl].
  - vm_compute. reflexivity.
  - rewrite He, Hl. split; vm_compute; reflexivity.
Defined.

(** A line without a value: the call fails and the snapshot handed in is
    returned as it was. *)
Lemma Stat_parse_failure_witness :
  (Stat Sim.env m0 "mygroup" {| Stats.Memory := None |}
     (Sim.boot (stat_kernel (two_lines "cache 1" "rss") usage_files))).1
  = (Some Sim.ErrInvalidFormat, {| Stats.Memory := None |}).
Proof.
  apply (Stat_parse_failure_leaves_stats Sim.env m0 "mygroup" {| Stats.Memory := None |}
           (Sim.boot (stat_kernel (two_lines "cache 1" "rss") usage_files))
           Sim.ErrInvalidFormat).
  vm_compute. reflexivity.
Defined.

(** A key given twice: the second line is the one kept. *)
Lemma Stat_named_counters_witness :
  MemoryStat.Cache
    <$> Stats.Memory
          (Stat Sim.env m0 "mygroup" {| Stats.Memory := None |}
             (Sim.boot (stat_kernel (two_lines "cache 1" "cache 2") usage_files))).1.2
  = Some 2%N.
Proof.
  edestruct (Stat_named_counters_last_line_wins Sim.env m0 "mygroup"
               {| Stats.Memory := None |}
               (Sim.boot (stat_kernel (two_lines "cache 1" "cache 2") usage_files)))
    as (mem' & Hm & Hv).
  - vm_compute. reflexivity.
  - rewrite Hm. simpl. f_equal.
    rewrite (Hv "cache" MemoryStat.Cache ltac:(left)). vm_compute. reflexivity.
Defined.

Lemma Stat_usage_fields_witness :
  (fun s => MemoryEntry.Limit (MemoryStat.Swap s))
    <$> Stats.Memory
          (Stat Sim.env m0 "mygroup" {| Stats.Memory := None |}
             (Sim.boot (stat_kernel (two_lines "cache 1" "rss 2") usage_files))).1.2
  = Some 7%N.
Proof.
  destruct (Stat_usage_fields_hold_what_was_read Sim.env m0 "mygroup"
              {| Stats.Memory := None |}
              (Sim.boot (stat_kernel (two_lines "cache 1" "rss 2") usage_files))
              ltac:(vm_compute; reflexivity))
    as (mem' & Hm & Hv).
  rewrite Hm. simpl. f_equal.
  assert (Hin : ("memory.memsw.limit_in_bytes",
                 fun s => MemoryEntry.Limit (MemoryStat.Swap s)) ∈ usage_table).
  { unfold usage_table. do 7 right. left. }
  pose proof (Hv _ _ Hin) as H. vm_compute in H. injection H as H. symmetry. exact H.
Defined.

(** On the quiet kernel the first registration returns descriptor 1 and the
    second descriptor 3. *)
Lemma OOMEventFD_twice_witness :
  1%N <> 3%N
  /\ fdt (OOMEventFD Sim.env m0 "other"
            (OOMEventFD Sim.env m0 "mygroup" (Sim.boot Sim.quiet)).2).2
     = <[3%N := FdEvent]> (<[1%N := FdEvent]> (fdt (Sim.boot Sim.quiet))).
Proof.
  exact (OOMEventFD_twice_gives_distinct_descriptors Sim.env m0 "mygroup" "other"
           (Sim.boot Sim.quiet) 1%N 3%N
           ltac:(vm_compute; reflexivity) ltac:(vm_compute; reflexivity)).
Defined.

Lemma sample_final_reachable :
  reachable sample_Stat sample_collect sample_collector sample_order sample_final.
Proof. apply run_reachable, reach_init. Qed.

Lemma sample_midway_reachable :
  reachable sample_Stat sample_collect sample_collector sample_order sample_midway.
Proof. apply run_reachable, reach_init. Qed.

(** On the sample collector: ["a"] has been exported, ["b"] logged. *)
Lemma Collect_treats_each_cgroup_witness :
  sent_by "a" (ch sample_final) = [("container_cache", 10%N); ("container_rss", 10%N)]
  /\ logged_for "b" (logged sample_final) = [errors_New "no such cgroup"].
Proof.
  destruct (Collect_treats_each_cgroup_on_its_own sample_Stat sample_collect
              sample_collector sample_order sample_final
              (Permutation_refl _) sample_final_reachable
              ltac:(vm_compute; reflexivity)) as [H _].
  pose proof (H "a" (inr 10%N) ltac:(vm_compute; reflexivity)) as Ha.
  pose proof (H "b" (inl (errors_New "no such cgroup")) ltac:(vm_compute; reflexivity)) as Hb.
  simpl in Ha, Hb. destruct Ha as [Ha _]. destruct Hb as [_ Hb].
  split; [rewrite Ha; vm_compute; reflexivity | exact Hb].
Defined.

(** Midway through the sample run ["a"] has sent its first sample only. *)
Lemma Collect_sends_in_table_order_witness :
  sent_by "a" (ch sample_midway)
    `prefix_of` [("container_cache", 10%N); ("container_rss", 10%N)].
Proof.
  pose proof (Collect_sends_in_table_order_throughout sample_Stat sample_collect
                sample_collector sample_order sample_midway "a" (inr 10%N)
                (Permutation_refl _) sample_midway_reachable
                ltac:(vm_compute; reflexivity)) as H.
  simpl in H. destruct H as [H _]. exact H.
Defined.

Lemma WaitGroup_witness : (0 <= wg sample_midway)%Z.
Proof.
  exact (proj1 (WaitGroup_counts_unfinished_goroutines sample_Stat sample_collect
                  sample_collector sample_order sample_midway
                  (Permutation_refl _) sample_midway_reachable)).
Defined.

Lemma Collect_releases_the_lock_witness :
  readers sample_midway
  = match pc sample_midway with
    | PRange _ | PGo _ _ _ | PRUnlock => 1%nat
    | PRLock | PWait | PReturned => 0%nat
    end.
Proof.
  exact (Collect_releases_the_lock_before_waiting sample_Stat sample_collect
           sample_collector sample_order sample_midway sample_midway_reachable).
Defined.

Lemma Add_then_Collect_witness :
  (Add sample_empty "a" (inr 10%N)).1 = None
  /\ sent_by "a" (ch sample_added_final)
     = expected sample_collect sample_empty "a" 10%N.
Proof.
  apply (Add_then_Collect_exports_the_new_cgroup sample_Stat sample_collect
           sample_empty "a" (inr 10%N) 10%N
           (map_to_list (cgroups (Add sample_empty "a" (inr 10%N)).2))
           sample_added_final).
  - reflexivity.
  - reflexivity.
  - apply Permutation_refl.
  - apply run_reachable, reach_init.
  - vm_compute. reflexivity.
Defined.

(** Two entries for the same device and operation carry the same labels. *)
Lemma blkioValues_labels_witness :
  BlkioEntry.Op {| BlkioEntry.Op := "Read"; BlkioEntry.Major := 8; BlkioEntry.Minor := 0;
                   BlkioEntry.Value := 5 |}
  = BlkioEntry.Op {| BlkioEntry.Op := "Read"; BlkioEntry.Major := 8; BlkioEntry.Minor := 0;
                     BlkioEntry.Value := 7 |}
  /\ 8%N = 8%N /\ 0%N = 0%N.
Proof.
  exact (blkioValues_labels_identify_the_device (fun x : N => x) sample_entries
           0%nat 1%nat _ _ _ _ eq_refl eq_refl eq_refl eq_refl eq_refl).
Defined.

(** After the first step of the sample run, one unit of the measure is
    used up. *)
Lemma Collect_steps_witness :
  (1 + measure sample_Stat sample_collect sample_collector sample_order
         (run sample_Stat sample_collect sample_collector sample_order [Main] Collect_init)
   = measure sample_Stat sample_collect sample_collector sample_order Collect_init)%nat.
Proof.
  refine (proj1 (Collect_run_length_is_bounded sample_Stat sample_collect
                   sample_collector sample_order 1 _ (Permutation_refl _) _)).
  eapply run_of_step; [exists Main; reflexivity | apply run_of_nil].
Defined.
